(** * hyperspec: benchmark driver, release script and the typed JSON core

    A shallow embedding of the repository's Python sources:
    - [benchmarks/bench_msgspec_vs_hyperspec.py]  (modules [Bench] and
      [BenchBody], the latter for the body of [_bench_one]),
    - [scripts/release_github.py]                 (module [Release]),
    - [examples/geojson/hyperspec_geojson.py]     (module [GeoJSON]).

    Python [float] is IEEE-754 binary64; it is embedded as Rocq's primitive
    [float], whose operations are specified against [SpecFloat] by the
    kernel's float axioms.  Python [int] is unbounded and embedded as [Z]. *)

From Stdlib Require Import ZArith NArith List String Ascii Bool Lia Floats.
From Stdlib Require Import Sorted Permutation.
Import ListNotations.

(** ** Python runtime: text, exceptions and float primitives *)

Module Text.

(** A [str] is a sequence of Unicode code points. *)
Definition char : Type := N.
Definition str : Type := list char.

(** A literal of the source, as a [str]. *)
Definition lit (s : string) : str := map N_of_ascii (list_ascii_of_string s).

Definition nl : char := 10%N.

(** Whitespace as [str.strip] and the class [\s] of a [str] pattern see it
    ([Py_UNICODE_ISSPACE]). *)
Definition isspace (c : char) : bool :=
  ((9 <=? c) && (c <=? 13) || (28 <=? c) && (c <=? 32) || (c =? 133)
   || (c =? 160) || (c =? 5760) || (8192 <=? c) && (c <=? 8202)
   || (c =? 8232) || (c =? 8233) || (c =? 8239) || (c =? 8287)
   || (c =? 12288))%N.

Fixpoint lstrip (s : str) : str :=
  match s with
  | c :: s' => if isspace c then lstrip s' else s
  | [] => []
  end.

Definition rstrip (s : str) : str := rev (lstrip (rev s)).

(** [s.strip()]. *)
Definition strip (s : str) : str := rstrip (lstrip s).

End Text.

Module Py.

(** The exceptions the embedded code can raise. *)
Inductive exn : Type :=
| ZeroDivisionError
| StatisticsError
| ImportError (module_name : string)
| RuntimeError (msg : Text.str)
| BenchFailure.

(** A computation that returns or raises. *)
Definition result (A : Type) : Type := (exn + A)%type.

Definition ok {A} (a : A) : result A := inr a.
Definition raise {A} (e : exn) : result A := inl e.

Definition rbind {A B} (m : result A) (k : A -> result B) : result B :=
  match m with
  | inl e => inl e
  | inr a => k a
  end.

(** [x / y] on floats: Python raises where IEEE would give an infinity or NaN. *)
Definition truediv (x y : float) : result float :=
  if (y =? 0)%float then raise ZeroDivisionError else ok (x / y)%float.

(** [float("nan")]. *)
Definition float_nan : float := nan.

End Py.

(** ** benchmarks/bench_msgspec_vs_hyperspec.py *)

Module Bench.
Import Py.

Local Open Scope float_scope.

(** [_pct], lines 27-30. *)
Definition _pct (delta base : float) : result float :=
  if base =? 0 then ok float_nan
  else rbind (truediv delta base) (fun q => ok (100 * q)).

(** [_classify_regression], lines 33-43. *)
Definition _classify_regression (pct_slower : float) : string :=
  if pct_slower <=? 0 then "hyperspec faster"%string
  else if pct_slower <=? 1 then "within 1%"%string
  else if pct_slower <=? 5 then "within 5%"%string
  else if pct_slower <=? 10 then "within 10%"%string
  else "more than 10%"%string.

(** The two libraries the driver imports and times. *)
Inductive lib : Type := msgspec | hyperspec.

(** What [_bench_one] returns: the dict with keys [instantiate_s] and
    [validate_s]. *)
Record timings : Type := { instantiate_s : float; validate_s : float }.

(** What a run of the driver cannot decide by itself: whether an import
    succeeds, and what the [k]-th call of [_bench_one] (counted from 0 over
    the whole run) measures on the wall clock; [None] when that call raises. *)
Record world : Type := {
  import_ok : lib -> bool;
  measure : nat -> lib -> Z -> option timings
}.

(** The parsed command line ([argparse], lines 172-181). *)
Record args : Type := { arg_n : Z; arg_runs : Z; arg_warmup : Z }.

(** The lines the driver prints.  A formatted line keeps the values that are
    formatted into it; text that does not depend on them is kept as text. *)
Inductive line : Type :=
| LText (s : string)
| LImportError (l : lib)
| LPython
| LConfig (n runs warmup : Z)
| LVersion (l : lib)
| LBlank
| LRun (i runs : Z) (m h : timings) (inst_pct val_pct : float)
| LSummary (name : string) (m_med h_med pct : float) (label : string)
| LWorst (worst_pct : float) (label : string).

Inductive event : Type :=
| Stdout (l : line)
| Stderr (l : line)
| Call (l : lib) (n : Z).

(** The driver's state: how many times [_bench_one] was called, and what
    happened so far, oldest first. *)
Record state : Type := { calls : nat; trace : list event }.

Definition init : state := {| calls := 0; trace := [] |}.

(** Statements of [main]: they change the state and return or raise. *)
Definition M (A : Type) : Type := state -> result A * state.

Definition ret {A} (a : A) : M A := fun st => (ok a, st).
Definition throw {A} (e : exn) : M A := fun st => (raise e, st).
Definition lift {A} (r : result A) : M A := fun st => (r, st).

Definition bind {A B} (m : M A) (k : A -> M B) : M B :=
  fun st =>
    match m st with
    | (inl e, st') => (inl e, st')
    | (inr a, st') => k a st'
    end.

Declare Scope bench_scope.
Delimit Scope bench_scope with bench.
Notation "x <- m ;; k" := (bind m (fun x => k))
  (at level 100, m at next level, right associativity) : bench_scope.
Notation "' p <- m ;; k" := (bind m (fun x => match x with p => k end))
  (at level 100, p pattern, m at next level, right associativity) : bench_scope.
Notation "m ;; k" := (bind m (fun _ => k))
  (at level 100, right associativity) : bench_scope.
Local Open Scope bench_scope.

Definition emit (e : event) : M unit :=
  fun st => (ok tt, {| calls := calls st; trace := trace st ++ [e] |}).

Definition print (l : line) : M unit := emit (Stdout l).
Definition eprint (l : line) : M unit := emit (Stderr l).

(** [for i in range(k): acc = body(i, acc)], stopping at the first raise. *)
Fixpoint for_loop {S} (count : nat) (i : Z) (body : Z -> S -> M S) (acc : S) : M S :=
  match count with
  | O => ret acc
  | Datatypes.S count' => acc' <- body i acc ;; for_loop count' (i + 1) body acc'
  end.

Definition for_range {S} (k : Z) (body : Z -> S -> M S) (acc : S) : M S :=
  for_loop (Z.to_nat k) 0%Z body acc.

(** [sorted(data)]: Python's sort is stable and compares with [<].  On a
    list of numbers, which is what a run collects, a stable sort has one
    result, and inserting each element after those that are not greater
    gives it.  On a list that holds a NaN, the result of Python's sort
    depends on its algorithm; that is not modelled. *)
Fixpoint insort (x : float) (l : list float) : list float :=
  match l with
  | [] => [x]
  | y :: l' => if x <? y then x :: y :: l' else y :: insort x l'
  end.

Definition sorted (data : list float) : list float :=
  fold_left (fun acc x => insort x acc) data [].

(** [statistics.median]. *)
Definition median (data : list float) : result float :=
  let data := sorted data in
  let n := List.length data in
  if (n =? 0)%nat then raise StatisticsError
  else if (n mod 2 =? 1)%nat then ok (nth (n / 2) data 0)
  else
    let i := (n / 2)%nat in
    truediv (nth (i - 1) data 0 + nth i data 0) 2.

(** The builtin [max] over floats: the first argument is kept until a later
    one is greater. *)
Definition py_max (xs : list float) (first : float) : float :=
  fold_left (fun m x => if m <? x then x else m) xs first.

(** The measured lists of [main], lines 210-211. *)
Record samples : Type := {
  msg_inst : list float; msg_val : list float;
  hyp_inst : list float; hyp_val : list float
}.

Definition no_samples : samples :=
  {| msg_inst := []; msg_val := []; hyp_inst := []; hyp_val := [] |}.

(** The verdicts, lines 253 and 255; each starts with a line break. *)
Definition fail_text : string :=
  String "010"%char "FAIL: hyperspec regression > 1% (unacceptable).".
Definition pass_text : string :=
  String "010"%char
    "PASS: hyperspec within 1% for both instantiation and validation.".
Definition import_hint : string :=
  "ERROR: couldn't import `msgspec` (upstream). Install it first, e.g. `pip install msgspec`.".

Section Main.

Variable w : world.

(** [_bench_one], lines 46-168: it builds the payloads, times the two
    phases and returns the two durations, or raises.  The durations are the
    wall clock's; the call is recorded and its outcome read from the world. *)
Definition _bench_one (l : lib) (n : Z) : M timings :=
  fun st =>
    let st' := {| calls := S (calls st); trace := trace st ++ [Call l n] |} in
    match measure w (calls st) l n with
    | Some t => (ok t, st')
    | None => (raise BenchFailure, st')
    end.

(** One warmup iteration, lines 207-208. *)
Definition warmup_body (n : Z) (_ : Z) (_ : unit) : M unit :=
  _bench_one msgspec (Z.max 100 (n / 100)) ;;
  _bench_one hyperspec (Z.max 100 (n / 100)) ;;
  ret tt.

(** One measured run, lines 214-227. *)
Definition run_body (n runs : Z) (i : Z) (acc : samples) : M samples :=
  m <- _bench_one msgspec n ;;
  h <- _bench_one hyperspec n ;;
  let acc' := {| msg_inst := msg_inst acc ++ [instantiate_s m];
                 msg_val := msg_val acc ++ [validate_s m];
                 hyp_inst := hyp_inst acc ++ [instantiate_s h];
                 hyp_val := hyp_val acc ++ [validate_s h] |} in
  inst_pct <- lift (_pct (instantiate_s h - instantiate_s m) (instantiate_s m)) ;;
  val_pct <- lift (_pct (validate_s h - validate_s m) (validate_s m)) ;;
  print (LRun (i + 1) runs m h inst_pct val_pct) ;;
  ret acc'.

(** [summarize], lines 229-238. *)
Definition summarize (name : string) (msg hyp : list float)
  : M (float * float * float) :=
  m_med <- lift (median msg) ;;
  h_med <- lift (median hyp) ;;
  pct <- lift (_pct (h_med - m_med) m_med) ;;
  print (LSummary name m_med h_med pct (_classify_regression pct)) ;;
  ret (m_med, h_med, pct).

(** [main], lines 171-256; its value is the process's exit status. *)
Definition main (a : args) : M Z :=
  if negb (import_ok w msgspec) then
    eprint (LText import_hint) ;;
    eprint (LImportError msgspec) ;;
    ret 2%Z
  else if negb (import_ok w hyperspec) then
    throw (ImportError "hyperspec")
  else
    let runs := Z.max 1 (Z.min (arg_runs a) 10) in
    let warmup := Z.max 0 (arg_warmup a) in
    let n := arg_n a in
    print LPython ;;
    print (LConfig n runs warmup) ;;
    print (LVersion msgspec) ;;
    print (LVersion hyperspec) ;;
    print LBlank ;;
    for_range warmup (warmup_body n) tt ;;
    acc <- for_range runs (run_body n runs) no_samples ;;
    print LBlank ;;
    '(_, _, inst_pct) <- summarize "instantiate" (msg_inst acc) (hyp_inst acc) ;;
    '(_, _, val_pct) <- summarize "validate" (msg_val acc) (hyp_val acc) ;;
    let worst_pct := py_max [inst_pct; val_pct] 0 in
    print LBlank ;;
    print (LWorst worst_pct (_classify_regression worst_pct)) ;;
    if (1 <? inst_pct) || (1 <? val_pct) then
      eprint (LText fail_text) ;;
      ret 1%Z
    else
      print (LText pass_text) ;;
      ret 0%Z.

End Main.

End Bench.

(** ** What a finished benchmark run is expected to compute *)

Module BenchSpec.
Import Py Bench.
Local Open Scope float_scope.

(** The value [_pct] returns. *)
Definition pct_value (delta base : float) : float :=
  if base =? 0 then nan else 100 * (delta / base).

(** The value [statistics.median] returns on a list that is not empty. *)
Definition median_value (data : list float) : float :=
  let data := sorted data in
  let n := List.length data in
  if (n mod 2 =? 1)%nat then nth (n / 2) data 0
  else (nth (n / 2 - 1) data 0 + nth (n / 2) data 0) / 2.

(** The regression percentage [summarize] computes from two sample lists. *)
Definition median_pct (msg hyp : list float) : float :=
  pct_value (median_value hyp - median_value msg) (median_value msg).

(** The calls of [_bench_one] in a trace, in order. *)
Definition bench_calls (tr : list event) : list (lib * Z) :=
  flat_map (fun e => match e with Call l n => [(l, n)] | _ => [] end) tr.

(** The run lines in a trace, in order: the index printed and the total. *)
Definition run_lines (tr : list event) : list (Z * Z) :=
  flat_map (fun e => match e with
                     | Stdout (LRun i runs _ _ _ _) => [(i, runs)]
                     | _ => []
                     end) tr.

Section Expected.

Variable t : nat -> timings.

(** What the warmup loop appends to the trace. *)
Definition warmup_trace (n : Z) (count : nat) : list event :=
  List.concat (repeat [Call msgspec (Z.max 100 (n / 100));
                  Call hyperspec (Z.max 100 (n / 100))] count).

(** What one measured run appends to the trace, when the clock reads [t]. *)
Definition run_events (n runs : Z) (i : Z) (c : nat) : list event :=
  let m := t c in
  let h := t (S c) in
  [Call msgspec n; Call hyperspec n;
   Stdout (LRun (i + 1) runs m h
             (pct_value (instantiate_s h - instantiate_s m) (instantiate_s m))
             (pct_value (validate_s h - validate_s m) (validate_s m)))].

Fixpoint run_trace (n runs : Z) (count : nat) (i : Z) (c : nat) : list event :=
  match count with
  | O => []
  | S count' => run_events n runs i c ++ run_trace n runs count' (i + 1) (S (S c))
  end.

(** The samples the measured runs collect: run [k] makes calls [c + 2k] and
    [c + 2k + 1]. *)
Definition collected (count c : nat) : samples :=
  let ks := seq 0 count in
  {| msg_inst := map (fun k => instantiate_s (t (c + 2 * k))) ks;
     msg_val := map (fun k => validate_s (t (c + 2 * k))) ks;
     hyp_inst := map (fun k => instantiate_s (t (c + 2 * k + 1))) ks;
     hyp_val := map (fun k => validate_s (t (c + 2 * k + 1))) ks |}.

(** The summary line of [summarize]. *)
Definition summary_line (name : string) (msg hyp : list float) : line :=
  LSummary name (median_value msg) (median_value hyp) (median_pct msg hyp)
    (_classify_regression (median_pct msg hyp)).

(** The whole trace of a run of [main] in which both imports succeed and
    every call of [_bench_one] returns what the clock [t] reads. *)
Definition finished_trace (a : args) : list event :=
  let runs := Z.max 1 (Z.min (arg_runs a) 10) in
  let warmup := Z.max 0 (arg_warmup a) in
  let n := arg_n a in
  let s := collected (Z.to_nat runs) (2 * Z.to_nat warmup) in
  let inst_pct := median_pct (msg_inst s) (hyp_inst s) in
  let val_pct := median_pct (msg_val s) (hyp_val s) in
  let worst_pct := py_max [inst_pct; val_pct] 0 in
  [Stdout LPython; Stdout (LConfig n runs warmup); Stdout (LVersion msgspec);
   Stdout (LVersion hyperspec); Stdout LBlank]
  ++ warmup_trace n (Z.to_nat warmup)
  ++ run_trace n runs (Z.to_nat runs) 0 (2 * Z.to_nat warmup)
  ++ [Stdout LBlank;
      Stdout (summary_line "instantiate" (msg_inst s) (hyp_inst s));
      Stdout (summary_line "validate" (msg_val s) (hyp_val s));
      Stdout LBlank;
      Stdout (LWorst worst_pct (_classify_regression worst_pct));
      if (1 <? inst_pct) || (1 <? val_pct)
      then Stderr (LText fail_text)
      else Stdout (LText pass_text)].

End Expected.

(** Appending one run's samples, and appending sample lists. *)
Definition extend (acc : samples) (m h : timings) : samples :=
  {| msg_inst := msg_inst acc ++ [instantiate_s m];
     msg_val := msg_val acc ++ [validate_s m];
     hyp_inst := hyp_inst acc ++ [instantiate_s h];
     hyp_val := hyp_val acc ++ [validate_s h] |}.

Definition join (a b : samples) : samples :=
  {| msg_inst := msg_inst a ++ msg_inst b;
     msg_val := msg_val a ++ msg_val b;
     hyp_inst := hyp_inst a ++ hyp_inst b;
     hyp_val := hyp_val a ++ hyp_val b |}.

(** A run to evaluate the driver on: both imports succeed, every call of
    [_bench_one] on msgspec (the even calls) takes 1 s and 2 s, and every
    call on hyperspec (the odd calls) takes 1.5 s and 2 s. *)
Definition demo_clock (k : nat) : timings :=
  if Nat.even k
  then {| instantiate_s := 1; validate_s := 2 |}
  else {| instantiate_s := 1.5; validate_s := 2 |}.

Definition demo_world : world :=
  {| import_ok := fun _ => true;
     measure := fun k _ _ => Some (demo_clock k) |}.

Definition demo_args : args :=
  {| arg_n := 10000; arg_runs := 25; arg_warmup := -3 |}.

(** A statement of [main] that does not raise [ZeroDivisionError]. *)
Definition safe {A} (m : M A) : Prop :=
  forall st, fst (m st) <> raise ZeroDivisionError.

(** The lines of fixed text in a trace: the verdict, and the import hint. *)
Definition is_text (e : event) : bool :=
  match e with
  | Stdout (LText _) | Stderr (LText _) => true
  | _ => false
  end.

(** A statement of [main] that prints no line of fixed text. *)
Definition quiet {A} (m : M A) : Prop :=
  forall st, filter is_text (trace (snd (m st))) = filter is_text (trace st).

(** A statement that ends in one of three ways when no fixed text was
    printed before it: it returns 1 and has printed the FAIL line to
    stderr, it returns 0 and has printed the PASS line to stdout, or it
    raises and has printed neither. *)
Definition judged (m : M Z) : Prop :=
  forall st, filter is_text (trace st) = [] ->
    let r := m st in
    (fst r = ok 1%Z /\ filter is_text (trace (snd r)) = [Stderr (LText fail_text)]) \/
    (fst r = ok 0%Z /\ filter is_text (trace (snd r)) = [Stdout (LText pass_text)]) \/
    ((exists e, fst r = raise e) /\ filter is_text (trace (snd r)) = []).

End BenchSpec.

(** ** Python's [re] module, for the patterns of the sources *)

Module Re.
Import Text.

(** The patterns the repository's sources use. *)
Inductive re : Type :=
| Chr (c : char)                                  (* a literal character *)
| Rep (greedy : bool) (min : nat) (P : char -> bool)
                                                  (* [P+], [P*], [P*?] of a class *)
| Cat (r1 r2 : re)
| Alt (r1 r2 : re)
| Eps
| Group (name : string) (r : re)                  (* [(?P<name>r)], [(r)] *)
| Bol                                             (* [^] under MULTILINE *)
| Eos                                             (* [\Z] *)
| Ahead (r : re).                                 (* [(?=r)] *)

(** The groups matched so far, the latest first. *)
Definition caps : Type := list (string * str).

Fixpoint group (name : string) (c : caps) : str :=
  match c with
  | [] => []
  | (n, s) :: c' => if String.eqb n name then s else group name c'
  end.

(** A position in the subject: the text before it, nearest character
    first, and the text after it. *)
Definition at_bol (before : str) : bool :=
  match before with
  | [] => true
  | c :: _ => (c =? nl)%N
  end.

(** A greedy repeat takes as many characters as it can and gives them back
    one at a time while the rest of the pattern fails. *)
Fixpoint rep_greedy {R} (P : char -> bool) (min : nat) (before after : str)
  (k : str -> str -> option R) : option R :=
  let stop := if (min =? 0)%nat then k before after else None in
  match after with
  | c :: after' =>
      if P c then
        match rep_greedy P (pred min) (c :: before) after' k with
        | Some r => Some r
        | None => stop
        end
      else stop
  | [] => stop
  end.

(** A lazy repeat takes as few as it can and one more while the rest fails. *)
Fixpoint rep_lazy {R} (P : char -> bool) (min : nat) (before after : str)
  (k : str -> str -> option R) : option R :=
  let more :=
    match after with
    | c :: after' => if P c then rep_lazy P (pred min) (c :: before) after' k else None
    | [] => None
    end in
  if (min =? 0)%nat then
    match k before after with
    | Some r => Some r
    | None => more
    end
  else more.

(** The backtracking matcher: [run r R before after c k] matches [r] at the
    position and hands the position and groups reached to [k], the rest of
    the pattern; the first way that makes [k] succeed wins. *)
Fixpoint run (r : re) (R : Type) (before after : str) (c : caps)
  (k : str -> str -> caps -> option R) {struct r} : option R :=
  match r with
  | Chr x =>
      match after with
      | y :: after' => if (x =? y)%N then k (y :: before) after' c else None
      | [] => None
      end
  | Rep greedy min P =>
      if greedy
      then rep_greedy P min before after (fun b a => k b a c)
      else rep_lazy P min before after (fun b a => k b a c)
  | Cat r1 r2 => run r1 R before after c (fun b a c' => run r2 R b a c' k)
  | Alt r1 r2 =>
      match run r1 R before after c k with
      | Some x => Some x
      | None => run r2 R before after c k
      end
  | Eps => k before after c
  | Group name r' =>
      run r' R before after c
        (fun b a c' =>
           k b a ((name, firstn (List.length after - List.length a) after) :: c'))
  | Bol => if at_bol before then k before after c else None
  | Eos =>
      match after with
      | [] => k before after c
      | _ :: _ => None
      end
  | Ahead r' =>
      match run r' caps before after c (fun _ _ c' => Some c') with
      | Some c' => k before after c'
      | None => None
      end
  end.

(** A match object: where the match starts and ends, and its groups. *)
Record matched : Type := { m_start : nat; m_end : nat; m_groups : caps }.

(** [re.search]: the first position, from the left, at which the pattern
    matches. *)
Fixpoint search_from (r : re) (before after : str) : option matched :=
  match run r (nat * caps) before after []
          (fun b _ c => Some (List.length b, c)) with
  | Some (e, c) =>
      Some {| m_start := List.length before; m_end := e; m_groups := c |}
  | None =>
      match after with
      | [] => None
      | x :: after' => search_from r (x :: before) after'
      end
  end.

Definition search (r : re) (s : str) : option matched := search_from r [] s.

(** [re.sub]: the matches are found from left to right and do not overlap;
    [skip] counts the characters of the current match still to pass. *)
Fixpoint sub_from (r : re) (repl : caps -> str) (skip : nat)
  (before after : str) : str :=
  match after with
  | [] =>
      match skip with
      | S _ => []
      | O =>
          match run r caps before [] [] (fun _ _ c => Some c) with
          | Some c => repl c
          | None => []
          end
      end
  | x :: after' =>
      match skip with
      | S skip' => sub_from r repl skip' (x :: before) after'
      | O =>
          match run r (nat * caps) before after []
                  (fun b _ c => Some (List.length b - List.length before, c)) with
          | Some (S n, c) => repl c ++ sub_from r repl n (x :: before) after'
          | Some (O, c) => repl c ++ x :: sub_from r repl 0 (x :: before) after'
          | None => x :: sub_from r repl 0 (x :: before) after'
          end
      end
  end.

Definition sub (r : re) (repl : caps -> str) (s : str) : str :=
  sub_from r repl 0 [] s.

(** A literal string, and a sequence of patterns. *)
Definition chars (s : string) : re :=
  fold_right (fun c r => Cat (Chr c) r) Eps (lit s).

Definition cat (rs : list re) : re := fold_right Cat Eps rs.

(** The classes of the two patterns. *)
Definition space : char -> bool := isspace.             (* [\s] *)
Definition nonspace (c : char) : bool := negb (isspace c).  (* [\S] *)
Definition newline (c : char) : bool := (c =? nl)%N.    (* [\n] *)
Definition not_newline (c : char) : bool := negb (c =? nl)%N.  (* [[^\n]] *)
Definition any (_ : char) : bool := true.               (* [.] under DOTALL *)

End Re.

(** ** scripts/release_github.py *)

Module Release.
Import Py Text Re.

(** The pattern of [re.search], lines 11-15, under [DOTALL | MULTILINE]:
    [^##\s+Version\s+(?P<version>\S+)[^\n]*\n+(?P<notes>.*?)(?=^##\s+Version|\Z)]. *)
Definition heading_re : re :=
  cat [Bol; chars "##"; Rep true 1 space; chars "Version"; Rep true 1 space;
       Group "version" (Rep true 1 nonspace);
       Rep true 0 not_newline; Rep true 1 newline;
       Group "notes" (Rep false 0 any);
       Ahead (Alt (cat [Bol; chars "##"; Rep true 1 space; chars "Version"])
                  Eos)].

Section Main.

(** Decimal digits outside ASCII: the category Nd of the Unicode database
    of the running Python, which [\d] of a [str] pattern follows. *)
Variable unicode_nd : char -> bool.

(** [urllib.parse.urlencode] of a dict, given as its items in order. *)
Variable urlencode : list (str * str) -> str.

Definition digit (c : char) : bool :=
  if (c <? 128)%N then (48 <=? c)%N && (c <=? 57)%N else unicode_nd c.

(** The pattern and the template of [re.sub], line 26:
    [\{pr\}`(\d+)`] and [#\1]. *)
Definition pr_re : re :=
  cat [chars "{pr}`"; Group "1" (Rep true 1 digit); chars "`"].

Definition pr_template (c : caps) : str := lit "#" ++ group "1" c.

(** What the script does to the world. *)
Inductive event : Type :=
| OpenNewTab (url : str).

(** [main], lines 7-31, on the path and the text of the changelog; it
    returns or raises, and leaves the list of what it did. *)
Definition main (changelog_path changelog : str) : result unit * list event :=
  match search heading_re changelog with
  | None =>
      let msg := lit "Unable to parse changelog at " ++ changelog_path in
      (raise (RuntimeError msg), [])
  | Some m =>
      let version := strip (group "version" (m_groups m)) in
      let notes := strip (group "notes" (m_groups m)) in
      let params :=
        urlencode
          [(lit "title", lit "Version " ++ version);
           (lit "tag", version);
           (lit "body", sub pr_re pr_template notes)] in
      let url := lit "https://github.com/jcrist/hyperspec/releases/new?" ++ params in
      (ok tt, [OpenNewTab url])
  end.

End Main.

End Release.

(** ** The release script's changelog reading, said directly *)

Module ReleaseSpec.
Import Text Re Release.

(** The longest prefix whose characters satisfy [P], and the rest. *)
Fixpoint span (P : char -> bool) (s : str) : str * str :=
  match s with
  | c :: s' =>
      if P c then let (run, rest) := span P s' in (c :: run, rest) else ([], s)
  | [] => ([], [])
  end.

Fixpoint strip_prefix (pre s : str) : option str :=
  match pre, s with
  | [], _ => Some s
  | x :: pre', y :: s' => if (x =? y)%N then strip_prefix pre' s' else None
  | _ :: _, [] => None
  end.

Definition nonempty (s : str) : bool :=
  match s with
  | [] => false
  | _ :: _ => true
  end.

(** [s] starts with the two hashes, blanks and the word Version; the rest
    of [s]. *)
Definition heading_mark (s : str) : option str :=
  match strip_prefix (lit "##") s with
  | None => None
  | Some r =>
      let (blanks, r1) := span space r in
      if nonempty blanks then strip_prefix (lit "Version") r1 else None
  end.

(** A version heading at the start of [s]: the version, and the text
    after the heading's line and the line breaks that follow it. *)
Definition heading (s : str) : option (str * str) :=
  match heading_mark s with
  | None => None
  | Some r =>
      let (blanks, r1) := span space r in
      let (version, r2) := span nonspace r1 in
      let (_, r3) := span not_newline r2 in
      let (breaks, r4) := span newline r3 in
      if nonempty blanks && nonempty version && nonempty breaks
      then Some (version, r4)
      else None
  end.

(** The notes of a section: the text up to the next line that starts a
    version heading, or to the end. *)
Fixpoint notes_until (before s : str) : str :=
  match s with
  | [] => []
  | c :: s' =>
      match (if at_bol before then heading_mark s else None) with
      | Some _ => []
      | None => c :: notes_until (c :: before) s'
      end
  end.

(** The first version heading of a changelog, from the top, with its notes. *)
Fixpoint first_section_from (before s : str) : option (str * str) :=
  match (if at_bol before then heading s else None) with
  | Some (version, r) => Some (version, notes_until [nl] r)
  | None =>
      match s with
      | [] => None
      | c :: s' => first_section_from (c :: before) s'
      end
  end.

Definition first_section (changelog : str) : option (str * str) :=
  first_section_from [] changelog.

Section Rewrite.

Variable unicode_nd : char -> bool.

(** A pull-request reference at the start of [s]: its digits and the text
    after it. *)
Definition pr_ref (s : str) : option (str * str) :=
  match strip_prefix (lit "{pr}`") s with
  | None => None
  | Some r =>
      let (digits, r1) := span (digit unicode_nd) r in
      if nonempty digits
      then match strip_prefix (lit "`") r1 with
           | Some r2 => Some (digits, r2)
           | None => None
           end
      else None
  end.

(** Every pull-request reference rewritten to a hash and its digits.
    [skip] counts the characters of the current reference still to pass. *)
Fixpoint rewrite_pr_from (skip : nat) (s : str) : str :=
  match s with
  | [] => []
  | c :: s' =>
      match skip with
      | S skip' => rewrite_pr_from skip' s'
      | O =>
          match pr_ref s with
          | Some (digits, r) =>
              lit "#" ++ digits ++ rewrite_pr_from (List.length s - List.length r - 1) s'
          | None => c :: rewrite_pr_from 0 s'
          end
      end
  end.

Definition rewrite_pr (s : str) : str := rewrite_pr_from 0 s.

End Rewrite.

(** The pattern's pieces, from its end. *)
Definition mark_re : re :=
  cat [Bol; chars "##"; Rep true 1 space; chars "Version"].

Definition look_re : re := Alt mark_re Eos.

Definition tail_re : re := cat [Group "notes" (Rep false 0 any); Ahead look_re].

Definition breaks_re : re := Cat (Rep true 1 newline) tail_re.

Definition line_re : re := Cat (Rep true 0 not_newline) breaks_re.

Definition version_re : re := Cat (Group "version" (Rep true 1 nonspace)) line_re.

Definition is_some {A} (o : option A) : bool :=
  match o with Some _ => true | None => false end.

(** Where the notes stop: before a line that starts a version heading, or
    at the end of the text. *)
Definition stops (before after : str) : bool :=
  (at_bol before && is_some (heading_mark after)) || negb (nonempty after).

(** Whether the rest of a heading's line is followed by a line break. *)
Definition line_ends (s : str) : bool :=
  nonempty (fst (span newline (snd (span not_newline s)))).

(** A changelog to run the script on: lines joined by line breaks. *)
Definition lines (ls : list string) : str :=
  List.concat (map (fun l => lit l ++ [nl]) ls).

Definition sample_changelog : str :=
  lines ["# Changelog"; "";
         "## Version 0.19.0 (2024-12-27)"; "";
         "- Fix the decoder ({pr}`123`, {pr}`45`)."; "";
         "## Version 0.18.6"; "";
         "- Older."]%string.

(** A stand-in for [urlencode] that keeps the items readable. *)
Definition show_items (items : list (str * str)) : str :=
  List.concat (map (fun kv => fst kv ++ lit "=" ++ snd kv ++ lit "&") items).

End ReleaseSpec.

(** ** The release script's sections, read line by line

    A section headed "## Version <v>", read on lines and not through the
    script's pattern: a heading is a line that starts with the two hashes,
    blanks, the word Version, blanks and the version <v>, all on that one
    line; its notes are the lines after it, up to the next such line. *)

Module ReleaseWords.
Import Py Text Re Release ReleaseSpec.

Definition blank (c : char) : bool := ((c =? 32) || (c =? 9))%N.

(** The version of a heading line, when the line is one. *)
Definition version_of (line : str) : option str :=
  match strip_prefix (lit "##") line with
  | None => None
  | Some r =>
      let (b1, r1) := span blank r in
      match (if nonempty b1 then strip_prefix (lit "Version") r1 else None) with
      | None => None
      | Some r2 =>
          let (b2, r3) := span blank r2 in
          let (v, _) := span (fun c => negb (blank c)) r3 in
          if nonempty b2 && nonempty v then Some v else None
      end
  end.

(** The lines of a text, as [str.split] on the line break gives them. *)
Fixpoint text_lines (s : str) : list str :=
  match s with
  | [] => [[]]
  | c :: s' =>
      if (c =? nl)%N then [] :: text_lines s'
      else
        match text_lines s' with
        | l :: ls => (c :: l) :: ls
        | [] => [[c]]
        end
  end.

(** The lines before the next heading line. *)
Fixpoint section_notes (ls : list str) : list str :=
  match ls with
  | [] => []
  | l :: rest =>
      match version_of l with
      | Some _ => []
      | None => l :: section_notes rest
      end
  end.

(** The first heading line from the top: its version and its notes. *)
Fixpoint section_of (ls : list str) : option (str * str) :=
  match ls with
  | [] => None
  | l :: rest =>
      match version_of l with
      | Some v => Some (v, List.concat (map (fun n => n ++ [nl]) (section_notes rest)))
      | None => section_of rest
      end
  end.

(** What the claim says [main] does. *)
Definition main_as_claimed (unicode_nd : char -> bool)
  (urlencode : list (str * str) -> str) (changelog_path changelog : str)
  : result unit * list event :=
  match section_of (text_lines changelog) with
  | None =>
      (raise (RuntimeError (lit "Unable to parse changelog at " ++ changelog_path)), [])
  | Some (version, notes) =>
      (ok tt,
       [OpenNewTab
          (lit "https://github.com/jcrist/hyperspec/releases/new?"
           ++ urlencode
                [(lit "title", lit "Version " ++ version);
                 (lit "tag", version);
                 (lit "body", rewrite_pr unicode_nd (strip notes))])])
  end.

(** A changelog whose first heading has no version on its line. *)
Definition bare_heading_changelog : str :=
  lines ["## Version"; "## Version 1.0"; ""; "- First."]%string.

(** A changelog with a heading, in the notes, that starts like a version
    heading. *)
Definition versions_changelog : str :=
  lines ["## Version 2.0"; ""; "- New."; "";
         "## Versions of things"; ""; "- Still 2.0."; "";
         "## Version 1.0"; ""; "- Old."]%string.

End ReleaseWords.

(** ** The typed JSON core

    The engine itself ([hyperspec.Struct], [Meta], [convert],
    [json.Decoder], [json.Encoder]) is a compiled extension that is not
    among the sources; the sources only declare schemas with it and call
    it.  It is modelled here from the specification, component by
    component. *)

Module Core.
Import Text.

(** *** The generic value tree *)

(** Modelled from the spec: the generic value tree of section 4.6 (what
    the missing decoder builds for inspection, and what the missing
    converter takes): scalars, sequences and key/value mappings.  An object
    keeps its members in input order. *)
#[warnings="-register-all"]
Inductive json : Type :=
| JNull
| JBool (b : bool)
| JInt (z : Z)
| JFloat (f : float)
| JStr (s : str)
| JArr (items : list json)
| JObj (members : list (str * json)).

(** The member of an object with the given key; a repeated key's last
    member counts. *)
Fixpoint member {A} (key : str) (members : list (str * A)) : option A :=
  match members with
  | [] => None
  | (k, v) :: rest =>
      match member key rest with
      | Some v' => Some v'
      | None => if list_eq_dec N.eq_dec k key then Some v else None
      end
  end.

(** *** Errors *)

(** A step of a field path: a field or key, or a position in a sequence. *)
Inductive step : Type :=
| Key (k : str)
| Index (i : nat).

Definition path : Type := list step.

(** The rule a value broke. *)
Inductive rule : Type :=
| AtLeast (bound : Z)
| AtMost (bound : Z)
| LengthAtLeast (bound : nat)
| LengthAtMost (bound : nat)
| KnownField (unexpected : str).

(** Modelled from the spec: the error taxonomy of section 7, which the
    missing engine raises. *)
Inductive error : Type :=
| SchemaError (what : string)
| ValidationError (at_path : path) (broken : rule)
| TypeError (at_path : path)
| MissingFieldError (field : str)
| UnknownTagError (discriminant : json)
| MissingDiscriminantError
| DecodeError (offset : nat) (expected : string).

Definition result (A : Type) : Type := (error + A)%type.

Definition ok {A} (a : A) : result A := inr a.
Definition err {A} (e : error) : result A := inl e.

Definition bind {A B} (m : result A) (k : A -> result B) : result B :=
  match m with
  | inl e => inl e
  | inr a => k a
  end.

Declare Scope core_scope.
Delimit Scope core_scope with core.
Notation "x <- m ;; k" := (bind m (fun x => k))
  (at level 100, m at next level, right associativity) : core_scope.
Notation "' p <- m ;; k" := (bind m (fun x => match x with p => k end))
  (at level 100, p pattern, m at next level, right associativity) : core_scope.
Local Open Scope core_scope.

(** Fail-fast traversal: the first error, left to right, ends it. *)
Fixpoint traverse {A B} (f : nat -> A -> result B) (i : nat) (l : list A)
  : result (list B) :=
  match l with
  | [] => ok []
  | a :: l' => b <- f i a ;; bs <- traverse f (S i) l' ;; ok (b :: bs)
  end.

(** *** The JSON text reader *)

Definition ch (a : ascii) : char := N_of_ascii a.

Definition quote : char := 34%N.
Definition backslash : char := 92%N.

Definition is_digit (c : char) : bool := ((48 <=? c) && (c <=? 57))%N.

(** JSON's insignificant whitespace: space, tab, line feed, carriage return. *)
Definition is_ws (c : char) : bool :=
  ((c =? 32) || (c =? 9) || (c =? 10) || (c =? 13))%N.

Fixpoint skip_ws (s : str) : str :=
  match s with
  | c :: s' => if is_ws c then skip_ws s' else s
  | [] => []
  end.

(** A reader's failure: how much text was left, and what was expected. *)
Definition failure : Type := (nat * string)%type.
Definition reading (A : Type) : Type := (failure + (A * str))%type.

Definition expected {A} (rest : str) (what : string) : reading A :=
  inl (List.length rest, what).

Fixpoint word (w s : str) : option str :=
  match w, s with
  | [], _ => Some s
  | x :: w', y :: s' => if (x =? y)%N then word w' s' else None
  | _ :: _, [] => None
  end.

(** A run of decimal digits: their value on top of [acc], how many there
    were, and the rest. *)
Fixpoint digits (s : str) (acc : N) (count : nat) : N * nat * str :=
  match s with
  | c :: s' =>
      if is_digit c then digits s' (acc * 10 + (c - 48))%N (S count)
      else (acc, count, s)
  | [] => (acc, count, [])
  end.

(** The binary64 nearest to [m * 10 ^ e], with the sign [neg]. *)
Definition float_of_decimal (neg : bool) (m : N) (e : Z) : float :=
  match m with
  | N0 => if neg then (- 0)%float else 0%float
  | Npos p =>
      SF2Prim
        (if (0 <=? e)%Z
         then binary_normalize prec emax
                (if neg then Z.neg p * 10 ^ e else Z.pos p * 10 ^ e)%Z 0 false
         else SFdiv prec emax (S754_finite neg p 0)
                (S754_finite false (Z.to_pos (10 ^ (- e))) 0))
  end.

(** Modelled from the spec: the number rule of section 4.6, after the
    integer part [int].  A number with no fraction and no exponent is read
    as an integer, any other as a float. *)
Definition read_fraction (neg : bool) (int : N) (s2 : str) : reading json :=
  let frac :=
    match s2 with
    | d :: s3 =>
        if (d =? ch ".")%N then Some (digits s3 int 0) else None
    | [] => None
    end in
  match frac with
  | Some (_, O, s4) => expected s4 "a digit"
  | _ =>
      let '(mant, nfrac, s4) :=
        match frac with
        | Some r => r
        | None => (int, O, s2)
        end in
      let exp :=
        match s4 with
        | e :: s5 =>
            if (e =? ch "e")%N || (e =? ch "E")%N then
              let '(eneg, s6) :=
                match s5 with
                | g :: s6 =>
                    if (g =? ch "-")%N then (true, s6)
                    else if (g =? ch "+")%N then (false, s6)
                    else (false, s5)
                | [] => (false, s5)
                end in
              Some (eneg, digits s6 0 0)
            else None
        | [] => None
        end in
      match exp with
      | Some (_, (_, O, s7)) => expected s7 "a digit"
      | Some (eneg, (e, _, s7)) =>
          let e10 := (if eneg then - Z.of_N e else Z.of_N e)%Z in
          inr (JFloat (float_of_decimal neg mant (e10 - Z.of_nat nfrac)), s7)
      | None =>
          match frac with
          | Some _ =>
              inr (JFloat (float_of_decimal neg mant (- Z.of_nat nfrac)), s4)
          | None =>
              inr (JInt (if neg then - Z.of_N int else Z.of_N int), s4)
          end
      end
  end.

(** A number: an optional minus sign, an integer part with no leading
    zero, then the fraction and the exponent. *)
Definition read_number (s : str) : reading json :=
  let '(neg, s1) :=
    match s with
    | c :: s' => if (c =? ch "-")%N then (true, s') else (false, s)
    | [] => (false, s)
    end in
  match s1 with
  | [] => expected s1 "a digit"
  | c :: s1' =>
      if negb (is_digit c) then expected s1 "a digit"
      else
        let '(int, _, s2) :=
          if (c =? ch "0")%N then (0%N, 1%nat, s1') else digits s1 0 0 in
        read_fraction neg int s2
  end.

Definition hex_digit (c : char) : option N :=
  if is_digit c then Some (c - 48)%N
  else if ((97 <=? c) && (c <=? 102))%N then Some (c - 87)%N
  else if ((65 <=? c) && (c <=? 70))%N then Some (c - 55)%N
  else None.

(** The character a one-letter escape stands for. *)
Definition escape (c : char) : option char :=
  if (c =? quote)%N then Some quote
  else if (c =? backslash)%N then Some backslash
  else if (c =? ch "/")%N then Some (ch "/")
  else if (c =? ch "b")%N then Some 8%N
  else if (c =? ch "f")%N then Some 12%N
  else if (c =? ch "n")%N then Some 10%N
  else if (c =? ch "r")%N then Some 13%N
  else if (c =? ch "t")%N then Some 9%N
  else None.

(** Modelled from the spec: strings with the standard JSON escape
    sequences, read after the opening quote.  Each [\uXXXX] gives the code
    point XXXX. *)
Fixpoint read_chars (s : str) (acc : str) : reading str :=
  match s with
  | [] => expected s "a closing quote"
  | c :: s' =>
      if (c =? quote)%N then inr (rev acc, s')
      else if (c =? backslash)%N then
        match s' with
        | [] => expected s' "an escape"
        | e :: s'' =>
            match escape e with
            | Some x => read_chars s'' (x :: acc)
            | None =>
                if (e =? ch "u")%N then
                  match s'' with
                  | h1 :: h2 :: h3 :: h4 :: s5 =>
                      match hex_digit h1, hex_digit h2, hex_digit h3, hex_digit h4 with
                      | Some a, Some b, Some c', Some d =>
                          read_chars s5 (((a * 16 + b) * 16 + c') * 16 + d :: acc)%N
                      | _, _, _, _ => expected s'' "four hex digits"
                      end
                  | _ => expected s'' "four hex digits"
                  end
                else expected s' "an escape"
            end
        end
      else if (c <? 32)%N then expected s "an escaped control character"
      else read_chars s' (c :: acc)
  end.

(** Modelled from the spec: the recursive descent of section 4.6 over
    objects, arrays, strings, numbers, booleans and null.  [fuel] bounds
    the number of steps; the text's length plus one is enough. *)
Fixpoint read_value (fuel : nat) (s : str) : reading json :=
  match fuel with
  | O => expected s "less nesting"
  | S fuel' =>
      let s := skip_ws s in
      match s with
      | [] => expected s "a value"
      | c :: s' =>
          if (c =? ch "n")%N then
            match word (lit "null") s with
            | Some r => inr (JNull, r)
            | None => expected s "null"
            end
          else if (c =? ch "t")%N then
            match word (lit "true") s with
            | Some r => inr (JBool true, r)
            | None => expected s "true"
            end
          else if (c =? ch "f")%N then
            match word (lit "false") s with
            | Some r => inr (JBool false, r)
            | None => expected s "false"
            end
          else if (c =? quote)%N then
            match read_chars s' [] with
            | inr (x, r) => inr (JStr x, r)
            | inl e => inl e
            end
          else if (c =? ch "[")%N then
            match skip_ws s' with
            | d :: r =>
                if (d =? ch "]")%N then inr (JArr [], r)
                else
                  match read_items fuel' s' [] with
                  | inr (items, r') => inr (JArr items, r')
                  | inl e => inl e
                  end
            | [] => expected [] "a value or ']'"
            end
          else if (c =? ch "{")%N then
            match skip_ws s' with
            | d :: r =>
                if (d =? ch "}")%N then inr (JObj [], r)
                else
                  match read_members fuel' s' [] with
                  | inr (members, r') => inr (JObj members, r')
                  | inl e => inl e
                  end
            | [] => expected [] "a key or '}'"
            end
          else read_number s
      end
  end
with read_items (fuel : nat) (s : str) (acc : list json) : reading (list json) :=
  match fuel with
  | O => expected s "less nesting"
  | S fuel' =>
      match read_value fuel' s with
      | inl e => inl e
      | inr (v, r) =>
          match skip_ws r with
          | d :: r' =>
              if (d =? ch ",")%N then read_items fuel' r' (v :: acc)
              else if (d =? ch "]")%N then inr (rev (v :: acc), r')
              else expected (d :: r') "',' or ']'"
          | [] => expected [] "',' or ']'"
          end
      end
  end
with read_members (fuel : nat) (s : str) (acc : list (str * json))
  : reading (list (str * json)) :=
  match fuel with
  | O => expected s "less nesting"
  | S fuel' =>
      match skip_ws s with
      | q :: r0 =>
          if negb (q =? quote)%N then expected (q :: r0) "a key"
          else
            match read_chars r0 [] with
            | inl e => inl e
            | inr (k, r1) =>
                match skip_ws r1 with
                | c :: r2 =>
                    if negb (c =? ch ":")%N then expected (c :: r2) "':'"
                    else
                      match read_value fuel' r2 with
                      | inl e => inl e
                      | inr (v, r3) =>
                          match skip_ws r3 with
                          | d :: r4 =>
                              if (d =? ch ",")%N
                              then read_members fuel' r4 ((k, v) :: acc)
                              else if (d =? ch "}")%N
                              then inr (rev ((k, v) :: acc), r4)
                              else expected (d :: r4) "',' or '}'"
                          | [] => expected [] "',' or '}'"
                          end
                      end
                | [] => expected [] "':'"
                end
            end
      | [] => expected [] "a key"
      end
  end.

(** Modelled from the spec: decoding into a generic value tree, the first
    entry point of section 4.6.  A failure carries the offset at which the
    text stopped making sense. *)
Definition read (text : str) : result json :=
  match read_value (S (List.length text)) text with
  | inl (remaining, what) => err (DecodeError (List.length text - remaining) what)
  | inr (v, rest) =>
      match skip_ws rest with
      | [] => ok v
      | _ :: _ =>
          err (DecodeError (List.length text - List.length (skip_ws rest))
                 "the end of the text")
      end
  end.

(** A text of the sources or the spec, written with an apostrophe wherever
    it has a double quote. *)
Definition js (s : string) : str :=
  map (fun c => if (c =? ch "'")%N then quote else c) (lit s).

(** *** The JSON text writer *)

(** The decimal digits of [n], the most significant first and at most
    [fuel] of them. *)
Fixpoint decimal (fuel : nat) (n : N) : str :=
  match fuel with
  | O => []
  | S fuel' =>
      (if (n <? 10)%N then [] else decimal fuel' (n / 10)) ++ [(48 + n mod 10)%N]
  end.

(** [n] in decimal, with no leading zero. *)
Definition write_nat (n : N) : str := decimal (S (N.to_nat (N.log2 n))) n.

(** The last [width] decimal digits of [n]. *)
Fixpoint fixed (width : nat) (n : N) : str :=
  match width with
  | O => []
  | S w => fixed w (n / 10) ++ [(48 + n mod 10)%N]
  end.

Definition sign (negative : bool) : str := if negative then [ch "-"] else [].

Definition write_int (z : Z) : str := sign (z <? 0)%Z ++ write_nat (Z.abs_N z).

(** [m * 2 ^ e] with the factors of two that a negative [e] cancels taken
    out of [m]. *)
Fixpoint reduce (m : positive) (e : Z) : positive * Z :=
  match m with
  | xO m' => if (e <? 0)%Z then reduce m' (e + 1) else (m, e)
  | _ => (m, e)
  end.

(** Modelled from the spec: section 4.7 does not fix the text of a float.
    The one written here is the decimal expansion of the binary64 number,
    in full and with at least one digit after the point, so that it is
    read as a float.  A float that is not a number has no JSON text; null
    stands for it. *)
Definition write_float (f : float) : str :=
  match Prim2SF f with
  | S754_zero s => sign s ++ lit "0.0"
  | S754_finite s m e =>
      let '(m, e) := reduce m e in
      sign s ++
      (if (0 <=? e)%Z then write_nat (Npos m * 2 ^ Z.to_N e) ++ lit ".0"
       else
         let k := Z.to_nat (- e) in
         let d := (Npos m * 5 ^ N.of_nat k)%N in
         write_nat (d / 10 ^ N.of_nat k) ++ ch "." :: fixed k d)
  | _ => lit "null"
  end.

Definition hex_char (d : N) : char := if (d <? 10)%N then (48 + d)%N else (87 + d)%N.

(** Modelled from the spec: string escaping of section 4.7.  The quote,
    the backslash and the control characters are escaped. *)
Definition write_char (c : char) : str :=
  if (c =? quote)%N then [backslash; quote]
  else if (c =? backslash)%N then [backslash; backslash]
  else if (c =? 8)%N then [backslash; ch "b"]
  else if (c =? 12)%N then [backslash; ch "f"]
  else if (c =? 10)%N then [backslash; ch "n"]
  else if (c =? 13)%N then [backslash; ch "r"]
  else if (c =? 9)%N then [backslash; ch "t"]
  else if (c <? 32)%N then
    [backslash; ch "u"; ch "0"; ch "0"; hex_char (c / 16); hex_char (c mod 16)]
  else [c].

Definition write_string (s : str) : str := quote :: flat_map write_char s ++ [quote].

(** The parts, with the separator between them. *)
Fixpoint join (sep : str) (parts : list str) : str :=
  match parts with
  | [] => []
  | p :: rest =>
      match rest with
      | [] => p
      | _ :: _ => p ++ sep ++ join sep rest
      end
  end.

(** Modelled from the spec: the text of a tree (section 4.7), with no
    white space.  The members of an object are written in their order. *)
Fixpoint write (j : json) : str :=
  match j with
  | JNull => lit "null"
  | JBool b => if b then lit "true" else lit "false"
  | JInt z => write_int z
  | JFloat f => write_float f
  | JStr s => write_string s
  | JArr items => ch "[" :: join [ch ","] (map write items) ++ [ch "]"]
  | JObj members =>
      ch "{"
      :: join [ch ","]
           (map (fun kv => write_string (fst kv) ++ ch ":" :: write (snd kv)) members)
      ++ [ch "}"]
  end.

(** *** Timestamps and unique identifiers *)

Definition and_then {A B} (o : option A) (f : A -> option B) : option B :=
  match o with
  | Some a => f a
  | None => None
  end.

Definition decimal_digit (c : char) : option N :=
  if is_digit c then Some (c - 48)%N else None.

(** [n] digits of the base, as [digit] reads them: their value on top of
    [acc], and the rest. *)
Fixpoint take_digits (digit : char -> option N) (base : N) (n : nat) (s : str)
  (acc : N) : option (N * str) :=
  match n, s with
  | O, _ => Some (acc, s)
  | S n', c :: s' =>
      match digit c with
      | Some d => take_digits digit base n' s' (acc * base + d)%N
      | None => None
      end
  | S _, [] => None
  end.

(** One character, which must be [c]. *)
Definition skip (c : char) (s : str) : option str :=
  match s with
  | x :: s' => if (x =? c)%N then Some s' else None
  | [] => None
  end.

(** One character, which must be one of [cs]. *)
Definition skip_any (cs : list char) (s : str) : option str :=
  match s with
  | x :: s' => if existsb (N.eqb x) cs then Some s' else None
  | [] => None
  end.

(** A value within [lo] and [hi]. *)
Definition within (lo hi n : N) : option N :=
  if ((lo <=? n) && (n <=? hi))%N then Some n else None.

(** The last [width] hexadecimal digits of [n], in lower case. *)
Fixpoint hex_fixed (width : nat) (n : N) : str :=
  match width with
  | O => []
  | S w => hex_fixed w (n / 16) ++ [hex_char (n mod 16)]
  end.

(** Modelled from the spec: the canonical textual form of a unique
    identifier (sections 4.6, 4.7), a number of 128 bits: 32 hexadecimal
    digits in groups of 8, 4, 4, 4 and 12 with hyphens between them, in
    lower case. *)
Definition uuid_text (n : N) : str :=
  hex_fixed 8 (n / 16 ^ 24) ++ lit "-" ++ hex_fixed 4 (n / 16 ^ 20) ++ lit "-"
  ++ hex_fixed 4 (n / 16 ^ 16) ++ lit "-" ++ hex_fixed 4 (n / 16 ^ 12) ++ lit "-"
  ++ hex_fixed 12 n.

(** Modelled from the spec: reading a unique identifier (section 4.6),
    which must be in the hyphenated form; digits of either case are read. *)
Definition read_uuid (s : str) : option N :=
  and_then (take_digits hex_digit 16 8 s 0) (fun '(n, r) =>
  and_then (skip (ch "-") r) (fun r =>
  and_then (take_digits hex_digit 16 4 r n) (fun '(n, r) =>
  and_then (skip (ch "-") r) (fun r =>
  and_then (take_digits hex_digit 16 4 r n) (fun '(n, r) =>
  and_then (skip (ch "-") r) (fun r =>
  and_then (take_digits hex_digit 16 4 r n) (fun '(n, r) =>
  and_then (skip (ch "-") r) (fun r =>
  and_then (take_digits hex_digit 16 12 r n) (fun '(n, r) =>
  match r with
  | [] => Some n
  | _ :: _ => None
  end))))))))).

(** Modelled from the spec: a timestamp (the timestamp scalar of section
    3): a date, a time of day to the microsecond, and the offset from UTC,
    in minutes. *)
Record timestamp : Type := {
  ts_year : N; ts_month : N; ts_day : N;
  ts_hour : N; ts_minute : N; ts_second : N; ts_micro : N;
  ts_offset : Z
}.

(** The fraction of a second, written when it is not zero. *)
Definition micro_text (micro : N) : str :=
  if (micro =? 0)%N then [] else lit "." ++ fixed 6 micro.

(** The offset from UTC: [Z] for UTC, or else a sign, hours and minutes. *)
Definition offset_text (offset : Z) : str :=
  if (offset =? 0)%Z then lit "Z"
  else (if (offset <? 0)%Z then lit "-" else lit "+")
       ++ fixed 2 (Z.abs_N offset / 60) ++ lit ":" ++ fixed 2 (Z.abs_N offset mod 60).

(** Modelled from the spec: the text of a timestamp (section 4.7), ISO
    8601 with the suffix [Z] when the value is UTC and the numeric offset
    otherwise. *)
Definition timestamp_text (t : timestamp) : str :=
  fixed 4 (ts_year t) ++ lit "-" ++ fixed 2 (ts_month t) ++ lit "-"
  ++ fixed 2 (ts_day t) ++ lit "T"
  ++ fixed 2 (ts_hour t) ++ lit ":" ++ fixed 2 (ts_minute t) ++ lit ":"
  ++ fixed 2 (ts_second t)
  ++ micro_text (ts_micro t) ++ offset_text (ts_offset t).

Fixpoint skip_digits (s : str) : str :=
  match s with
  | c :: s' => if is_digit c then skip_digits s' else s
  | [] => []
  end.

(** The digits of a fraction of a second, as microseconds: the first
    [width] digits, with zeros for those that are missing; further digits
    are dropped. *)
Fixpoint micros (width : nat) (s : str) (acc : N) : N * str :=
  match width with
  | O => (acc, skip_digits s)
  | S w =>
      match s with
      | c :: s' =>
          if is_digit c then micros w s' (acc * 10 + (c - 48))%N
          else micros w s (acc * 10)%N
      | [] => micros w [] (acc * 10)%N
      end
  end.

(** Reading the fraction of a second, if there is one: a point and at
    least one digit. *)
Definition read_micro (r : str) : N * str :=
  match r with
  | c :: d :: r' =>
      if ((c =? ch ".") && is_digit d)%N then micros 6 (d :: r') 0 else (0%N, r)
  | _ => (0%N, r)
  end.

(** Reading the offset from UTC, up to the end of the text. *)
Definition read_offset (s : str) : option Z :=
  match s with
  | [] => None
  | c :: r =>
      if (c =? ch "Z")%N then
        match r with
        | [] => Some 0%Z
        | _ :: _ => None
        end
      else if ((c =? ch "+") || (c =? ch "-"))%N then
        and_then (take_digits decimal_digit 10 2 r 0) (fun '(h, r) =>
        and_then (within 0 23 h) (fun h =>
        and_then (skip (ch ":") r) (fun r =>
        and_then (take_digits decimal_digit 10 2 r 0) (fun '(m, r) =>
        and_then (within 0 59 m) (fun m =>
        match r with
        | [] =>
            Some (if (c =? ch "-")%N then (- Z.of_N (h * 60 + m))%Z
                  else Z.of_N (h * 60 + m))
        | _ :: _ => None
        end)))))
      else None
  end.

(** Modelled from the spec: reading a timestamp (section 4.6): a date, a
    time, and a UTC designator or a numeric offset.  The fields are read
    within their ranges; the calendar is not consulted (no month has more
    than 31 days is all that is asked of a day). *)
Definition read_timestamp (s : str) : option timestamp :=
  and_then (take_digits decimal_digit 10 4 s 0) (fun '(year, r) =>
  and_then (skip (ch "-") r) (fun r =>
  and_then (take_digits decimal_digit 10 2 r 0) (fun '(month, r) =>
  and_then (within 1 12 month) (fun month =>
  and_then (skip (ch "-") r) (fun r =>
  and_then (take_digits decimal_digit 10 2 r 0) (fun '(day, r) =>
  and_then (within 1 31 day) (fun day =>
  and_then (skip_any [ch "T"; ch " "] r) (fun r =>
  and_then (take_digits decimal_digit 10 2 r 0) (fun '(hour, r) =>
  and_then (within 0 23 hour) (fun hour =>
  and_then (skip (ch ":") r) (fun r =>
  and_then (take_digits decimal_digit 10 2 r 0) (fun '(minute, r) =>
  and_then (within 0 59 minute) (fun minute =>
  and_then (skip (ch ":") r) (fun r =>
  and_then (take_digits decimal_digit 10 2 r 0) (fun '(second, r) =>
  and_then (within 0 59 second) (fun second =>
  let '(micro, r) := read_micro r in
  and_then (read_offset r) (fun offset =>
  Some {| ts_year := year; ts_month := month; ts_day := day;
          ts_hour := hour; ts_minute := minute; ts_second := second;
          ts_micro := micro; ts_offset := offset |}))))))))))))))))).

(** A timestamp whose fields are in their ranges. *)
Definition timestamp_ok (t : timestamp) : bool :=
  ((ts_year t <? 10000) && (1 <=? ts_month t) && (ts_month t <=? 12)
   && (1 <=? ts_day t) && (ts_day t <=? 31)
   && (ts_hour t <=? 23) && (ts_minute t <=? 59) && (ts_second t <=? 59)
   && (ts_micro t <? 1000000))%N
  && (Z.abs_N (ts_offset t) <? 24 * 60)%N.

(** *** The data model *)

(** Modelled from the spec: the scalar kinds of a TypeNode (section 3). *)
Inductive kind : Type :=
| KBool | KInt | KFloat | KString | KBytes | KTimestamp | KUuid.

(** Modelled from the spec: TypeNode (section 3).  A record or a union
    member is named by its schema id, so that a type may refer to itself.
    [Tuple], [Choice] and [Any] are not in the spec's list; the schemas the
    sources declare need them (a fixed-length tuple, a union of scalar
    kinds, an untyped value). *)
#[warnings="-register-all"]
Inductive TypeNode : Type :=
| Scalar (k : kind)
| Sequence (element : TypeNode)
| Mapping (value : TypeNode)
| Optional (inner : TypeNode)
| RecordRef (schema : nat)
| Union (members : list nat)
| Tuple (elements : list TypeNode)
| Choice (kinds : list kind)
| Any.

(** Modelled from the spec: ConstraintSet (section 3), inclusive bounds on
    a number and on a length. *)
Record ConstraintSet : Type := {
  minimum : option Z;
  maximum : option Z;
  min_length : option nat;
  max_length : option nat
}.

Definition unconstrained : ConstraintSet :=
  {| minimum := None; maximum := None; min_length := None; max_length := None |}.

(** Modelled from the spec: typed values, and RecordInstance (section 3):
    the field values of a record in declaration order, bound to its schema. *)
#[warnings="-register-all"]
Inductive value : Type :=
| VNone
| VBool (b : bool)
| VInt (z : Z)
| VFloat (f : float)
| VStr (s : str)
| VBytes (s : str)
| VTimestamp (t : timestamp)
| VUuid (id : N)
| VSeq (items : list value)
| VTuple (items : list value)
| VMap (entries : list (str * value))
| VRecord (schema : nat) (fields : list value)
| VAny (j : json).

(** Modelled from the spec: FieldSpec (section 3). *)
Record FieldSpec : Type := {
  f_name : str;
  f_type : TypeNode;
  f_required : bool;
  f_default : option value;
  f_constraints : ConstraintSet
}.

(** Modelled from the spec: RecordSchema (section 3). *)
Record RecordSchema : Type := {
  s_name : str;
  s_fields : list FieldSpec;
  s_tagged : bool;
  s_tag_field : str;
  s_tag_value : str;
  s_forbid_unknown_fields : bool
}.

(** How a declaration asks for a discriminant: not at all, or with the
    field name and the value it overrides, if any ([tag=True] overrides
    neither). *)
Inductive tagging : Type :=
| Untagged
| Tagged (field : option str) (tag : option str).

(** Modelled from the spec: the schema declaration surface (section 6),
    what a class statement of the sources says. *)
Record declaration : Type := {
  d_name : str;
  d_fields : list FieldSpec;
  d_tag : tagging;
  d_forbid_unknown_fields : bool
}.

(** Modelled from the spec: the tag convention of section 6.  The
    discriminant field is named "type" and the discriminant value is the
    declared name, unless the declaration overrides them. *)
Definition register (d : declaration) : RecordSchema :=
  {| s_name := d_name d;
     s_fields := d_fields d;
     s_tagged := match d_tag d with Untagged => false | Tagged _ _ => true end;
     s_tag_field :=
       match d_tag d with
       | Tagged (Some field) _ => field
       | _ => lit "type"
       end;
     s_tag_value :=
       match d_tag d with
       | Tagged _ (Some tag) => tag
       | _ => d_name d
       end;
     s_forbid_unknown_fields := d_forbid_unknown_fields d |}.

Definition str_eqb (a b : str) : bool :=
  if list_eq_dec N.eq_dec a b then true else false.

(** *** The tagged union resolver *)

(** Modelled from the spec: UnionTable (section 3), from discriminant
    value to schema id, read under one discriminant field. *)
Record UnionTable : Type := {
  u_field : str;
  u_entries : list (str * nat)
}.

Fixpoint lookup (tag : str) (entries : list (str * nat)) : option nat :=
  match entries with
  | [] => None
  | (t, id) :: rest => if str_eqb t tag then Some id else lookup tag rest
  end.

(** Modelled from the spec: building the table of a union (sections 3 and
    4.1).  Every member is a tagged schema under the same discriminant
    field, and two members with the same discriminant value are a
    [SchemaError]. *)
Fixpoint union_entries (schemas : list RecordSchema) (field : str)
  (members : list nat) : result (list (str * nat)) :=
  match members with
  | [] => ok []
  | id :: rest =>
      match nth_error schemas id with
      | None => err (SchemaError "unresolvable type")
      | Some s =>
          if negb (s_tagged s) then err (SchemaError "untagged union member")
          else if negb (str_eqb (s_tag_field s) field)
          then err (SchemaError "discriminant field names differ")
          else
            entries <- union_entries schemas field rest ;;
            match lookup (s_tag_value s) entries with
            | Some _ => err (SchemaError "colliding discriminant values")
            | None => ok ((s_tag_value s, id) :: entries)
            end
      end
  end.

Definition build_union_table (schemas : list RecordSchema) (members : list nat)
  : result UnionTable :=
  match members with
  | [] => err (SchemaError "empty union")
  | id :: _ =>
      match nth_error schemas id with
      | None => err (SchemaError "unresolvable type")
      | Some s =>
          entries <- union_entries schemas (s_tag_field s) members ;;
          ok {| u_field := s_tag_field s; u_entries := entries |}
      end
  end.

(** Modelled from the spec: [resolve] of section 4.3.  The table is from
    strings, so that a discriminant value that is not a string is absent
    from it like a string that no member has. *)
Definition resolve (t : UnionTable) (discriminant : json) : result nat :=
  match discriminant with
  | JStr tag =>
      match lookup tag (u_entries t) with
      | Some id => ok id
      | None => err (UnknownTagError discriminant)
      end
  | _ => err (UnknownTagError discriminant)
  end.

(** *** The constraint table *)

Definition float_of_Z (z : Z) : float :=
  SF2Prim (binary_normalize prec emax z 0 false).

Definition check (holds : bool) (p : path) (r : rule) : result unit :=
  if holds then ok tt else err (ValidationError p r).

Definition at_least (lo : Z) (v : value) : bool :=
  match v with
  | VInt z => (lo <=? z)%Z
  | VFloat f => (float_of_Z lo <=? f)%float
  | _ => true
  end.

Definition at_most (hi : Z) (v : value) : bool :=
  match v with
  | VInt z => (z <=? hi)%Z
  | VFloat f => (f <=? float_of_Z hi)%float
  | _ => true
  end.

(** The length a length bound is about: the code points of a text, the
    elements of a sequence. *)
Definition length_of (v : value) : option nat :=
  match v with
  | VStr s | VBytes s => Some (List.length s)
  | VSeq items | VTuple items => Some (List.length items)
  | _ => None
  end.

Definition length_ok (test : nat -> bool) (v : value) : bool :=
  match length_of v with
  | Some n => test n
  | None => true
  end.

Definition when {A} (o : option A) (f : A -> result unit) : result unit :=
  match o with
  | Some a => f a
  | None => ok tt
  end.

(** Modelled from the spec: [validate] of section 4.2.  Bounds are
    inclusive on both ends; the first rule broken is reported with the
    field path; nothing is clamped or coerced. *)
Definition validate (v : value) (c : ConstraintSet) (p : path) : result unit :=
  _ <- when (minimum c) (fun lo => check (at_least lo v) p (AtLeast lo)) ;;
  _ <- when (maximum c) (fun hi => check (at_most hi v) p (AtMost hi)) ;;
  _ <- when (min_length c)
         (fun lo => check (length_ok (Nat.leb lo) v) p (LengthAtLeast lo)) ;;
  when (max_length c)
    (fun hi => check (length_ok (fun n => Nat.leb n hi) v) p (LengthAtMost hi)).

(** *** The converter *)

(** Modelled from the spec: a scalar target (section 4.5).  The value's
    runtime type must match the declared kind, an integer widening into a
    float field; the special kinds accept only their well-formed texts. *)
Definition convert_scalar (k : kind) (j : json) (p : path) : result value :=
  match k, j with
  | KBool, JBool b => ok (VBool b)
  | KInt, JInt z => ok (VInt z)
  | KFloat, JFloat f => ok (VFloat f)
  | KFloat, JInt z => ok (VFloat (float_of_Z z))
  | KString, JStr s => ok (VStr s)
  | KBytes, JStr s => ok (VBytes s)
  | KTimestamp, JStr s =>
      match read_timestamp s with
      | Some t => ok (VTimestamp t)
      | None => err (TypeError p)
      end
  | KUuid, JStr s =>
      match read_uuid s with
      | Some id => ok (VUuid id)
      | None => err (TypeError p)
      end
  | _, _ => err (TypeError p)
  end.

(** The first of the kinds that takes the value. *)
Fixpoint convert_choice (kinds : list kind) (j : json) (p : path) : result value :=
  match kinds with
  | [] => err (TypeError p)
  | k :: rest =>
      match convert_scalar k j p with
      | inr v => ok v
      | inl _ => convert_choice rest j p
      end
  end.

(** What converts one value of the tree, whatever the target. *)
Definition converter : Type := TypeNode -> path -> result value.

(** Modelled from the spec: the fields of a record target (sections 4.4,
    4.5), in declaration order.  A field found among the members is
    converted, then validated; a missing required field is a
    [MissingFieldError]; a missing optional one takes its default. *)
Fixpoint convert_fields (fields : list FieldSpec)
  (members : list (str * converter)) (p : path) : result (list value) :=
  match fields with
  | [] => ok []
  | f :: rest =>
      v <- match member (f_name f) members with
           | Some c =>
               v <- c (f_type f) (p ++ [Key (f_name f)]) ;;
               _ <- validate v (f_constraints f) (p ++ [Key (f_name f)]) ;;
               ok v
           | None =>
               if f_required f then err (MissingFieldError (f_name f))
               else ok (match f_default f with Some d => d | None => VNone end)
           end ;;
      vs <- convert_fields rest members p ;;
      ok (v :: vs)
  end.

(** The keys a schema knows: its fields, and its discriminant field. *)
Definition known (s : RecordSchema) (k : str) : bool :=
  existsb (fun f => str_eqb (f_name f) k) (s_fields s)
  || (s_tagged s && str_eqb (s_tag_field s) k).

Section Convert.

Variable schemas : list RecordSchema.

(** Modelled from the spec: a record target (sections 4.4, 4.5).  Unknown
    members are dropped, or rejected when the schema forbids them; the
    discriminant member is consumed and not stored. *)
Definition convert_record (id : nat) (members : list (str * converter))
  (p : path) : result value :=
  match nth_error schemas id with
  | None => err (SchemaError "unresolvable type")
  | Some s =>
      vs <- convert_fields (s_fields s) members p ;;
      match (if s_forbid_unknown_fields s
             then find (fun kc => negb (known s (fst kc))) members
             else None) with
      | Some (k, _) => err (ValidationError p (KnownField k))
      | None => ok (VRecord id vs)
      end
  end.

(** Modelled from the spec: [convert] of section 4.5, recursive, depth
    first, failing at the first error with its path.  The union table is a
    function of the schemas, so that reading it here is reading the table
    built once. *)
Fixpoint convert (j : json) : converter :=
  let items : list converter :=
    match j with
    | JArr l => map convert l
    | _ => []
    end in
  let members : list (str * converter) :=
    match j with
    | JObj m => map (fun kv => (fst kv, convert (snd kv))) m
    | _ => []
    end in
  fix on_type (t : TypeNode) (p : path) : result value :=
    match t with
    | Scalar k => convert_scalar k j p
    | Choice kinds => convert_choice kinds j p
    | Any => ok (VAny j)
    | Optional inner =>
        match j with
        | JNull => ok VNone
        | _ => on_type inner p
        end
    | Sequence element =>
        match j with
        | JArr _ =>
            vs <- traverse (fun i c => c element (p ++ [Index i])) 0 items ;;
            ok (VSeq vs)
        | _ => err (TypeError p)
        end
    | Tuple elements =>
        match j with
        | JArr _ =>
            if (List.length items =? List.length elements)%nat then
              vs <- traverse (fun i ce => fst ce (snd ce) (p ++ [Index i])) 0
                      (combine items elements) ;;
              ok (VTuple vs)
            else err (TypeError p)
        | _ => err (TypeError p)
        end
    | Mapping element =>
        match j with
        | JObj _ =>
            es <- traverse
                    (fun _ kc =>
                       v <- snd kc element (p ++ [Key (fst kc)]) ;;
                       ok (fst kc, v))
                    0 members ;;
            ok (VMap es)
        | _ => err (TypeError p)
        end
    | RecordRef id =>
        match j with
        | JObj _ => convert_record id members p
        | _ => err (TypeError p)
        end
    | Union ids =>
        match j with
        | JObj raw =>
            table <- build_union_table schemas ids ;;
            match member (u_field table) raw with
            | None => err MissingDiscriminantError
            | Some discriminant =>
                id <- resolve table discriminant ;;
                convert_record id members p
            end
        | _ => err (TypeError p)
        end
    end.

(** Modelled from the spec: decoding into a target type, the second entry
    point of section 4.6.  The fused path gives what reading the tree and
    converting it gives, without building the tree. *)
Definition decode (t : TypeNode) (text : str) : result value :=
  j <- read text ;; convert j t [].

(** Modelled from the spec: what the encoder of section 4.7 writes, as a
    tree.  A timestamp and a unique identifier are written as their texts.
    A tagged record's object starts with the discriminant member; the
    declared fields follow in declaration order. *)
Fixpoint to_json (v : value) : json :=
  match v with
  | VNone => JNull
  | VBool b => JBool b
  | VInt z => JInt z
  | VFloat f => JFloat f
  | VStr s | VBytes s => JStr s
  | VTimestamp t => JStr (timestamp_text t)
  | VUuid id => JStr (uuid_text id)
  | VSeq items | VTuple items => JArr (map to_json items)
  | VMap entries => JObj (map (fun kv => (fst kv, to_json (snd kv))) entries)
  | VRecord id fields =>
      match nth_error schemas id with
      | None => JObj []
      | Some s =>
          JObj ((if s_tagged s then [(s_tag_field s, JStr (s_tag_value s))] else [])
                ++ combine (map f_name (s_fields s)) (map to_json fields))
      end
  | VAny j => j
  end.

(** Modelled from the spec: [encode] of section 4.7, the text of the tree
    that [to_json] gives. *)
Definition encode (v : value) : str := write (to_json v).

End Convert.

End Core.

(** ** examples/geojson/hyperspec_geojson.py *)

Module GeoJSON.
Import Text Core.

(** A field with no default and no constraint. *)
Definition field (name : string) (t : TypeNode) : FieldSpec :=
  {| f_name := lit name; f_type := t; f_required := true;
     f_default := None; f_constraints := unconstrained |}.

(** A field whose default is [None]. *)
Definition field_or_none (name : string) (t : TypeNode) : FieldSpec :=
  {| f_name := lit name; f_type := t; f_required := false;
     f_default := Some VNone; f_constraints := unconstrained |}.

(** [class Name(hyperspec.Struct, tag=True)]. *)
Definition tagged_struct (name : string) (fields : list FieldSpec) : declaration :=
  {| d_name := lit name; d_fields := fields; d_tag := Tagged None None;
     d_forbid_unknown_fields := false |}.

(** The schema ids, in the order of the class statements. *)
Definition Point_id : nat := 0.
Definition MultiPoint_id : nat := 1.
Definition LineString_id : nat := 2.
Definition MultiLineString_id : nat := 3.
Definition Polygon_id : nat := 4.
Definition MultiPolygon_id : nat := 5.
Definition GeometryCollection_id : nat := 6.
Definition Feature_id : nat := 7.
Definition FeatureCollection_id : nat := 8.

(** [Position = tuple[float, float]], line 5. *)
Definition Position : TypeNode := Tuple [Scalar KFloat; Scalar KFloat].

(** [Geometry], lines 39-47. *)
Definition Geometry : TypeNode :=
  Union [Point_id; MultiPoint_id; LineString_id; MultiLineString_id;
         Polygon_id; MultiPolygon_id; GeometryCollection_id].

(** The class statements, lines 11-58. *)
Definition Point : declaration :=
  tagged_struct "Point" [field "coordinates" Position].
Definition MultiPoint : declaration :=
  tagged_struct "MultiPoint" [field "coordinates" (Sequence Position)].
Definition LineString : declaration :=
  tagged_struct "LineString" [field "coordinates" (Sequence Position)].
Definition MultiLineString : declaration :=
  tagged_struct "MultiLineString"
    [field "coordinates" (Sequence (Sequence Position))].
Definition Polygon : declaration :=
  tagged_struct "Polygon" [field "coordinates" (Sequence (Sequence Position))].
Definition MultiPolygon : declaration :=
  tagged_struct "MultiPolygon"
    [field "coordinates" (Sequence (Sequence (Sequence Position)))].
Definition GeometryCollection : declaration :=
  tagged_struct "GeometryCollection" [field "geometries" (Sequence Geometry)].
Definition Feature : declaration :=
  tagged_struct "Feature"
    [field_or_none "geometry" (Optional Geometry);
     field_or_none "properties" (Optional (Mapping Any));
     field_or_none "id" (Optional (Choice [KString; KInt]))].
Definition FeatureCollection : declaration :=
  tagged_struct "FeatureCollection"
    [field "features" (Sequence (RecordRef Feature_id))].

Definition declarations : list declaration :=
  [Point; MultiPoint; LineString; MultiLineString; Polygon; MultiPolygon;
   GeometryCollection; Feature; FeatureCollection].

Definition schemas : list RecordSchema := map register declarations.

(** [GeoJSON], line 62. *)
Definition GeoJSON : TypeNode :=
  Union [Point_id; MultiPoint_id; LineString_id; MultiLineString_id;
         Polygon_id; MultiPolygon_id; GeometryCollection_id;
         Feature_id; FeatureCollection_id].

(** [loads] and [dumps], lines 66-67. *)
Definition loads (text : str) : result value := decode schemas GeoJSON text.
Definition dumps (v : value) : str := encode schemas v.

End GeoJSON.

(** ** The schemas of benchmarks/bench_msgspec_vs_hyperspec.py *)

Module BenchSchema.
Import Text Core.
Local Open Scope string_scope.

(** [Annotated[str, Meta(min_length=lo, max_length=hi)]]. *)
Definition text_field (name : string) (lo : option nat) (hi : option nat) : FieldSpec :=
  {| f_name := lit name; f_type := Scalar KString; f_required := true;
     f_default := None;
     f_constraints := {| minimum := None; maximum := None;
                         min_length := lo; max_length := hi |} |}.

Definition plain (name : string) (t : TypeNode) : FieldSpec :=
  {| f_name := lit name; f_type := t; f_required := true;
     f_default := None; f_constraints := unconstrained |}.

(** [class Name(Struct)]. *)
Definition struct (name : string) (fields : list FieldSpec) : declaration :=
  {| d_name := lit name; d_fields := fields; d_tag := Untagged;
     d_forbid_unknown_fields := false |}.

Definition Address_id : nat := 0.
Definition Event_id : nat := 1.
Definition Profile_id : nat := 2.
Definition User_id : nat := 3.

(** Lines 56-60. *)
Definition Address : declaration :=
  struct "Address"
    [text_field "line1" (Some 5) (Some 64);
     text_field "city" (Some 2) (Some 40);
     text_field "postal_code" (Some 4) (Some 12);
     text_field "country" (Some 2) (Some 2)].

(** Lines 62-65. *)
Definition Event : declaration :=
  struct "Event"
    [plain "ts" (Scalar KTimestamp);
     text_field "kind" (Some 3) (Some 24);
     plain "payload" (Mapping (Scalar KInt))].

(** Lines 67-70. *)
Definition Profile : declaration :=
  struct "Profile"
    [text_field "display_name" (Some 1) (Some 32);
     text_field "bio" None (Some 160);
     plain "address" (RecordRef Address_id)].

(** [score: Annotated[int, Meta(ge=0, le=1_000_000)]], line 76. *)
Definition score : FieldSpec :=
  {| f_name := lit "score"; f_type := Scalar KInt; f_required := true;
     f_default := None;
     f_constraints := {| minimum := Some 0%Z; maximum := Some 1000000%Z;
                         min_length := None; max_length := None |} |}.

(** Lines 72-79. *)
Definition User : declaration :=
  struct "User"
    [plain "user_id" (Scalar KUuid);
     plain "created_at" (Scalar KTimestamp);
     plain "active" (Scalar KBool);
     score;
     plain "tags" (Sequence (Scalar KString));
     plain "profile" (RecordRef Profile_id);
     plain "events" (Sequence (RecordRef Event_id))].

Definition schemas : list RecordSchema :=
  map register [Address; Event; Profile; User].

(** [raw_one], lines 97-125, with the score left open.  The identifier and
    the time are the run's; these are one run's. *)
Definition raw_one (score : Z) : json :=
  let now := JStr (lit "2026-11-03T21:21:00.123456Z") in
  let obj (members : list (string * json)) : json :=
    JObj (map (fun kv => (lit (fst kv), snd kv)) members) in
  obj [("user_id", JStr (lit "3f2b8c1e-5d4a-4b7e-9c0f-1a2b3c4d5e6f"));
       ("created_at", now);
       ("active", JBool true);
       ("score", JInt score);
       ("tags", JArr [JStr (lit "a"); JStr (lit "b"); JStr (lit "c"); JStr (lit "d")]);
       ("profile",
        obj [("display_name", JStr (lit "alice"));
             ("bio", JStr (lit "bio"));
             ("address",
              obj [("line1", JStr (lit "123 Benchmark Ave"));
                   ("city", JStr (lit "Testville"));
                   ("postal_code", JStr (lit "12345"));
                   ("country", JStr (lit "US"))])]);
       ("events",
        JArr [obj [("ts", now); ("kind", JStr (lit "login"));
                   ("payload", obj [("ok", JInt 1); ("lat_ms", JInt 12)])];
              obj [("ts", now); ("kind", JStr (lit "click"));
                   ("payload", obj [("x", JInt 3); ("y", JInt 9)])]])].

(** [convert(raw, type=list[User])], line 159, on [n] copies of a payload. *)
Definition convert_users (raw : list json) : result value :=
  convert schemas (JArr raw) (Sequence (RecordRef User_id)) [].

End BenchSchema.

(** ** Reading the core's values *)

Module CoreSpec.
Import Text Core.

(** What converts each member of an object: [convert] shares them
    between the targets it tries. *)
Definition converters (schemas : list RecordSchema) (raw : list (str * json))
  : list (str * converter) :=
  map (fun kv => (fst kv, convert schemas (snd kv))) raw.

(** The members of an example object, from its text. *)
Definition members_of (text : string) : list (str * json) :=
  match read (js text) with
  | inr (JObj raw) => raw
  | _ => []
  end.

(** Inclusive numeric bounds, [Meta(ge=lo, le=hi)]. *)
Definition bounds (lo hi : Z) : ConstraintSet :=
  {| minimum := Some lo; maximum := Some hi;
     min_length := None; max_length := None |}.

(** The keys of an object, in order. *)
Definition keys (j : json) : list str :=
  match j with
  | JObj members => map fst members
  | _ => []
  end.

(** *** Reading numbers and texts back *)

(** The number a run of digits stands for, on top of [acc]. *)
Definition value_of (ds : str) (acc : N) : N :=
  fold_left (fun a c => a * 10 + (c - 48))%N ds acc.

(** What comes after a run of digits is not a digit. *)
Definition no_digit (rest : str) : bool :=
  match rest with
  | [] => true
  | c :: _ => negb (is_digit c)
  end.

(** What may follow an integer: no digit, no fraction, no exponent. *)
Definition ends_number (rest : str) : bool :=
  match rest with
  | [] => true
  | c :: _ =>
      negb (is_digit c || (c =? ch ".")%N || (c =? ch "e")%N || (c =? ch "E")%N)
  end.

(** What may follow a fraction: no digit, no exponent. *)
Definition ends_fraction (rest : str) : bool :=
  match rest with
  | [] => true
  | c :: _ => negb (is_digit c || (c =? ch "e")%N || (c =? ch "E")%N)
  end.

(** A mantissa that lost no bit to a shift. *)
Definition exact (m : Z) : shr_record :=
  {| shr_m := m; shr_r := false; shr_s := false |}.

(** A float that is a number: a zero or a finite non-zero value. *)
Definition finite (f : float) : bool :=
  match Prim2SF f with
  | S754_zero _ | S754_finite _ _ _ => true
  | _ => false
  end.

(** A tree whose floats are all numbers. *)
Fixpoint finite_json (j : json) : bool :=
  match j with
  | JFloat f => finite f
  | JArr items => forallb finite_json items
  | JObj members => forallb (fun kv => finite_json (snd kv)) members
  | _ => true
  end.

(** The steps the reader takes on the text of a tree. *)
Fixpoint size (j : json) : nat :=
  match j with
  | JArr items => S (list_sum (map (fun x => S (size x)) items))
  | JObj members => S (list_sum (map (fun kv => S (size (snd kv))) members))
  | _ => 1
  end.

(** What the writer puts after a value: nothing, a comma, or a closing
    bracket or brace. *)
Definition closes (rest : str) : bool :=
  match rest with
  | [] => true
  | c :: _ => ((c =? ch ",") || (c =? ch "]") || (c =? ch "}"))%N
  end.

(** The first character of a number. *)
Definition starts_number (c : char) : bool := (c =? ch "-")%N || is_digit c.

(** The text of a member of an object. *)
Definition write_member (kv : str * json) : str :=
  write_string (fst kv) ++ ch ":" :: write (snd kv).

(** A value's text is read back, with enough fuel, before whatever closes
    it. *)
Definition reads_back (j : json) : Prop :=
  forall fuel rest, size j <= fuel -> closes rest = true ->
  read_value fuel (write j ++ rest) = inr (j, rest).

(** *** Valid typed instances *)

(** A scalar value of a kind: a timestamp has its fields in their ranges,
    a unique identifier has 128 bits. *)
Definition scalar_of (k : kind) (v : value) : bool :=
  match k, v with
  | KBool, VBool _ => true
  | KInt, VInt _ => true
  | KFloat, VFloat _ => true
  | KString, VStr _ => true
  | KBytes, VBytes _ => true
  | KTimestamp, VTimestamp t => timestamp_ok t
  | KUuid, VUuid id => (id <? 2 ^ 128)%N
  | _, _ => false
  end.

(** How the values of a kind are written: as true or false, as a number,
    or as a string. *)
Inductive shape : Type := Truth | Figure | Letters.

Definition shape_of (k : kind) : shape :=
  match k with
  | KBool => Truth
  | KInt | KFloat => Figure
  | KString | KBytes | KTimestamp | KUuid => Letters
  end.

Definition same_shape (k k' : kind) : bool :=
  match shape_of k, shape_of k' with
  | Truth, Truth | Figure, Figure | Letters, Letters => true
  | _, _ => false
  end.

(** No two of the kinds are written alike: what is read tells the kind.
    A choice of kinds is a type only then. *)
Fixpoint distinct_shapes (kinds : list kind) : bool :=
  match kinds with
  | [] => true
  | k :: rest => negb (existsb (same_shape k) rest) && distinct_shapes rest
  end.

(** A type one of whose instances is written as null. *)
Definition nullable (t : TypeNode) : bool :=
  match t with
  | Optional _ | Any => true
  | _ => false
  end.

(** A type with no optional-to-absent ambiguity: under an optional type
    there is no type an instance of which is written as null, as the
    absent value is. *)
Fixpoint unambiguous (t : TypeNode) : bool :=
  match t with
  | Optional inner => negb (nullable inner) && unambiguous inner
  | Sequence element | Mapping element => unambiguous element
  | Tuple elements => forallb unambiguous elements
  | _ => true
  end.

(** A schema whose field types have no such ambiguity. *)
Definition unambiguous_schema (s : RecordSchema) : bool :=
  forallb (fun f => unambiguous (f_type f)) (s_fields s).

(** A value within its field's bounds. *)
Definition satisfies (v : value) (c : ConstraintSet) : bool :=
  match validate v c [] with
  | inr _ => true
  | inl _ => false
  end.

Definition is_none (v : value) : bool :=
  match v with
  | VNone => true
  | _ => false
  end.

Definition is_null (j : json) : bool :=
  match j with
  | JNull => true
  | _ => false
  end.

Fixpoint all2 {A B} (f : A -> B -> bool) (l : list A) (l' : list B) : bool :=
  match l, l' with
  | [], [] => true
  | a :: l, b :: l' => f a b && all2 f l l'
  | _, _ => false
  end.

Fixpoint distinct (names : list str) : bool :=
  match names with
  | [] => true
  | n :: rest => negb (existsb (str_eqb n) rest) && distinct rest
  end.

(** A schema the builder of section 4.1 accepts: no two fields share a
    name, and the discriminant field is not one of them. *)
Definition well_formed (s : RecordSchema) : bool :=
  distinct (map f_name (s_fields s))
  && negb (s_tagged s && existsb (str_eqb (s_tag_field s)) (map f_name (s_fields s))).

(** The floats of a value are numbers. *)
Fixpoint finite_value (v : value) : bool :=
  match v with
  | VFloat f => finite f
  | VSeq items | VTuple items | VRecord _ items => forallb finite_value items
  | VMap entries => forallb (fun kv => finite_value (snd kv)) entries
  | VAny j => finite_json j
  | _ => true
  end.

Section Typing.

Variable schemas : list RecordSchema.

(** The union's table builds. *)
Definition builds (ids : list nat) : bool :=
  match build_union_table schemas ids with
  | inr _ => true
  | inl _ => false
  end.

(** A typed instance of a type: a scalar of the declared kind, or of one
    of the kinds of a choice that is a type, a sequence, tuple or mapping
    of typed instances, a record of its schema with its fields typed and
    within their bounds, a member of a union whose table builds, the
    absent value or an instance of the inner type under an optional type,
    any tree under [Any]. *)
Fixpoint has_type (v : value) : TypeNode -> bool :=
  let typed : list (TypeNode -> bool) :=
    match v with
    | VSeq items | VTuple items | VRecord _ items => map has_type items
    | _ => []
    end in
  let typed_entries : list (TypeNode -> bool) :=
    match v with
    | VMap entries => map (fun kv => has_type (snd kv)) entries
    | _ => []
    end in
  let record (id : nat) (fields : list value) : bool :=
    match nth_error schemas id with
    | Some s =>
        all2 (fun c f => c (f_type f)) typed (s_fields s)
        && all2 (fun x f => satisfies x (f_constraints f)) fields (s_fields s)
    | None => false
    end in
  fix on_type (t : TypeNode) : bool :=
    match t with
    | Scalar k => scalar_of k v
    | Choice kinds => distinct_shapes kinds && existsb (fun k => scalar_of k v) kinds
    | Any => match v with VAny _ => true | _ => false end
    | Optional inner => is_none v || on_type inner
    | Sequence element =>
        match v with
        | VSeq _ => forallb (fun c => c element) typed
        | _ => false
        end
    | Tuple elements =>
        match v with
        | VTuple _ => all2 (fun c t => c t) typed elements
        | _ => false
        end
    | Mapping element =>
        match v with
        | VMap _ => forallb (fun c => c element) typed_entries
        | _ => false
        end
    | RecordRef id =>
        match v with
        | VRecord id' fields => (id' =? id)%nat && record id' fields
        | _ => false
        end
    | Union ids =>
        match v with
        | VRecord id' fields =>
            existsb (Nat.eqb id') ids && builds ids && record id' fields
        | _ => false
        end
    end.

(** A value that every type it has, one with no optional-to-absent
    ambiguity, converts its tree back to. *)
Definition converts (v : value) : Prop :=
  forall t p, unambiguous t = true -> has_type v t = true ->
              convert schemas (to_json schemas v) t p = ok v.

(** The members of the object written for a record of the schema [s]. *)
Definition record_members (s : RecordSchema) (fields : list value)
  : list (str * json) :=
  (if s_tagged s then [(s_tag_field s, JStr (s_tag_value s))] else [])
  ++ combine (map f_name (s_fields s)) (map (to_json schemas) fields).

End Typing.

(** A collection of two features: a point with properties and a number
    for an id, and a feature with neither geometry nor properties. *)
Definition sample_collection : value :=
  VRecord GeoJSON.FeatureCollection_id
    [VSeq [VRecord GeoJSON.Feature_id
             [VRecord GeoJSON.Point_id [VTuple [VFloat 2.5; VFloat (-0.5)]];
              VMap [(lit "name", VAny (JStr (js "a 'b'")));
                    (lit "n", VAny (JArr [JInt (-3); JFloat 1e22; JNull]))];
              VInt 7];
           VRecord GeoJSON.Feature_id [VNone; VNone; VStr (lit "x")]]].

(** The benchmark's user: what [convert] gives for its payload. *)
Definition sample_user : value :=
  match convert BenchSchema.schemas (BenchSchema.raw_one 123)
          (RecordRef BenchSchema.User_id) [] with
  | inr v => v
  | inl _ => VNone
  end.

(** A point one of whose coordinates is not a number. *)
Definition nan_point : value :=
  VRecord GeoJSON.Point_id [VTuple [VFloat nan; VFloat 0]].

End CoreSpec.

(** ** The order of floats, in integers *)

Module FloatSpec.

(** A float that is a number, as a triple of integers that compare, one
    after the other, as the floats do: the class (infinities, the signs,
    zero), then the exponent, then the mantissa. *)
Definition rank (f : spec_float) : option (Z * Z * Z) :=
  match f with
  | S754_nan => None
  | S754_infinity s => Some (if s then (-2) else 2, 0, 0)%Z
  | S754_zero _ => Some (0, 0, 0)%Z
  | S754_finite s m e =>
      Some (if s then (-1, - e, Z.neg m) else (1, e, Z.pos m))%Z
  end.

Definition lex (a b : Z * Z * Z) : comparison :=
  let '(a1, a2, a3) := a in
  let '(b1, b2, b3) := b in
  match (a1 ?= b1)%Z with
  | Eq => match (a2 ?= b2)%Z with
          | Eq => (a3 ?= b3)%Z
          | c => c
          end
  | c => c
  end.

(** The order of the triples. *)
Definition before (a b : Z * Z * Z) : Prop :=
  let '(a1, a2, a3) := a in
  let '(b1, b2, b3) := b in
  (a1 < b1 \/ (a1 = b1 /\ (a2 < b2 \/ (a2 = b2 /\ a3 < b3))))%Z.

End FloatSpec.

(** ** A benchmark on which msgspec takes no time *)

Module BenchInstant.
Import Py Bench BenchSpec.
Local Open Scope float_scope.

(** A clock on which msgspec's instantiation takes no time at all. *)
Definition instant_clock (k : nat) : timings :=
  if Nat.even k
  then {| instantiate_s := 0; validate_s := 2 |}
  else {| instantiate_s := 1.5; validate_s := 2 |}.

Definition instant_world : world :=
  {| import_ok := fun _ => true;
     measure := fun k _ _ => Some (instant_clock k) |}.

End BenchInstant.

(** ** A benchmark in which a call raises *)

Module BenchStops.
Import Py Bench BenchSpec.

(** The world in which every call of [_bench_one] returns what the clock
    [t] reads, the imports being those of [w]. *)
Definition returning (w : world) (t : nat -> timings) : world :=
  {| import_ok := import_ok w; measure := fun k _ _ => Some (t k) |}.

(** A statement [m] of a run in which call [j] of [_bench_one] raises,
    next to the same statement [m'] of a run in which it returns: started
    at or before call [j], [m] either raises at call [j], that call being
    the last thing it does, or does what [m'] does without reaching call
    [j]. *)
Definition stops_at (j : nat) {A} (m m' : M A) : Prop :=
  forall st, calls st <= j ->
    (fst (m st) = raise BenchFailure /\ calls (snd (m st)) = S j /\
     exists l n tr, trace (snd (m st)) = tr ++ [Call l n]) \/
    (m st = m' st /\ calls (snd (m st)) <= j).

(** A world in which call 3 of [_bench_one] raises. *)
Definition failing_world : world :=
  {| import_ok := fun _ => true;
     measure := fun k _ _ => if (k =? 3)%nat then None else Some (demo_clock k) |}.

End BenchStops.

(** ** The body of [_bench_one] *)

Module BenchBody.
Import Text Bench.
Local Open Scope float_scope.

(** What a call of [_bench_one] cannot decide by itself: whether the class
    statements and the values built before the timing (lines 52-126)
    raise, whether [User(...)] with a given score raises, the length of
    the list [convert] returns for a number of payloads ([None] when it
    raises), and what each reading of [time.perf_counter] is, counted from
    0 over the process. *)
Record library : Type := {
  declares : bool;
  constructs : Z -> bool;
  converts : Z -> option Z;
  perf_counter : nat -> float
}.

(** What the call raises: an exception of the library, or the
    [RuntimeError] of lines 147 and 161. *)
Inductive error : Type :=
| LibraryError
| RuntimeError (msg : str).

(** What the call does, in order. *)
Inductive op : Type :=
| Prepare
| GcDisable
| GcEnable
| Clock
| NewUser (score : Z)
| Convert (count : Z).

(** The process: whether the collector is enabled, how many times the
    clock was read, and what was done so far, oldest first. *)
Record process : Type := { gc_enabled : bool; readings : nat; did : list op }.

Definition M (A : Type) : Type := process -> (error + A) * process.

Definition ret {A} (a : A) : M A := fun p => (inr a, p).
Definition raise {A} (e : error) : M A := fun p => (inl e, p).

Definition bind {A B} (m : M A) (k : A -> M B) : M B :=
  fun p =>
    match m p with
    | (inl e, p') => (inl e, p')
    | (inr a, p') => k a p'
    end.

Declare Scope body_scope.
Delimit Scope body_scope with body.
Notation "x <- m ;; k" := (bind m (fun x => k))
  (at level 100, m at next level, right associativity) : body_scope.
Notation "m ;; k" := (bind m (fun _ => k))
  (at level 100, right associativity) : body_scope.
Local Open Scope body_scope.

Definition note (o : op) (p : process) : process :=
  {| gc_enabled := gc_enabled p; readings := readings p; did := did p ++ [o] |}.

(** [gc.isenabled()], [gc.disable()], [gc.enable()]. *)
Definition gc_isenabled : M bool := fun p => (inr (gc_enabled p), p).

Definition gc_disable : M unit :=
  fun p => (inr tt, {| gc_enabled := false; readings := readings p;
                       did := did p ++ [GcDisable] |}).

Definition gc_enable : M unit :=
  fun p => (inr tt, {| gc_enabled := true; readings := readings p;
                       did := did p ++ [GcEnable] |}).

(** [try: body finally: final]: [final] runs whether [body] returns or
    raises, and what [final] raises replaces what [body] did. *)
Definition try_finally {A} (body : M A) (final : M unit) : M A :=
  fun p =>
    match body p with
    | (r, p') =>
        match final p' with
        | (inl e, p'') => (inl e, p'')
        | (inr _, p'') => (r, p'')
        end
    end.

Section Body.

Variable lib : library.

(** Lines 52-126: the classes, the typed values and the payload. *)
Definition declare : M unit :=
  fun p => (if declares lib then inr tt else inl LibraryError, note Prepare p).

(** [time.perf_counter()]. *)
Definition time_perf_counter : M float :=
  fun p => (inr (perf_counter lib (readings p)),
            {| gc_enabled := gc_enabled p; readings := S (readings p);
               did := did p ++ [Clock] |}).

(** [User(..., score=i, ...)], lines 134-142. *)
Definition new_user (i : Z) : M Z :=
  fun p => (if constructs lib i then inr i else inl LibraryError, note (NewUser i) p).

(** [[User(..., score=i, ...) for i in range(count)]] from [i] on: the
    users built, by their scores. *)
Fixpoint users (count : nat) (i : Z) : M (list Z) :=
  match count with
  | O => ret []
  | S count' => u <- new_user i ;; us <- users count' (i + 1) ;; ret (u :: us)
  end.

(** [convert(raw, type=list[User])], line 159, on a list of [count]
    payloads: the length of what it returns. *)
Definition convert (count : Z) : M Z :=
  fun p => (match converts lib count with
            | Some len => inr len
            | None => inl LibraryError
            end, note (Convert count) p).

(** Lines 146-147 and 160-161. *)
Definition check_length (len n : Z) : M unit :=
  if negb (len =? n)%Z then raise (RuntimeError (lit "unexpected length"))
  else ret tt.

(** [_bench_one], lines 46-168.  [[raw_one] * n] has [max(n, 0)] items. *)
Definition _bench_one (n : Z) : M timings :=
  declare ;;
  gc_was_enabled <- gc_isenabled ;;
  gc_disable ;;
  instantiate_s <-
    try_finally
      (t0 <- time_perf_counter ;;
       out <- users (Z.to_nat n) 0 ;;
       check_length (Z.of_nat (List.length out)) n ;;
       t1 <- time_perf_counter ;;
       ret (t1 - t0))
      (if gc_was_enabled then gc_enable else ret tt) ;;
  gc_was_enabled <- gc_isenabled ;;
  gc_disable ;;
  validate_s <-
    try_finally
      (t0 <- time_perf_counter ;;
       len <- convert (Z.max n 0) ;;
       check_length len n ;;
       t1 <- time_perf_counter ;;
       ret (t1 - t0))
      (if gc_was_enabled then gc_enable else ret tt) ;;
  ret {| instantiate_s := instantiate_s; validate_s := validate_s |}.

End Body.

(** A statement that leaves the collector as it found it. *)
Definition keeps_gc {A} (m : M A) : Prop :=
  forall p, gc_enabled (snd (m p)) = gc_enabled p.

(** The scores [i], [i + 1], ... of [count] users. *)
Fixpoint scores (count : nat) (i : Z) : list Z :=
  match count with
  | O => []
  | S count' => i :: scores count' (i + 1)
  end.

(** What a call that returns did, for [n] users, the collector being
    enabled or not before it. *)
Definition finished (n : Z) (enabled : bool) : list op :=
  [Prepare; GcDisable; Clock] ++ map NewUser (scores (Z.to_nat n) 0) ++ [Clock]
  ++ (if enabled then [GcEnable] else [])
  ++ [GcDisable; Clock; Convert n; Clock]
  ++ (if enabled then [GcEnable] else []).

(** A library that works, on a clock that reads the number of readings. *)
Definition working : library :=
  {| declares := true; constructs := fun _ => true;
     converts := fun count => Some count;
     perf_counter := fun k => of_uint63 (Uint63.of_Z (Z.of_nat k)) |}.

Definition fresh : process := {| gc_enabled := true; readings := 0; did := [] |}.

End BenchBody.

(** ** The median, said without the sort *)

Module MedianSpec.
Import Py Bench BenchSpec.
Local Open Scope float_scope.

(** A list in ascending order: no element is greater than a later one. *)
Definition ascending (l : list float) : Prop :=
  StronglySorted (fun x y => (x <=? y) = true) l.

(** The middle of a list: its middle element, or the mean of its two
    middle elements when their number is even. *)
Definition middle (l : list float) : float :=
  let n := List.length l in
  if (n mod 2 =? 1)%nat then nth (n / 2) l 0
  else (nth (n / 2 - 1) l 0 + nth (n / 2) l 0) / 2.

(** [m] is a median of [data]: the middle of an arrangement of [data] in
    ascending order. *)
Definition is_median (data : list float) (m : float) : Prop :=
  exists l, Permutation data l /\ ascending l /\ m = middle l.

(** The regression percentage of hyperspec's median [h] over msgspec's
    median [m], as [summarize] computes it, lines 232-234. *)
Definition regression (m h : float) : float := pct_value (h - m) m.

(** How many elements of [l] are below [x], and how many are not above. *)
Definition below (x : float) (l : list float) : nat :=
  List.length (filter (fun y => y <? x) l).

Definition upto (x : float) (l : list float) : nat :=
  List.length (filter (fun y => y <=? x) l).

(** Two floats that are the same number: the same float, or two zeros. *)
Definition alike (x y : float) : Prop :=
  x = y \/ (exists s s', Prim2SF x = S754_zero s /\ Prim2SF y = S754_zero s').

Definition numbers (l : list float) : Prop := Forall (fun x => is_nan x = false) l.

End MedianSpec.

(** ** A run whose middle sample is not the median *)

Module MedianRun.
Import Py Bench BenchSpec.
Local Open Scope float_scope.

(** A run in which the middle sample is not the median: msgspec always
    takes 1 s and 2 s; hyperspec takes 2 s to validate and, to instantiate,
    1 s in the first and the third run and 1.5 s in the second. *)
Definition uneven_clock (k : nat) : timings :=
  if Nat.even k then {| instantiate_s := 1; validate_s := 2 |}
  else if (k =? 3)%nat then {| instantiate_s := 1.5; validate_s := 2 |}
  else {| instantiate_s := 1; validate_s := 2 |}.

Definition uneven_world : world :=
  {| import_ok := fun _ => true;
     measure := fun k _ _ => Some (uneven_clock k) |}.

Definition uneven_args : args := {| arg_n := 10; arg_runs := 3; arg_warmup := 0 |}.

End MedianRun.

(** * Verification *)

(** ** Float comparison against the benchmark's thresholds *)

Module FloatFacts.

Local Open Scope float_scope.

Lemma is_nan_spec (p : float) :
  is_nan p = match Prim2SF p with S754_nan => true | _ => false end.
Proof.
  unfold is_nan. rewrite eqb_spec. unfold SFeqb, SFcompare.
  destruct (Prim2SF p) as [s|s| |s m e]; try (destruct s); try reflexivity;
    simpl; rewrite Z.compare_refl;
    change (PosDef.Pos.compare_cont Eq m m) with (Pos.compare m m);
    rewrite Pos.compare_refl; reflexivity.
Qed.

Lemma SF_0 : Prim2SF 0 = S754_zero false.
Proof. vm_compute. reflexivity. Qed.
Lemma SF_1 : Prim2SF 1 = S754_finite false 4503599627370496 (-52).
Proof. vm_compute. reflexivity. Qed.
Lemma SF_5 : Prim2SF 5 = S754_finite false 5629499534213120 (-50).
Proof. vm_compute. reflexivity. Qed.
Lemma SF_10 : Prim2SF 10 = S754_finite false 5629499534213120 (-49).
Proof. vm_compute. reflexivity. Qed.

(** Two positive finite floats compare by exponent, then by mantissa. *)
Lemma finite_cmp (m1 m2 : positive) (e1 e2 : Z) :
  SFcompare (S754_finite false m1 e1) (S754_finite false m2 e2) =
  Some (match (e1 ?= e2)%Z with
        | Eq => (m1 ?= m2)%positive
        | Lt => Lt
        | Gt => Gt
        end).
Proof. reflexivity. Qed.

Ltac pick_row :=
  first [ left; split; reflexivity
        | right; left; split; reflexivity
        | right; right; left; split; reflexivity
        | right; right; right; left; split; reflexivity
        | right; right; right; right; split; reflexivity ].

(** The four threshold tests of a non-NaN float, as a table: the only
    possible outcomes are the five monotone ones. *)
Lemma threshold_table (p : float) :
  is_nan p = false ->
  let t := (p <=? 0, p <=? 1, p <=? 5, p <=? 10) in
  let u := (0 <? p, 1 <? p, 5 <? p, 10 <? p) in
  (t = (true, true, true, true) /\ u = (false, false, false, false)) \/
  (t = (false, true, true, true) /\ u = (true, false, false, false)) \/
  (t = (false, false, true, true) /\ u = (true, true, false, false)) \/
  (t = (false, false, false, true) /\ u = (true, true, true, false)) \/
  (t = (false, false, false, false) /\ u = (true, true, true, true)).
Proof.
  rewrite is_nan_spec. intros Hn. cbv zeta.
  rewrite !leb_spec, !ltb_spec, SF_0, SF_1, SF_5, SF_10.
  destruct (Prim2SF p) as [s|s| |s m e]; try discriminate.
  - destruct s; pick_row.
  - destruct s; pick_row.
  - destruct s; [pick_row|].
    unfold SFleb, SFltb. rewrite !finite_cmp. cbn [SFcompare].
    rewrite (Z.compare_antisym e (-52)), (Z.compare_antisym e (-50)),
      (Z.compare_antisym e (-49)), (Pos.compare_antisym m 4503599627370496),
      (Pos.compare_antisym m 5629499534213120).
    destruct (Z.compare_spec e (-52)); destruct (Z.compare_spec e (-50));
      destruct (Z.compare_spec e (-49)); try (exfalso; lia);
      destruct (m ?= 4503599627370496)%positive;
      destruct (m ?= 5629499534213120)%positive; cbn [CompOpp]; pick_row.
Qed.

End FloatFacts.

Module BenchFacts.
Import Py Bench FloatFacts.
Local Open Scope string_scope.
Local Open Scope float_scope.

(** Claim C2.  For every percentage that is a number (not NaN, so every
    real and both infinities), [_classify_regression] returns one of five
    labels, and which one is decided by inclusive upper bounds: "hyperspec
    faster" iff p <= 0, "within 1%" iff 0 < p <= 1, "within 5%" iff
    1 < p <= 5, "within 10%" iff 5 < p <= 10, "more than 10%" iff p > 10. *)
Theorem classify_regression_partition (p : float) :
  is_nan p = false ->
  In (_classify_regression p)
     ["hyperspec faster"; "within 1%"; "within 5%"; "within 10%"; "more than 10%"] /\
  (_classify_regression p = "hyperspec faster" <-> (p <=? 0) = true) /\
  (_classify_regression p = "within 1%" <-> (0 <? p) = true /\ (p <=? 1) = true) /\
  (_classify_regression p = "within 5%" <-> (1 <? p) = true /\ (p <=? 5) = true) /\
  (_classify_regression p = "within 10%" <-> (5 <? p) = true /\ (p <=? 10) = true) /\
  (_classify_regression p = "more than 10%" <-> (10 <? p) = true).
Proof.
  intros Hn. unfold _classify_regression.
  destruct (threshold_table p Hn) as [[Ht Hu]|[[Ht Hu]|[[Ht Hu]|[[Ht Hu]|[Ht Hu]]]]];
    injection Ht as -> -> -> ->; injection Hu as -> -> -> ->;
    (split; [simpl; tauto|]);
    repeat split; intros; try discriminate;
    repeat match goal with H : _ /\ _ |- _ => destruct H end; try discriminate.
Qed.

Lemma classify_regression_partition_witness :
  is_nan 3 = false /\ _classify_regression 3 = "within 5%".
Proof.
  split; [reflexivity|].
  apply (classify_regression_partition 3); [reflexivity|].
  split; reflexivity.
Defined.

Lemma truediv_nonzero (x y : float) :
  (y =? 0) = false -> truediv x y = ok (x / y).
Proof. unfold truediv. intros ->. reflexivity. Qed.

End BenchFacts.

Module BenchRun.
Import Py Bench BenchSpec FloatFacts.
Local Open Scope string_scope.
Local Open Scope float_scope.
Local Open Scope bench_scope.

Lemma pct_ok (delta base : float) : _pct delta base = ok (pct_value delta base).
Proof. unfold _pct, pct_value, truediv. destruct (base =? 0); reflexivity. Qed.

Lemma insort_length (x : float) (l : list float) :
  List.length (insort x l) = S (List.length l).
Proof.
  induction l as [|y l IH]; simpl; [reflexivity|].
  destruct (x <? y); simpl; congruence.
Qed.

Lemma sorted_length (l : list float) : List.length (sorted l) = List.length l.
Proof.
  unfold sorted.
  enough (H : forall acc, List.length (fold_left (fun acc x => insort x acc) l acc)
                          = (List.length acc + List.length l)%nat)
    by (rewrite H; reflexivity).
  induction l as [|x l IH]; intros acc; simpl; [lia|].
  rewrite IH, insort_length. lia.
Qed.

Lemma median_ok (l : list float) : l <> [] -> median l = ok (median_value l).
Proof.
  intros Hl. unfold median, median_value. rewrite sorted_length.
  destruct l as [|x l]; [congruence|]. cbn [List.length Nat.eqb].
  destruct (_ mod 2 =? 1)%nat; reflexivity.
Qed.

(** [median] raises nothing but [StatisticsError]. *)
Lemma median_raises (l : list float) (e : exn) :
  median l = raise e -> e = StatisticsError.
Proof.
  destruct l as [|x l].
  - cbv. congruence.
  - rewrite median_ok by discriminate. discriminate.
Qed.

(** *** Stepping through [M] *)

Lemma bind_ok {A B} {m : M A} (k : A -> M B) {st st' : state} {a : A} :
  m st = (ok a, st') -> bind m k st = k a st'.
Proof. unfold bind. intros ->. reflexivity. Qed.

Lemma bind_raise {A B} (m : M A) (k : A -> M B) (st st' : state) (e : exn) :
  m st = (raise e, st') -> bind m k st = (raise e, st').
Proof. unfold bind. intros ->. reflexivity. Qed.

Section Finishing.

Variable w : world.
Variable t : nat -> timings.
Hypothesis clock : forall k l n, measure w k l n = Some (t k).

Lemma bench_one_ok (l : lib) (n : Z) (st : state) :
  _bench_one w l n st =
  (ok (t (calls st)), {| calls := S (calls st); trace := trace st ++ [Call l n] |}).
Proof. unfold _bench_one. rewrite clock. reflexivity. Qed.

Lemma warmup_body_ok (n i : Z) (st : state) :
  warmup_body w n i tt st =
  (ok tt, {| calls := S (S (calls st));
             trace := trace st ++ [Call msgspec (Z.max 100 (n / 100));
                                   Call hyperspec (Z.max 100 (n / 100))] |}).
Proof.
  unfold warmup_body.
  rewrite (bind_ok _ (bench_one_ok _ _ _)).
  rewrite (bind_ok _ (bench_one_ok _ _ _)).
  cbn [ret calls trace]. rewrite <- app_assoc. reflexivity.
Qed.

Lemma warmup_loop (n : Z) (count : nat) : forall (i : Z) (st : state),
  for_loop count i (warmup_body w n) tt st =
  (ok tt, {| calls := calls st + 2 * count;
             trace := trace st ++ warmup_trace n count |}).
Proof.
  induction count as [|count IH]; intros i st.
  - cbn. rewrite Nat.add_0_r, app_nil_r. destruct st; reflexivity.
  - cbn [for_loop]. rewrite (bind_ok _ (warmup_body_ok _ _ _)), IH.
    cbn [calls trace]. f_equal. f_equal; [lia|].
    unfold warmup_trace. cbn [repeat List.concat].
    rewrite <- !app_assoc. reflexivity.
Qed.

Lemma run_body_ok (n runs i : Z) (acc : samples) (st : state) :
  run_body w n runs i acc st =
  (ok (extend acc (t (calls st)) (t (S (calls st)))),
   {| calls := S (S (calls st));
      trace := trace st ++ run_events t n runs i (calls st) |}).
Proof.
  unfold run_body.
  rewrite (bind_ok _ (bench_one_ok _ _ _)).
  rewrite (bind_ok _ (bench_one_ok _ _ _)).
  rewrite !pct_ok. cbv [bind lift print emit ret ok raise]. cbn [calls trace].
  unfold run_events, extend. rewrite <- !app_assoc. reflexivity.
Qed.

Lemma collected_step (count c : nat) :
  collected t (S count) c =
  join (extend no_samples (t c) (t (S c))) (collected t count (S (S c))).
Proof.
  unfold collected, join, extend, no_samples. cbn [msg_inst msg_val hyp_inst hyp_val].
  cbn [seq map app]. rewrite <- !seq_shift, !map_map.
  replace (c + 2 * 0)%nat with c by lia.
  replace (c + 1)%nat with (S c) by lia.
  f_equal; f_equal; apply map_ext; intros k; do 2 f_equal; lia.
Qed.

Lemma run_loop (n runs : Z) (count : nat) : forall (i : Z) (acc : samples) (st : state),
  for_loop count i (run_body w n runs) acc st =
  (ok (join acc (collected t count (calls st))),
   {| calls := calls st + 2 * count;
      trace := trace st ++ run_trace t n runs count i (calls st) |}).
Proof.
  induction count as [|count IH]; intros i acc st.
  - destruct st, acc. unfold join, collected. cbn.
    rewrite Nat.add_0_r, !app_nil_r. reflexivity.
  - cbn [for_loop]. rewrite (bind_ok _ (run_body_ok _ _ _ _ _)), IH.
    cbn [calls trace].
    rewrite collected_step. f_equal.
    + f_equal. unfold join, extend, no_samples; cbn. rewrite <- !app_assoc. reflexivity.
    + f_equal; [lia|]. cbn [run_trace]. rewrite <- app_assoc. reflexivity.
Qed.

Lemma print_ok (l : line) (st : state) :
  print l st = (ok tt, {| calls := calls st; trace := trace st ++ [Stdout l] |}).
Proof. reflexivity. Qed.

Lemma eprint_ok (l : line) (st : state) :
  eprint l st = (ok tt, {| calls := calls st; trace := trace st ++ [Stderr l] |}).
Proof. reflexivity. Qed.

Lemma lift_ok {A} {r : result A} {a : A} (st : state) :
  r = ok a -> lift r st = (ok a, st).
Proof. intros ->. reflexivity. Qed.

Lemma summarize_ok (name : string) (msg hyp : list float) (st : state) :
  msg <> [] -> hyp <> [] ->
  summarize name msg hyp st =
  (ok (median_value msg, median_value hyp, median_pct msg hyp),
   {| calls := calls st;
      trace := trace st ++ [Stdout (summary_line name msg hyp)] |}).
Proof.
  intros Hm Hh. unfold summarize.
  rewrite (bind_ok _ (lift_ok _ (median_ok _ Hm))).
  rewrite (bind_ok _ (lift_ok _ (median_ok _ Hh))).
  rewrite (bind_ok _ (lift_ok _ (pct_ok _ _))).
  rewrite (bind_ok _ (print_ok _ _)). reflexivity.
Qed.

Lemma collected_nonempty (count c : nat) :
  (0 < count)%nat ->
  let s := join no_samples (collected t count c) in
  msg_inst s <> [] /\ msg_val s <> [] /\ hyp_inst s <> [] /\ hyp_val s <> [].
Proof.
  intros Hc. destruct count as [|count]; [lia|].
  cbn. repeat split; discriminate.
Qed.

Lemma join_no_samples (s : samples) : join no_samples s = s.
Proof. destruct s; reflexivity. Qed.

Hypothesis imports : forall l, import_ok w l = true.

(** A finishing run of [main], in full: its exit status, the number of
    calls of [_bench_one], and its trace. *)
Lemma main_finishes (a : args) :
  let runs := Z.max 1 (Z.min (arg_runs a) 10) in
  let warmup := Z.max 0 (arg_warmup a) in
  let s := collected t (Z.to_nat runs) (2 * Z.to_nat warmup) in
  let inst_pct := median_pct (msg_inst s) (hyp_inst s) in
  let val_pct := median_pct (msg_val s) (hyp_val s) in
  main w a init =
  (ok (if (1 <? inst_pct) || (1 <? val_pct) then 1%Z else 0%Z),
   {| calls := 2 * Z.to_nat warmup + 2 * Z.to_nat runs;
      trace := finished_trace t a |}).
Proof.
  intros runs warmup s inst_pct val_pct.
  unfold main. rewrite !imports. cbn [negb]. cbv zeta.
  fold runs warmup.
  do 5 rewrite (bind_ok _ (print_ok _ _)).
  unfold for_range.
  rewrite (bind_ok _ (warmup_loop _ _ _ _)).
  rewrite (bind_ok _ (run_loop _ _ _ _ _ _)).
  rewrite join_no_samples. cbn [calls trace init app Nat.add].
  fold s.
  rewrite (bind_ok _ (print_ok _ _)).
  assert (Hne : msg_inst s <> [] /\ msg_val s <> [] /\ hyp_inst s <> [] /\ hyp_val s <> []).
  { pose proof (collected_nonempty (Z.to_nat runs) (2 * Z.to_nat warmup)) as H.
    rewrite join_no_samples in H. apply H. subst runs. lia. }
  destruct Hne as (H1 & H2 & H3 & H4).
  rewrite (bind_ok _ (summarize_ok _ _ _ _ H1 H3)).
  rewrite (bind_ok _ (summarize_ok _ _ _ _ H2 H4)).
  fold inst_pct val_pct.
  do 2 rewrite (bind_ok _ (print_ok _ _)).
  unfold finished_trace. cbv zeta. fold runs warmup s inst_pct val_pct.
  destruct ((1 <? inst_pct) || (1 <? val_pct)).
  - rewrite (bind_ok _ (eprint_ok _ _)). cbn [ret calls trace app].
    rewrite <- !app_assoc. reflexivity.
  - rewrite (bind_ok _ (print_ok _ _)). cbn [ret calls trace app].
    rewrite <- !app_assoc. reflexivity.
Qed.

End Finishing.
End BenchRun.

Module BenchClaims.
Import Py Bench BenchSpec FloatFacts BenchRun.
Local Open Scope string_scope.
Local Open Scope list_scope.
Local Open Scope float_scope.
Local Open Scope bench_scope.

(** *** No statement of [main] raises [ZeroDivisionError] *)

Lemma safe_ret {A} (a : A) : safe (ret a).
Proof. intros st. discriminate. Qed.

Lemma safe_emit (e : event) : safe (emit e).
Proof. intros st. discriminate. Qed.

Lemma safe_throw {A} (e : exn) : e <> ZeroDivisionError -> safe (@throw A e).
Proof. intros He st. cbn. unfold raise. congruence. Qed.

Lemma safe_lift {A} (r : result A) : r <> raise ZeroDivisionError -> safe (lift r).
Proof. intros Hr st. exact Hr. Qed.

Lemma safe_bind {A B} (m : M A) (k : A -> M B) :
  safe m -> (forall a, safe (k a)) -> safe (bind m k).
Proof.
  intros Hm Hk st. unfold bind. specialize (Hm st).
  destruct (m st) as [[e|a] st']; [| apply Hk].
  cbn in *. unfold raise in *. intros H. apply Hm. injection H as ->. reflexivity.
Qed.

Lemma safe_bench (w : world) (l : lib) (n : Z) : safe (_bench_one w l n).
Proof. intros st. unfold _bench_one. destruct (measure w _ l n); discriminate. Qed.

Lemma safe_for_loop {S} (body : Z -> S -> M S) (count : nat) :
  (forall i acc, safe (body i acc)) ->
  forall i acc, safe (for_loop count i body acc).
Proof.
  intros Hb. induction count as [|count IH]; intros i acc; cbn [for_loop].
  - apply safe_ret.
  - apply safe_bind; [apply Hb | intros acc'; apply IH].
Qed.

Lemma safe_pct (delta base : float) : safe (lift (_pct delta base)).
Proof. apply safe_lift. rewrite pct_ok. discriminate. Qed.

Lemma safe_median (l : list float) : safe (lift (median l)).
Proof.
  apply safe_lift. intros H. apply median_raises in H. discriminate.
Qed.

Ltac safe_step :=
  first [ apply safe_ret | apply safe_emit | apply safe_bench | apply safe_pct
        | apply safe_median
        | apply safe_bind; [| intros ?] ].

Lemma safe_summarize (name : string) (msg hyp : list float) :
  safe (summarize name msg hyp).
Proof. unfold summarize, print. repeat safe_step. Qed.

Lemma safe_main (w : world) (a : args) : safe (main w a).
Proof.
  unfold main, print, eprint, for_range.
  destruct (import_ok w msgspec); cbn [negb]; [| repeat safe_step].
  destruct (import_ok w hyperspec); cbn [negb];
    [| apply safe_throw; discriminate].
  do 5 (apply safe_bind; [apply safe_emit | intros _]).
  apply safe_bind.
  { apply safe_for_loop. intros i acc. unfold warmup_body. repeat safe_step. }
  intros _. apply safe_bind.
  { apply safe_for_loop. intros i acc. unfold run_body, print. repeat safe_step. }
  intros acc. apply safe_bind; [apply safe_emit | intros _].
  apply safe_bind; [apply safe_summarize | intros [[? ?] inst_pct]].
  apply safe_bind; [apply safe_summarize | intros [[? ?] val_pct]].
  do 2 (apply safe_bind; [apply safe_emit | intros _]).
  destruct (_ || _); repeat safe_step.
Qed.

(** Claim C8.  [_pct] is total: for every pair of floats it returns
    [100.0 * (delta / base)] when [base == 0] is false and NaN when it is
    true, and it never raises; and no run of [main], whatever the world
    and the arguments, raises [ZeroDivisionError]. *)
Theorem pct_total_no_zero_division :
  (forall delta base : float,
      _pct delta base =
      ok (if base =? 0 then float_nan else 100 * (delta / base))) /\
  (forall (w : world) (a : args) (st : state),
      fst (main w a st) <> raise ZeroDivisionError).
Proof.
  split.
  - intros delta base. apply pct_ok.
  - intros w a. apply safe_main.
Qed.

(** *** Reading a finished trace *)

Lemma bench_calls_app (a b : list event) :
  bench_calls (a ++ b) = bench_calls a ++ bench_calls b.
Proof. apply flat_map_app. Qed.

Lemma run_lines_app (a b : list event) :
  run_lines (a ++ b) = run_lines a ++ run_lines b.
Proof. apply flat_map_app. Qed.

Lemma bench_calls_warmup (n : Z) (count : nat) :
  bench_calls (warmup_trace n count) =
  List.concat (repeat [(msgspec, Z.max 100 (n / 100));
                       (hyperspec, Z.max 100 (n / 100))] count).
Proof.
  unfold warmup_trace. induction count as [|count IH]; [reflexivity|].
  cbn [repeat List.concat]. rewrite bench_calls_app, IH. reflexivity.
Qed.

Lemma run_lines_warmup (n : Z) (count : nat) :
  run_lines (warmup_trace n count) = [].
Proof.
  unfold warmup_trace. induction count as [|count IH]; [reflexivity|].
  cbn [repeat List.concat]. rewrite run_lines_app, IH. reflexivity.
Qed.

Lemma bench_calls_runs (t : nat -> timings) (n runs : Z) (count : nat) :
  forall (i : Z) (c : nat),
  bench_calls (run_trace t n runs count i c) =
  List.concat (repeat [(msgspec, n); (hyperspec, n)] count).
Proof.
  induction count as [|count IH]; intros i c; [reflexivity|].
  cbn [run_trace repeat List.concat]. rewrite bench_calls_app, IH. reflexivity.
Qed.

Lemma run_lines_runs (t : nat -> timings) (n runs : Z) (count : nat) :
  forall (i : Z) (c : nat),
  run_lines (run_trace t n runs count i c) =
  map (fun k => ((i + Z.of_nat k + 1)%Z, runs)) (seq 0 count).
Proof.
  induction count as [|count IH]; intros i c; [reflexivity|].
  cbn [run_trace seq map]. rewrite run_lines_app, IH.
  rewrite <- seq_shift, map_map. cbn [run_lines run_events flat_map app].
  f_equal; [f_equal; lia|]. apply map_ext. intros k. f_equal. lia.
Qed.

Lemma texts_warmup (n : Z) (count : nat) :
  filter is_text (warmup_trace n count) = [].
Proof.
  unfold warmup_trace. induction count as [|count IH]; [reflexivity|].
  cbn [repeat List.concat]. rewrite filter_app, IH. reflexivity.
Qed.

Lemma texts_runs (t : nat -> timings) (n runs : Z) (count : nat) :
  forall (i : Z) (c : nat), filter is_text (run_trace t n runs count i c) = [].
Proof.
  induction count as [|count IH]; intros i c; [reflexivity|].
  cbn [run_trace]. rewrite filter_app, IH. reflexivity.
Qed.

Lemma texts_finished (t : nat -> timings) (a : args) :
  let runs := Z.max 1 (Z.min (arg_runs a) 10) in
  let warmup := Z.max 0 (arg_warmup a) in
  let s := collected t (Z.to_nat runs) (2 * Z.to_nat warmup) in
  filter is_text (finished_trace t a) =
  [if (1 <? median_pct (msg_inst s) (hyp_inst s))
      || (1 <? median_pct (msg_val s) (hyp_val s))
   then Stderr (LText fail_text) else Stdout (LText pass_text)].
Proof.
  cbv zeta. unfold finished_trace.
  rewrite !filter_app, texts_warmup, texts_runs.
  cbn [filter is_text app]. destruct (_ || _); reflexivity.
Qed.

Lemma In_text (e : event) (tr : list event) :
  is_text e = true -> (In e tr <-> In e (filter is_text tr)).
Proof. intros He. rewrite filter_In. tauto. Qed.

(** Claim C9.  For all integers given as [--runs] and [--warmup], a
    finishing run of [main] makes [max(0, warmup)] warmup iterations (a
    pair of calls of [_bench_one] on the reduced size each, and no run
    line) and then exactly [max(1, min(runs, 10))] measured runs (a pair of
    calls on [n] and one run line each, numbered from 1); that number is
    between 1 and 10, and the number of warmup iterations is not negative. *)
Theorem runs_and_warmup_clamped (w : world) (t : nat -> timings) (a : args) :
  (forall l, import_ok w l = true) ->
  (forall k l n, measure w k l n = Some (t k)) ->
  let runs := Z.max 1 (Z.min (arg_runs a) 10) in
  let warmup := Z.max 0 (arg_warmup a) in
  let n := arg_n a in
  let tr := trace (snd (main w a init)) in
  (1 <= runs <= 10)%Z /\ (0 <= warmup)%Z /\
  bench_calls tr =
    List.concat (repeat [(msgspec, Z.max 100 (n / 100));
                         (hyperspec, Z.max 100 (n / 100))] (Z.to_nat warmup)) ++
    List.concat (repeat [(msgspec, n); (hyperspec, n)] (Z.to_nat runs)) /\
  run_lines tr = map (fun k => ((Z.of_nat k + 1)%Z, runs)) (seq 0 (Z.to_nat runs)).
Proof.
  intros Hi Hc runs warmup n tr.
  split; [subst runs; lia|]. split; [subst warmup; lia|].
  subst tr. rewrite (main_finishes w t Hc Hi a). cbn [snd trace].
  unfold finished_trace. fold runs warmup n. split.
  - rewrite !bench_calls_app, bench_calls_warmup, bench_calls_runs.
    cbn [bench_calls flat_map app]. destruct (_ || _); cbn [app];
      rewrite app_nil_r; reflexivity.
  - rewrite !run_lines_app, run_lines_warmup, run_lines_runs.
    cbn [run_lines flat_map app]. destruct (_ || _); cbn [app];
      rewrite app_nil_r; reflexivity.
Qed.

(** In a finishing run, the summary lines show the medians and the
    percentages [summarize] computes, and the verdict follows those
    percentages. *)
Lemma status_of_code_medians (w : world) (t : nat -> timings) (a : args) :
  (forall l, import_ok w l = true) ->
  (forall k l n, measure w k l n = Some (t k)) ->
  let runs := Z.max 1 (Z.min (arg_runs a) 10) in
  let warmup := Z.max 0 (arg_warmup a) in
  let s := collected t (Z.to_nat runs) (2 * Z.to_nat warmup) in
  let inst_pct := median_pct (msg_inst s) (hyp_inst s) in
  let val_pct := median_pct (msg_val s) (hyp_val s) in
  let status := fst (main w a init) in
  let tr := trace (snd (main w a init)) in
  let fail_printed := In (Stderr (LText fail_text)) tr in
  let pass_printed := In (Stdout (LText pass_text)) tr in
  In (Stdout (summary_line "instantiate" (msg_inst s) (hyp_inst s))) tr /\
  In (Stdout (summary_line "validate" (msg_val s) (hyp_val s))) tr /\
  ((1 <? inst_pct) = true \/ (1 <? val_pct) = true ->
     status = ok 1%Z /\ fail_printed /\ ~ pass_printed) /\
  (~ ((1 <? inst_pct) = true \/ (1 <? val_pct) = true) ->
     status = ok 0%Z /\ pass_printed /\ ~ fail_printed).
Proof.
  intros Hi Hc runs warmup s inst_pct val_pct status tr fail_printed pass_printed.
  subst status tr fail_printed pass_printed.
  rewrite (main_finishes w t Hc Hi a). cbn [fst snd trace].
  fold runs warmup s inst_pct val_pct.
  rewrite (In_text (Stderr (LText fail_text)) _ eq_refl).
  rewrite (In_text (Stdout (LText pass_text)) _ eq_refl).
  rewrite texts_finished. fold runs warmup s inst_pct val_pct.
  split; [|split].
  - unfold finished_trace. fold runs warmup s. rewrite !in_app_iff.
    do 3 right. cbn. tauto.
  - unfold finished_trace. fold runs warmup s. rewrite !in_app_iff.
    do 3 right. cbn. tauto.
  - rewrite <- orb_true_iff. destruct (_ || _); split; intros H.
    + split; [reflexivity|]. cbn. split; [tauto|].
      intros [H'|[]]. discriminate.
    + congruence.
    + discriminate.
    + split; [reflexivity|]. cbn. split; [tauto|].
      intros [H'|[]]. discriminate.
Qed.

Lemma runs_and_warmup_clamped_witness :
  bench_calls (trace (snd (main demo_world demo_args init))) =
    List.concat (repeat [(msgspec, 10000%Z); (hyperspec, 10000%Z)] 10) /\
  List.length (run_lines (trace (snd (main demo_world demo_args init)))) = 10%nat.
Proof.
  pose proof (runs_and_warmup_clamped demo_world demo_clock demo_args
                (fun _ => eq_refl) (fun _ _ _ => eq_refl)) as H.
  cbv zeta in H. destruct H as (_ & _ & Hcalls & Hlines).
  rewrite Hcalls, Hlines. split; reflexivity.
Defined.

End BenchClaims.

(** ** The verdict of every run *)

Module BenchVerdict.
Import Py Bench BenchSpec FloatFacts BenchRun BenchClaims.
Local Open Scope string_scope.
Local Open Scope list_scope.
Local Open Scope float_scope.
Local Open Scope bench_scope.

Lemma quiet_ret {A} (a : A) : quiet (ret a).
Proof. intros st. reflexivity. Qed.

Lemma quiet_lift {A} (r : result A) : quiet (lift r).
Proof. intros st. reflexivity. Qed.

Lemma quiet_emit (e : event) : is_text e = false -> quiet (emit e).
Proof.
  intros He st. cbn. rewrite filter_app. cbn. rewrite He. apply app_nil_r.
Qed.

Lemma quiet_bench (w : world) (l : lib) (n : Z) : quiet (_bench_one w l n).
Proof.
  intros st. unfold _bench_one.
  destruct (measure w (calls st) l n); cbn; rewrite filter_app; apply app_nil_r.
Qed.

Lemma quiet_bind {A B} (m : M A) (k : A -> M B) :
  quiet m -> (forall a, quiet (k a)) -> quiet (bind m k).
Proof.
  intros Hm Hk st. unfold bind. specialize (Hm st).
  destruct (m st) as [[e|a] st']; cbn in *; [exact Hm|].
  rewrite Hk. exact Hm.
Qed.

Lemma quiet_for_loop {S} (body : Z -> S -> M S) (count : nat) :
  (forall i acc, quiet (body i acc)) ->
  forall i acc, quiet (for_loop count i body acc).
Proof.
  intros Hb. induction count as [|count IH]; intros i acc; cbn [for_loop].
  - apply quiet_ret.
  - apply quiet_bind; [apply Hb | intros acc'; apply IH].
Qed.

Ltac quiet_step :=
  first [ apply quiet_ret | apply quiet_lift | apply quiet_bench
        | apply quiet_emit; reflexivity
        | apply quiet_bind; [| intros ?] ].

Lemma quiet_summarize (name : string) (msg hyp : list float) :
  quiet (summarize name msg hyp).
Proof. unfold summarize, print. repeat quiet_step. Qed.

Lemma judged_bind {A} (m : M A) (k : A -> M Z) :
  quiet m -> (forall a, judged (k a)) -> judged (bind m k).
Proof.
  intros Hm Hk st Hst. unfold bind. specialize (Hm st).
  destruct (m st) as [[e|a] st'] eqn:Hs; cbn in Hm.
  - cbn. right. right. split; [|congruence]. exists e. reflexivity.
  - apply Hk. congruence.
Qed.

Lemma judged_main (w : world) (a : args) :
  import_ok w msgspec = true -> judged (main w a).
Proof.
  intros Hi. unfold main, print, eprint, for_range. rewrite Hi. cbn [negb].
  destruct (import_ok w hyperspec); cbn [negb].
  2:{ intros st Hst. right. right. split; [eexists; reflexivity | exact Hst]. }
  do 5 (apply judged_bind; [apply quiet_emit; reflexivity | intros _]).
  apply judged_bind.
  { apply quiet_for_loop. intros i acc. unfold warmup_body. repeat quiet_step. }
  intros _. apply judged_bind.
  { apply quiet_for_loop. intros i acc. unfold run_body, print. repeat quiet_step. }
  intros acc. apply judged_bind; [apply quiet_emit; reflexivity | intros _].
  apply judged_bind; [apply quiet_summarize | intros [[? ?] inst_pct]].
  apply judged_bind; [apply quiet_summarize | intros [[? ?] val_pct]].
  do 2 (apply judged_bind; [apply quiet_emit; reflexivity | intros _]).
  intros st Hst. destruct (_ || _); cbn; rewrite filter_app, Hst; cbn.
  - left. split; reflexivity.
  - right. left. split; reflexivity.
Qed.

(** In every run of [main], whatever the imports and the calls of
    [_bench_one] do: the FAIL line is on stderr exactly when [main] returns
    1, and the PASS line is on stdout exactly when it returns 0. *)
Theorem verdict_agrees_with_status (w : world) (a : args) :
  let r := main w a init in
  (In (Stderr (LText fail_text)) (trace (snd r)) <-> fst r = ok 1%Z) /\
  (In (Stdout (LText pass_text)) (trace (snd r)) <-> fst r = ok 0%Z).
Proof.
  cbv zeta.
  rewrite (In_text (Stderr (LText fail_text)) _ eq_refl).
  rewrite (In_text (Stdout (LText pass_text)) _ eq_refl).
  destruct (import_ok w msgspec) eqn:Hi.
  - destruct (judged_main w a Hi init eq_refl) as [[Hr Ht]|[[Hr Ht]|[[e Hr] Ht]]];
      rewrite Hr, Ht; cbn; unfold ok, raise; split; split; intros H;
      try discriminate; try tauto;
      repeat match goal with
             | H : _ \/ _ |- _ => destruct H
             | H : False |- _ => destruct H
             end; try discriminate.
  - unfold main. rewrite Hi. cbn. unfold ok. split; split; intros H;
      try discriminate;
      repeat match goal with
             | H : _ \/ _ |- _ => destruct H
             | H : False |- _ => destruct H
             end; try discriminate.
Qed.

(** When [msgspec] cannot be imported, [main] prints the hint and the
    import error to stderr, calls [_bench_one] never and returns 2; when
    only [hyperspec] cannot, it raises the import error and prints nothing. *)
Theorem import_failures (w : world) (a : args) :
  (import_ok w msgspec = false ->
   main w a init =
   (ok 2%Z, {| calls := 0;
               trace := [Stderr (LText import_hint);
                         Stderr (LImportError msgspec)] |})) /\
  (import_ok w msgspec = true -> import_ok w hyperspec = false ->
   main w a init = (raise (ImportError "hyperspec"), init)).
Proof.
  split.
  - intros Hm. unfold main. rewrite Hm. reflexivity.
  - intros Hm Hh. unfold main. rewrite Hm, Hh. reflexivity.
Qed.

End BenchVerdict.

(** ** The matcher on the repeats of a class *)

Module ReFacts.
Import Text Re ReleaseSpec.
Local Open Scope list_scope.

Lemma span_app (P : char -> bool) (s : str) :
  fst (span P s) ++ snd (span P s) = s.
Proof.
  induction s as [|c s IH]; [reflexivity|]. cbn [span].
  destruct (P c); [|reflexivity].
  destruct (span P s) as [run rest]. cbn in *. congruence.
Qed.

Lemma span_all (P : char -> bool) (s : str) :
  forallb P (fst (span P s)) = true.
Proof.
  induction s as [|c s IH]; [reflexivity|]. cbn [span].
  destruct (P c) eqn:Hc; [|reflexivity].
  destruct (span P s) as [run rest]. cbn in *. rewrite Hc. exact IH.
Qed.

Lemma span_cons (P : char -> bool) (c : char) (s : str) :
  P c = true -> span P (c :: s) = (c :: fst (span P s), snd (span P s)).
Proof. intros Hc. cbn [span]. rewrite Hc. destruct (span P s); reflexivity. Qed.

Lemma span_stop (P : char -> bool) (c : char) (s : str) :
  P c = false -> span P (c :: s) = ([], c :: s).
Proof. intros Hc. cbn [span]. rewrite Hc. reflexivity. Qed.

(** A greedy repeat whose continuation, when it succeeds before a
    character of the class, also succeeds after it, takes the whole run. *)
Lemma rep_greedy_forward {R} (P : char -> bool) (k : str -> str -> option R) :
  (forall b c a, P c = true -> k b (c :: a) <> None -> k (c :: b) a <> None) ->
  forall (after before : str) (min : nat),
    rep_greedy P min before after k =
    if (min <=? List.length (fst (span P after)))%nat
    then k (rev (fst (span P after)) ++ before) (snd (span P after))
    else None.
Proof.
  intros Hk.
  assert (Hmax : forall after before,
             k before after <> None ->
             k (rev (fst (span P after)) ++ before) (snd (span P after)) <> None).
  { induction after as [|c after IH]; intros before Hs; [exact Hs|].
    destruct (P c) eqn:Hc.
    - rewrite (span_cons P c after Hc). cbn [fst snd rev].
      rewrite <- app_assoc. cbn [app]. apply IH. apply Hk; assumption.
    - rewrite (span_stop P c after Hc). exact Hs. }
  induction after as [|c after IH]; intros before min.
  - cbn. destruct min; reflexivity.
  - cbn [rep_greedy]. destruct (P c) eqn:Hc.
    + rewrite IH, (span_cons P c after Hc). cbn [fst snd rev List.length].
      rewrite <- app_assoc. cbn [app].
      destruct min as [|min]; cbn [pred Nat.eqb Nat.leb].
      * destruct (k (rev (fst (span P after)) ++ c :: before) (snd (span P after)))
          as [r|] eqn:Hr; [reflexivity|].
        destruct (k before (c :: after)) as [r|] eqn:Hs; [|reflexivity].
        exfalso. apply (Hmax after (c :: before)); [|exact Hr].
        apply Hk; [exact Hc|]. rewrite Hs. discriminate.
      * destruct (min <=? _)%nat; [|reflexivity].
        destruct (k _ _); reflexivity.
    + rewrite (span_stop P c after Hc). cbn [fst snd rev List.length app].
      destruct min; reflexivity.
Qed.

(** A greedy repeat whose continuation succeeds after the whole run. *)
Lemma rep_greedy_max {R} (P : char -> bool) (k : str -> str -> option R) :
  forall (after before : str) (min : nat),
    k (rev (fst (span P after)) ++ before) (snd (span P after)) <> None ->
    rep_greedy P min before after k =
    if (min <=? List.length (fst (span P after)))%nat
    then k (rev (fst (span P after)) ++ before) (snd (span P after))
    else None.
Proof.
  induction after as [|c after IH]; intros before min Hs.
  - cbn. destruct min; reflexivity.
  - cbn [rep_greedy]. destruct (P c) eqn:Hc.
    + rewrite (span_cons P c after Hc) in *. cbn [fst snd rev List.length] in *.
      rewrite <- app_assoc in *. cbn [app] in *. rewrite (IH _ _ Hs).
      destruct min as [|min]; cbn [pred Nat.eqb Nat.leb].
      * destruct (k _ (snd _)) as [r|]; [reflexivity | congruence].
      * destruct (min <=? _)%nat; [|reflexivity].
        destruct (k _ (snd _)); reflexivity.
    + rewrite (span_stop P c after Hc). cbn [fst snd rev List.length app].
      destruct min; reflexivity.
Qed.

(** Literal text. *)
Lemma run_chars {R} (s : str) (r : re) (before after : str) (c : caps)
  (k : str -> str -> caps -> option R) :
  run (fold_right (fun x r' => Cat (Chr x) r') r s) R before after c k =
  match strip_prefix s after with
  | Some rest => run r R (rev s ++ before) rest c k
  | None => None
  end.
Proof.
  revert before after. induction s as [|x s IH]; intros before after.
  - reflexivity.
  - cbn [fold_right run strip_prefix]. destruct after as [|y after]; [reflexivity|].
    destruct (x =? y)%N eqn:Hxy; [|reflexivity].
    apply N.eqb_eq in Hxy. subst y.
    rewrite IH. cbn [rev]. rewrite <- app_assoc. reflexivity.
Qed.

End ReFacts.

Module HeadingFacts.
Import Text Re Release ReleaseSpec ReFacts.
Local Open Scope list_scope.

Lemma run_lit {R} (s : string) (r : re) (before after : str) (c : caps)
  (k : str -> str -> caps -> option R) :
  run (Cat (chars s) r) R before after c k =
  match strip_prefix (lit s) after with
  | Some rest => run r R (rev (lit s) ++ before) rest c k
  | None => None
  end.
Proof.
  cbn [run]. unfold chars. rewrite run_chars.
  destruct (strip_prefix (lit s) after); reflexivity.
Qed.

(** One step of [run] on each shape the patterns have. *)
Lemma run_bol {R} (r : re) (before after : str) (c : caps)
  (k : str -> str -> caps -> option R) :
  run (Cat Bol r) R before after c k =
  if at_bol before then run r R before after c k else None.
Proof. reflexivity. Qed.

Lemma run_greedy {R} (min : nat) (P : char -> bool) (r : re)
  (before after : str) (c : caps) (k : str -> str -> caps -> option R) :
  run (Cat (Rep true min P) r) R before after c k =
  rep_greedy P min before after (fun b a => run r R b a c k).
Proof. reflexivity. Qed.

Lemma run_group_greedy {R} (name : string) (min : nat) (P : char -> bool) (r : re)
  (before after : str) (c : caps) (k : str -> str -> caps -> option R) :
  run (Cat (Group name (Rep true min P)) r) R before after c k =
  rep_greedy P min before after
    (fun b a =>
       run r R b a ((name, firstn (List.length after - List.length a) after) :: c) k).
Proof. reflexivity. Qed.

Lemma run_group_lazy {R} (name : string) (min : nat) (P : char -> bool) (r : re)
  (before after : str) (c : caps) (k : str -> str -> caps -> option R) :
  run (Cat (Group name (Rep false min P)) r) R before after c k =
  rep_lazy P min before after
    (fun b a =>
       run r R b a ((name, firstn (List.length after - List.length a) after) :: c) k).
Proof. reflexivity. Qed.

Lemma run_ahead {R} (r : re) (before after : str) (c : caps)
  (k : str -> str -> caps -> option R) :
  run (Cat (Ahead r) Eps) R before after c k =
  match run r caps before after c (fun _ _ c' => Some c') with
  | Some c' => k before after c'
  | None => None
  end.
Proof. reflexivity. Qed.

Lemma run_alt {R} (r1 r2 : re) (before after : str) (c : caps)
  (k : str -> str -> caps -> option R) :
  run (Alt r1 r2) R before after c k =
  match run r1 R before after c k with
  | Some x => Some x
  | None => run r2 R before after c k
  end.
Proof. reflexivity. Qed.

Lemma run_eps {R} (before after : str) (c : caps)
  (k : str -> str -> caps -> option R) :
  run Eps R before after c k = k before after c.
Proof. reflexivity. Qed.

Lemma run_eos {R} (before after : str) (c : caps)
  (k : str -> str -> caps -> option R) :
  run Eos R before after c k =
  match after with [] => k before after c | _ :: _ => None end.
Proof. reflexivity. Qed.

Lemma heading_re_pieces :
  heading_re =
  Cat Bol (Cat (chars "##") (Cat (Rep true 1 space)
    (Cat (chars "Version") (Cat (Rep true 1 space) version_re)))).
Proof. reflexivity. Qed.

(** After blanks, the word Version does not follow a blank. *)
Lemma version_after_blank (x : char) (a : str) :
  space x = true -> strip_prefix (lit "Version") (x :: a) = None.
Proof.
  intros Hx. cbn [lit list_ascii_of_string map strip_prefix].
  destruct (N_of_ascii "V" =? x)%N eqn:Hv; [|reflexivity].
  apply N.eqb_eq in Hv. subst x. discriminate.
Qed.

Lemma mark_run {R} (before after : str) (c : caps)
  (k : str -> str -> caps -> option R) :
  exists before',
    run mark_re R before after c k =
    match (if at_bol before then heading_mark after else None) with
    | Some rest => k before' rest c
    | None => None
    end.
Proof.
  change mark_re with
    (Cat Bol (Cat (chars "##") (Cat (Rep true 1 space) (Cat (chars "Version") Eps)))).
  rewrite run_bol.
  destruct (at_bol before); [|exists []; reflexivity].
  rewrite run_lit. unfold heading_mark.
  destruct (strip_prefix (lit "##") after) as [r|]; [|exists []; reflexivity].
  rewrite run_greedy, rep_greedy_forward.
  2:{ intros b x a Hx Hs. exfalso. apply Hs.
      rewrite run_lit, version_after_blank by exact Hx. reflexivity. }
  destruct (span space r) as [blanks r1]. cbn [fst snd].
  destruct blanks as [|x blanks]; cbn [List.length Nat.leb nonempty];
    [exists []; reflexivity|].
  rewrite run_lit.
  eexists. destruct (strip_prefix (lit "Version") r1); [rewrite run_eps|]; reflexivity.
Qed.

Lemma look_run (before after : str) (c : caps) :
  run look_re caps before after c (fun _ _ c' => Some c') =
  if stops before after then Some c else None.
Proof.
  unfold look_re. rewrite run_alt, run_eos.
  destruct (mark_run before after c (fun _ _ c' => Some c')) as [b' ->].
  unfold stops.
  destruct (at_bol before); cbn [andb].
  - destruct (heading_mark after); cbn [is_some orb]; [reflexivity|].
    destruct after; reflexivity.
  - destruct after; reflexivity.
Qed.

Lemma rep_lazy_until {R} (k0 k : str -> str -> option R) :
  (forall b a, k0 b a = if stops b a then k b a else None) ->
  (forall b a, k b a <> None) ->
  forall (after before : str),
    rep_lazy any 0 before after k0 =
    k (rev (notes_until before after) ++ before)
      (skipn (List.length (notes_until before after)) after).
Proof.
  intros Hk0 Hk. induction after as [|x after IH]; intros before.
  - cbn. rewrite Hk0. unfold stops. cbn. rewrite orb_true_r.
    destruct (k before []); reflexivity.
  - cbn [rep_lazy Nat.eqb any pred notes_until]. rewrite Hk0. unfold stops.
    cbn [nonempty negb]. rewrite orb_false_r.
    destruct (at_bol before); cbn [andb].
    + destruct (heading_mark (x :: after)) as [r|]; cbn [is_some].
      * cbn [List.length skipn rev app].
        destruct (k before (x :: after)) eqn:Hs; [reflexivity|].
        exfalso. exact (Hk _ _ Hs).
      * rewrite IH. cbn [List.length skipn rev]. rewrite <- app_assoc. reflexivity.
    + rewrite IH. cbn [List.length skipn rev]. rewrite <- app_assoc. reflexivity.
Qed.

Lemma notes_until_prefix (after before : str) :
  firstn (List.length after
          - List.length (skipn (List.length (notes_until before after)) after))
         after
  = notes_until before after.
Proof.
  revert before. induction after as [|x after IH]; intros before; [reflexivity|].
  cbn [notes_until].
  destruct (if at_bol before then heading_mark (x :: after) else None).
  - cbn [List.length skipn]. rewrite Nat.sub_diag. reflexivity.
  - cbn [List.length skipn].
    specialize (IH (x :: before)).
    assert (Hle : (List.length (skipn (List.length (notes_until (x :: before) after)) after)
                   <= List.length after)%nat).
    { rewrite length_skipn. lia. }
    rewrite Nat.sub_succ_l by exact Hle. cbn [firstn]. rewrite IH. reflexivity.
Qed.

Lemma notes_until_bol (after b1 b2 : str) :
  at_bol b1 = at_bol b2 -> notes_until b1 after = notes_until b2 after.
Proof.
  revert b1 b2. induction after as [|x after IH]; intros b1 b2 Hb; [reflexivity|].
  cbn [notes_until]. rewrite Hb, (IH (x :: b1) (x :: b2)) by reflexivity.
  reflexivity.
Qed.

Section Total.

Variable R : Type.
Variable K : str -> str -> caps -> option R.
Hypothesis K_total : forall b a c, K b a c <> None.

Lemma tail_run (before after : str) (c : caps) :
  run tail_re R before after c K =
  K (rev (notes_until before after) ++ before)
    (skipn (List.length (notes_until before after)) after)
    (("notes"%string, notes_until before after) :: c).
Proof.
  change tail_re with
    (Cat (Group "notes" (Rep false 0 any)) (Cat (Ahead look_re) Eps)).
  rewrite run_group_lazy.
  rewrite (rep_lazy_until
             (fun b a => run (Cat (Ahead look_re) Eps) R b a
                           (("notes"%string,
                             firstn (List.length after - List.length a) after) :: c) K)
             (fun b a => K b a (("notes"%string,
                             firstn (List.length after - List.length a) after) :: c))).
  - rewrite notes_until_prefix. reflexivity.
  - intros b a. rewrite run_ahead, look_run. destruct (stops b a); reflexivity.
  - intros b a. apply K_total.
Qed.

Lemma tail_total (before after : str) (c : caps) :
  run tail_re R before after c K <> None.
Proof. rewrite tail_run. apply K_total. Qed.

Lemma breaks_run (before after : str) (c : caps) :
  run breaks_re R before after c K =
  if nonempty (fst (span newline after))
  then run tail_re R (rev (fst (span newline after)) ++ before)
         (snd (span newline after)) c K
  else None.
Proof.
  unfold breaks_re. rewrite run_greedy, rep_greedy_max by apply tail_total.
  destruct (fst (span newline after)); reflexivity.
Qed.

Lemma line_run (before after : str) (c : caps) :
  run line_re R before after c K =
  run breaks_re R (rev (fst (span not_newline after)) ++ before)
    (snd (span not_newline after)) c K.
Proof.
  unfold line_re. rewrite run_greedy, rep_greedy_forward; [reflexivity|].
  intros b x a Hx Hs. exfalso. apply Hs. rewrite breaks_run.
  rewrite span_stop; [reflexivity|].
  unfold not_newline in Hx. unfold newline. destruct (x =? nl)%N; [discriminate|reflexivity].
Qed.

Lemma line_some (before after : str) (c : caps) :
  run line_re R before after c K <> None <-> line_ends after = true.
Proof.
  rewrite line_run, breaks_run. unfold line_ends.
  destruct (nonempty _); split; intros H; try congruence.
  apply tail_total.
Qed.

Lemma nonspace_not_newline (x : char) : nonspace x = true -> not_newline x = true.
Proof.
  unfold nonspace, not_newline. intros Hx.
  destruct (x =? nl)%N eqn:Hn; [|reflexivity].
  apply N.eqb_eq in Hn. subst x. discriminate.
Qed.

Lemma firstn_consumed (l1 l2 : str) :
  firstn (List.length (l1 ++ l2) - List.length l2) (l1 ++ l2) = l1.
Proof.
  rewrite length_app, Nat.add_sub, firstn_app, Nat.sub_diag, firstn_all.
  cbn [firstn]. apply app_nil_r.
Qed.

Lemma firstn_span (P : char -> bool) (s : str) :
  firstn (List.length s - List.length (snd (span P s))) s = fst (span P s).
Proof.
  pose proof (firstn_consumed (fst (span P s)) (snd (span P s))) as H.
  rewrite span_app in H. exact H.
Qed.

Lemma version_run (before after : str) (c : caps) :
  run version_re R before after c K =
  if nonempty (fst (span nonspace after))
  then run line_re R (rev (fst (span nonspace after)) ++ before)
         (snd (span nonspace after))
         (("version"%string, fst (span nonspace after)) :: c) K
  else None.
Proof.
  unfold version_re. rewrite run_group_greedy, rep_greedy_forward.
  - destruct (fst (span nonspace after)) as [|x v] eqn:Hv; [reflexivity|].
    cbn [List.length Nat.leb nonempty]. rewrite <- Hv.
    rewrite firstn_span. reflexivity.
  - intros b x a Hx Hs. rewrite line_some in *.
    unfold line_ends in *.
    rewrite (span_cons not_newline x a (nonspace_not_newline x Hx)) in Hs.
    exact Hs.
Qed.

Lemma at_bol_breaks (l before : str) :
  nonempty l = true -> forallb newline l = true -> at_bol (rev l ++ before) = true.
Proof.
  intros Hl Hall. destruct (rev l) as [|x l'] eqn:Hr.
  - destruct l; [discriminate|]. apply (f_equal (@List.length _)) in Hr.
    rewrite length_rev in Hr. discriminate.
  - cbn [app at_bol]. rewrite forallb_forall in Hall.
    apply (Hall x). apply in_rev. rewrite Hr. left. reflexivity.
Qed.

Lemma version_after_blank_run (b a : str) (x : char) (c : caps) :
  space x = true -> run version_re R b (x :: a) c K = None.
Proof.
  intros Hx. rewrite version_run, span_stop; [reflexivity|].
  unfold nonspace. unfold space in Hx. rewrite Hx. reflexivity.
Qed.

(** The whole pattern, at one position: it matches where [heading] reads
    a version heading, with the groups [heading] and [notes_until] give. *)
Lemma heading_run (before after : str) :
  exists before',
    run heading_re R before after [] K =
    match (if at_bol before then heading after else None) with
    | Some (version, rest) =>
        K before' (skipn (List.length (notes_until [nl] rest)) rest)
          [("notes"%string, notes_until [nl] rest); ("version"%string, version)]
    | None => None
    end.
Proof.
  rewrite heading_re_pieces, run_bol.
  destruct (at_bol before); [|exists []; reflexivity].
  rewrite run_lit. unfold heading, heading_mark.
  destruct (strip_prefix (lit "##") after) as [r|]; [|exists []; reflexivity].
  rewrite run_greedy, rep_greedy_forward.
  2:{ intros b x a Hx Hs. exfalso. apply Hs.
      rewrite run_lit, version_after_blank by exact Hx. reflexivity. }
  destruct (span space r) as [blanks r1]. cbn [fst snd].
  destruct blanks as [|x0 blanks]; cbn [List.length Nat.leb nonempty];
    [exists []; reflexivity|].
  rewrite run_lit.
  destruct (strip_prefix (lit "Version") r1) as [r'|]; [|exists []; reflexivity].
  rewrite run_greedy, rep_greedy_forward.
  2:{ intros b x a Hx Hs. exfalso. apply Hs.
      apply version_after_blank_run. exact Hx. }
  destruct (span space r') as [blanks' r1'] eqn:Hb'. cbn [fst snd].
  destruct blanks' as [|x1 blanks']; cbn [List.length Nat.leb nonempty andb].
  { exists []. destruct (span nonspace r1') as [v r2].
    destruct (span not_newline r2) as [l r3].
    destruct (span newline r3); reflexivity. }
  rewrite version_run.
  destruct (span nonspace r1') as [v r2] eqn:Hv. cbn [fst snd].
  destruct (nonempty v); cbn [andb].
  2:{ exists []. destruct (span not_newline r2) as [l r3].
      destruct (span newline r3); reflexivity. }
  rewrite line_run, breaks_run.
  destruct (span not_newline r2) as [l r3] eqn:Hl. cbn [fst snd].
  pose proof (span_all newline r3) as Hall.
  destruct (span newline r3) as [breaks r4] eqn:Hbr. cbn [fst snd] in *.
  destruct (nonempty breaks) eqn:Hne; [|exists []; reflexivity].
  rewrite tail_run. eexists.
  rewrite (notes_until_bol r4 _ [nl]); [reflexivity|].
  rewrite at_bol_breaks by assumption. reflexivity.
Qed.

End Total.

(** [re.search] with the script's pattern finds the first section. *)
Lemma search_from_heading (after before : str) :
  option_map (fun m => (group "version" (m_groups m), group "notes" (m_groups m)))
    (search_from heading_re before after)
  = first_section_from before after.
Proof.
  revert before. induction after as [|x after IH]; intros before.
  - cbn [search_from first_section_from].
    destruct (heading_run (nat * caps)
                (fun b _ c => Some (List.length b, c))
                ltac:(discriminate) before []) as [b' ->].
    destruct (if at_bol before then heading [] else None) as [[v r]|]; reflexivity.
  - cbn [search_from first_section_from].
    destruct (heading_run (nat * caps)
                (fun b _ c => Some (List.length b, c))
                ltac:(discriminate) before (x :: after)) as [b' ->].
    destruct (if at_bol before then heading (x :: after) else None) as [[v r]|];
      [reflexivity | apply IH].
Qed.

Lemma search_heading (changelog : str) :
  option_map (fun m => (group "version" (m_groups m), group "notes" (m_groups m)))
    (search heading_re changelog)
  = first_section changelog.
Proof. apply search_from_heading. Qed.

End HeadingFacts.

Module RewriteFacts.
Import Text Re Release ReleaseSpec ReFacts HeadingFacts.
Local Open Scope list_scope.

Lemma strip_prefix_app (p s r : str) : strip_prefix p s = Some r -> s = p ++ r.
Proof.
  revert s. induction p as [|x p IH]; intros s H.
  - cbn in H. injection H as ->. reflexivity.
  - destruct s as [|y s]; [discriminate|]. cbn [strip_prefix] in H.
    destruct (x =? y)%N eqn:Hxy; [|discriminate].
    apply N.eqb_eq in Hxy. subst y. cbn [app]. f_equal. apply IH. exact H.
Qed.

Section Rewrite.

Variable unicode_nd : char -> bool.

(** The closing backquote is no digit, so it does not follow the digits as one. *)
Lemma backquote_after_digit (x : char) (a : str) :
  (digit unicode_nd) x = true -> strip_prefix (lit "`") (x :: a) = None.
Proof.
  intros Hx. cbn [lit list_ascii_of_string map strip_prefix].
  destruct (N_of_ascii "`" =? x)%N eqn:Hq; [|reflexivity].
  apply N.eqb_eq in Hq. subst x. discriminate.
Qed.

(** The pattern of [re.sub], at one position. *)
Lemma pr_run (after : str) :
  match (pr_ref unicode_nd) after with
  | Some (digits, rest) =>
      exists consumed,
        after = consumed ++ rest /\ consumed <> [] /\
        forall R (K : str -> str -> caps -> option R) before,
          run (pr_re unicode_nd) R before after [] K =
          K (rev consumed ++ before) rest [("1"%string, digits)]
  | None =>
      forall R (K : str -> str -> caps -> option R) before,
        run (pr_re unicode_nd) R before after [] K = None
  end.
Proof.
  assert (Hrun : forall R (K : str -> str -> caps -> option R) before,
             run (pr_re unicode_nd) R before after [] K =
             match strip_prefix (lit "{pr}`") after with
             | Some r =>
                 if nonempty (fst (span (digit unicode_nd) r))
                 then match strip_prefix (lit "`") (snd (span (digit unicode_nd) r)) with
                      | Some r2 =>
                          K (rev (lit "`") ++ rev (fst (span (digit unicode_nd) r))
                               ++ rev (lit "{pr}`") ++ before) r2
                            [("1"%string, fst (span (digit unicode_nd) r))]
                      | None => None
                      end
                 else None
             | None => None
             end).
  { intros R K before.
    change (pr_re unicode_nd) with
      (Cat (chars "{pr}`") (Cat (Group "1" (Rep true 1 (digit unicode_nd))) (Cat (chars "`") Eps))).
    rewrite run_lit.
    destruct (strip_prefix (lit "{pr}`") after) as [r|]; [|reflexivity].
    rewrite run_group_greedy, rep_greedy_forward.
    2:{ intros b x a Hx Hs. exfalso. apply Hs.
        rewrite run_lit, backquote_after_digit by exact Hx. reflexivity. }
    destruct (fst (span (digit unicode_nd) r)) as [|d ds] eqn:Hd; [reflexivity|].
    cbn [List.length Nat.leb nonempty]. rewrite <- Hd.
    rewrite run_lit, firstn_span.
    destruct (strip_prefix (lit "`") (snd (span (digit unicode_nd) r))); [|reflexivity].
    rewrite run_eps. reflexivity. }
  unfold pr_ref.
  destruct (strip_prefix (lit "{pr}`") after) as [r|] eqn:Hp.
  2:{ intros R K before. rewrite Hrun. reflexivity. }
  pose proof (span_app (digit unicode_nd) r) as Hr.
  destruct (span (digit unicode_nd) r) as [digits r1]. cbn [fst snd] in *.
  destruct (nonempty digits) eqn:Hne.
  2:{ intros R K before. rewrite Hrun. reflexivity. }
  destruct (strip_prefix (lit "`") r1) as [r2|] eqn:Hq.
  2:{ intros R K before. rewrite Hrun. reflexivity. }
  exists (lit "{pr}`" ++ digits ++ lit "`"). split; [|split].
  - apply strip_prefix_app in Hp, Hq. subst after r1.
    rewrite <- Hr, <- !app_assoc. reflexivity.
  - discriminate.
  - intros R K before. rewrite Hrun. rewrite !rev_app_distr, <- !app_assoc.
    reflexivity.
Qed.

Lemma sub_from_pr (after : str) : forall (before : str) (skip : nat),
  sub_from (pr_re unicode_nd) pr_template skip before after =
  rewrite_pr_from unicode_nd skip after.
Proof.
  induction after as [|x after IH]; intros before skip.
  - destruct skip; [|reflexivity]. cbn [sub_from rewrite_pr_from].
    pose proof (pr_run []) as H.
    change (pr_ref unicode_nd []) with (@None (str * str)) in H.
    rewrite H. reflexivity.
  - cbn [sub_from rewrite_pr_from]. destruct skip as [|skip]; [|apply IH].
    pose proof (pr_run (x :: after)) as H.
    fold ((pr_ref unicode_nd) (x :: after)).
    destruct ((pr_ref unicode_nd) (x :: after)) as [[digits rest]|].
    + destruct H as (consumed & Hc & Hne & Hrun). rewrite Hrun.
      rewrite length_app, length_rev, Nat.add_sub.
      replace (List.length (x :: after) - List.length rest - 1)%nat
        with (pred (List.length consumed))
        by (rewrite Hc, length_app; lia).
      destruct consumed as [|y consumed]; [congruence|].
      cbn [List.length pred]. rewrite IH.
      unfold pr_template. cbn [group String.eqb]. rewrite <- app_assoc.
      reflexivity.
    + rewrite H, IH. reflexivity.
Qed.

(** [re.sub] with the script's pattern and template rewrites every
    pull-request reference. *)
Lemma sub_pr (s : str) : sub (pr_re unicode_nd) pr_template s = rewrite_pr unicode_nd s.
Proof. apply sub_from_pr. Qed.

End Rewrite.
End RewriteFacts.

Module ReleaseClaims.
Import Py Text Re Release ReleaseSpec ReleaseWords ReFacts HeadingFacts RewriteFacts.
Local Open Scope list_scope.

Lemma lstrip_nonspace (s : str) : forallb nonspace s = true -> lstrip s = s.
Proof.
  destruct s as [|x s]; [reflexivity|]. cbn [forallb lstrip]. unfold nonspace.
  destruct (isspace x); [discriminate | reflexivity].
Qed.

Lemma strip_nonspace (s : str) : forallb nonspace s = true -> strip s = s.
Proof.
  intros Hs. unfold strip, rstrip. rewrite (lstrip_nonspace s Hs).
  rewrite lstrip_nonspace; [apply rev_involutive|].
  rewrite forallb_forall in *. intros x Hx. apply Hs, in_rev, Hx.
Qed.

Lemma heading_version (s version rest : str) :
  heading s = Some (version, rest) -> forallb nonspace version = true.
Proof.
  unfold heading. destruct (heading_mark s) as [r|]; [|discriminate].
  destruct (span space r) as [blanks r1].
  pose proof (span_all nonspace r1) as Hall.
  destruct (span nonspace r1) as [v r2].
  destruct (span not_newline r2) as [l r3].
  destruct (span newline r3) as [breaks r4].
  destruct (_ && _); [|discriminate].
  intros H. injection H as <- _. exact Hall.
Qed.

Lemma first_section_version (s before version notes : str) :
  first_section_from before s = Some (version, notes) ->
  forallb nonspace version = true.
Proof.
  revert before. induction s as [|x s IH]; intros before; cbn [first_section_from].
  - destruct (at_bol before); [|discriminate].
    destruct (heading []) as [[v r]|] eqn:Hh; [|discriminate].
    intros H. injection H as <- _. exact (heading_version _ _ _ Hh).
  - destruct (if at_bol before then heading (x :: s) else None) as [[v r]|] eqn:Hh.
    + intros H. injection H as <- _.
      destruct (at_bol before); [|discriminate]. exact (heading_version _ _ _ Hh).
    + apply IH.
Qed.

(** Claim C10, as amended.  For every changelog text, [main] works on the
    first match of its pattern from the top, which [first_section] reads:
    a line that starts with the two hashes, white space, the word Version,
    white space and a version, where the white space may run over line
    breaks, the line ending in a line break; the notes are the text after
    the heading's line breaks up to the next line that starts with the two
    hashes, white space and the word Version, or to the end.  When there
    is no match it raises [RuntimeError] with a message that ends with the
    changelog's path, and opens no tab.  Otherwise it opens one tab, on
    the release page, with the title "Version v", the tag v, and as body
    the notes (stripped, as the script's [notes] is) with every reference
    [{pr}`N`] rewritten to [#N]. *)
Theorem release_main (unicode_nd : char -> bool)
  (urlencode : list (str * str) -> str) (changelog_path changelog : str) :
  match first_section changelog with
  | None =>
      main unicode_nd urlencode changelog_path changelog =
      (raise (RuntimeError (lit "Unable to parse changelog at " ++ changelog_path)),
       [])
  | Some (version, notes) =>
      main unicode_nd urlencode changelog_path changelog =
      (ok tt,
       [OpenNewTab
          (lit "https://github.com/jcrist/hyperspec/releases/new?"
           ++ urlencode
                [(lit "title", lit "Version " ++ version);
                 (lit "tag", version);
                 (lit "body", rewrite_pr unicode_nd (strip notes))])])
  end.
Proof.
  pose proof (search_heading changelog) as Hs. unfold main.
  destruct (search heading_re changelog) as [m|]; cbn [option_map] in Hs;
    rewrite <- Hs; [|reflexivity].
  cbv zeta. rewrite sub_pr.
  rewrite (strip_nonspace (group "version" (m_groups m))); [reflexivity|].
  symmetry in Hs. exact (first_section_version _ _ _ _ Hs).
Qed.

(** Claim C10 as worded, read line by line, does not hold for every
    changelog.  A heading line with no version on it takes its version
    from the next line: the tag is "##", not the "1.0" of the first
    heading that has a version.  And the notes of a section stop at any
    line that starts like a version heading, such as "## Versions of
    things", not only at the next section. *)
Lemma release_main_counterexample :
  main (fun _ => false) show_items (lit "docs/changelog.md") bare_heading_changelog
  = (ok tt,
     [OpenNewTab
        (lit "https://github.com/jcrist/hyperspec/releases/new?"
         ++ lit "title=Version ##&tag=##&" ++ lit "body=- First.&")]) /\
  main_as_claimed (fun _ => false) show_items (lit "docs/changelog.md")
    bare_heading_changelog
  = (ok tt,
     [OpenNewTab
        (lit "https://github.com/jcrist/hyperspec/releases/new?"
         ++ lit "title=Version 1.0&tag=1.0&" ++ lit "body=- First.&")]) /\
  main (fun _ => false) show_items (lit "docs/changelog.md") versions_changelog
  = (ok tt,
     [OpenNewTab
        (lit "https://github.com/jcrist/hyperspec/releases/new?"
         ++ lit "title=Version 2.0&tag=2.0&" ++ lit "body=- New.&")]) /\
  main (fun _ => false) show_items (lit "docs/changelog.md") versions_changelog
  <> main_as_claimed (fun _ => false) show_items (lit "docs/changelog.md")
       versions_changelog.
Proof.
  split; [vm_compute; reflexivity|]. split; [vm_compute; reflexivity|].
  split; [vm_compute; reflexivity|].
  intros H. vm_compute in H. discriminate H.
Qed.

(** On the sample changelog the two readings agree. *)
Example release_sample_as_claimed :
  main (fun _ => false) show_items (lit "docs/changelog.md") sample_changelog
  = main_as_claimed (fun _ => false) show_items (lit "docs/changelog.md")
      sample_changelog.
Proof. vm_compute. reflexivity. Qed.

End ReleaseClaims.

(** ** The two patterns, said directly *)

Module ReleaseExtras.
Import Py Text Re Release ReleaseSpec ReFacts HeadingFacts RewriteFacts.
Local Open Scope list_scope.

(** [re.search] with the script's pattern matches exactly when the
    changelog has a version heading, at the first one from the top; its
    group [version] is the heading's version and its group [notes] the text
    up to the next version heading or the end. *)
Theorem search_finds_first_section (changelog : str) :
  match search heading_re changelog with
  | Some m =>
      first_section changelog
      = Some (group "version" (m_groups m), group "notes" (m_groups m))
  | None => first_section changelog = None
  end.
Proof.
  pose proof (search_heading changelog) as H.
  destruct (search heading_re changelog); cbn [option_map] in H;
    symmetry; exact H.
Qed.

(** [re.sub] with the script's pattern and template leaves a text as it is
    but for its pull-request references, each rewritten to a hash and its
    digits, whatever the non-ASCII digits of the Unicode database are. *)
Theorem sub_rewrites_references (unicode_nd : char -> bool) (notes : str) :
  sub (pr_re unicode_nd) pr_template notes = rewrite_pr unicode_nd notes.
Proof. apply sub_pr. Qed.

End ReleaseExtras.

(** ** The release script on a changelog *)

Module ReleaseExamples.
Import Py Text Re Release ReleaseSpec.
Local Open Scope string_scope.
Local Open Scope list_scope.

Example release_sample :
  main (fun _ => false) show_items (lit "docs/changelog.md") sample_changelog =
  (ok tt,
   [OpenNewTab
      (lit "https://github.com/jcrist/hyperspec/releases/new?"
       ++ lit "title=Version 0.19.0&tag=0.19.0&"
       ++ lit "body=- Fix the decoder (#123, #45).&")]).
Proof. vm_compute. reflexivity. Qed.

(** A heading on the last line, with no line break after it, is no match. *)
Example release_unfinished_heading :
  main (fun _ => false) show_items (lit "changelog.md")
    (lit "## Version 1.0") =
  (raise (RuntimeError (lit "Unable to parse changelog at changelog.md")), []).
Proof. vm_compute. reflexivity. Qed.

End ReleaseExamples.

(** ** The typed JSON core *)

Module CoreFacts.
Import Text Core CoreSpec.
Local Open Scope list_scope.
Local Open Scope core_scope.

Lemma str_eqb_eq (a b : str) : str_eqb a b = true <-> a = b.
Proof. unfold str_eqb. destruct (list_eq_dec N.eq_dec a b); split; congruence. Qed.

Lemma str_eqb_neq (a b : str) : str_eqb a b = false <-> a <> b.
Proof. unfold str_eqb. destruct (list_eq_dec N.eq_dec a b); split; congruence. Qed.

(** *** The union table *)

(** An entry of a built table is a member with that discriminant value. *)
Lemma union_entries_sound (schemas : list RecordSchema) (field : str)
  (members : list nat) : forall entries tag id,
  union_entries schemas field members = ok entries ->
  lookup tag entries = Some id ->
  In id members /\
  exists s, nth_error schemas id = Some s /\ s_tag_value s = tag.
Proof.
  induction members as [|m members IH]; intros entries tag id Hb Hl.
  - injection Hb as <-. discriminate.
  - cbn [union_entries] in Hb.
    destruct (nth_error schemas m) as [s|] eqn:Hs; [|discriminate].
    destruct (negb (s_tagged s)); [discriminate|].
    destruct (negb (str_eqb (s_tag_field s) field)); [discriminate|].
    destruct (union_entries schemas field members) as [e|rest] eqn:Hr;
      [discriminate|]. cbn [bind] in Hb.
    destruct (lookup (s_tag_value s) rest) eqn:Hdup; [discriminate|].
    injection Hb as <-. cbn [lookup] in Hl.
    destruct (str_eqb (s_tag_value s) tag) eqn:Ht.
    + injection Hl as <-. apply str_eqb_eq in Ht.
      split; [left; reflexivity | exists s; split; assumption].
    + destruct (IH rest tag id eq_refl Hl) as [Hin Hex].
      split; [right; exact Hin | exact Hex].
Qed.

(** Every member is found under its discriminant value: no two members of
    a built table share one. *)
Lemma union_entries_complete (schemas : list RecordSchema) (field : str)
  (members : list nat) : forall entries id s,
  union_entries schemas field members = ok entries ->
  In id members -> nth_error schemas id = Some s ->
  lookup (s_tag_value s) entries = Some id.
Proof.
  induction members as [|m members IH]; intros entries id s Hb Hin Hs.
  - destruct Hin.
  - cbn [union_entries] in Hb.
    destruct (nth_error schemas m) as [sm|] eqn:Hm; [|discriminate].
    destruct (negb (s_tagged sm)); [discriminate|].
    destruct (negb (str_eqb (s_tag_field sm) field)); [discriminate|].
    destruct (union_entries schemas field members) as [e|rest] eqn:Hr;
      [discriminate|]. cbn [bind] in Hb.
    destruct (lookup (s_tag_value sm) rest) eqn:Hdup; [discriminate|].
    injection Hb as <-. cbn [lookup].
    destruct Hin as [->|Hin].
    + rewrite Hs in Hm. injection Hm as <-.
      destruct (str_eqb (s_tag_value s) (s_tag_value s)) eqn:He; [reflexivity|].
      apply str_eqb_neq in He. congruence.
    + pose proof (IH rest id s eq_refl Hin Hs) as Hfound.
      destruct (str_eqb (s_tag_value sm) (s_tag_value s)) eqn:He; [|exact Hfound].
      apply str_eqb_eq in He. rewrite He in Hdup. congruence.
Qed.

Lemma build_union_table_entries (schemas : list RecordSchema)
  (members : list nat) (table : UnionTable) :
  build_union_table schemas members = ok table ->
  union_entries schemas (u_field table) members = ok (u_entries table).
Proof.
  unfold build_union_table. destruct members as [|m members]; [discriminate|].
  destruct (nth_error schemas m) as [s|]; [|discriminate].
  destruct (union_entries schemas (s_tag_field s) (m :: members)) as [e|entries] eqn:He;
    [discriminate|].
  intros H. injection H as <-. exact He.
Qed.

(** *** Unfolding [convert] at an object *)

Lemma convert_record_ref (schemas : list RecordSchema) (raw : list (str * json))
  (id : nat) (p : path) :
  convert schemas (JObj raw) (RecordRef id) p =
  convert_record schemas id (converters schemas raw) p.
Proof. reflexivity. Qed.

Lemma convert_union (schemas : list RecordSchema) (raw : list (str * json))
  (ids : list nat) (p : path) :
  convert schemas (JObj raw) (Union ids) p =
  (table <- build_union_table schemas ids ;;
   match member (u_field table) raw with
   | None => err MissingDiscriminantError
   | Some discriminant =>
       id <- resolve table discriminant ;;
       convert_record schemas id (converters schemas raw) p
   end).
Proof. reflexivity. Qed.

End CoreFacts.

Module CoreClaims.
Import Text Core CoreSpec CoreFacts.
Local Open Scope list_scope.
Local Open Scope core_scope.

(** What a record target gives, when it gives a value, is an instance of
    that record. *)
Lemma convert_record_instance (schemas : list RecordSchema) (id : nat)
  (members : list (str * converter)) (p : path) (v : value) :
  convert_record schemas id members p = ok v -> exists fields, v = VRecord id fields.
Proof.
  unfold convert_record. destruct (nth_error schemas id) as [s|]; [|discriminate].
  destruct (convert_fields (s_fields s) members p) as [e|vs]; [discriminate|].
  cbn [bind].
  destruct (if s_forbid_unknown_fields s
            then find (fun kc => negb (known s (fst kc))) members
            else None) as [[k c]|]; [discriminate|].
  intros H. injection H as <-. exists vs. reflexivity.
Qed.

(** Claim C5.  For every union whose table builds, and every text that
    reads as an object with a discriminant member, whatever that member's
    value (a string or not): when no member schema has the value as its
    discriminant value, decoding fails with [UnknownTagError]; when a
    member has it, the resolver returns that member, decoding against the
    union is decoding as that member's record and gives, when it gives a
    value, an instance of that member, and no other member has the
    value. *)
Theorem union_dispatch (schemas : list RecordSchema) (ids : list nat)
  (table : UnionTable) (text : str) (raw : list (str * json)) (d : json) :
  build_union_table schemas ids = ok table ->
  read text = ok (JObj raw) ->
  member (u_field table) raw = Some d ->
  ((forall id s, In id ids -> nth_error schemas id = Some s ->
                 JStr (s_tag_value s) <> d) ->
   decode schemas (Union ids) text = err (UnknownTagError d)) /\
  (forall id s, In id ids -> nth_error schemas id = Some s ->
                JStr (s_tag_value s) = d ->
     resolve table d = ok id /\
     decode schemas (Union ids) text = decode schemas (RecordRef id) text /\
     (forall v, decode schemas (Union ids) text = ok v ->
                exists fields, v = VRecord id fields) /\
     (forall id' s', In id' ids -> nth_error schemas id' = Some s' ->
                     JStr (s_tag_value s') = d -> id' = id)).
Proof.
  intros Hb Hr Hm. pose proof (build_union_table_entries _ _ _ Hb) as He.
  assert (Hd : forall t, decode schemas t text = convert schemas (JObj raw) t []).
  { intros t. unfold decode. rewrite Hr. reflexivity. }
  rewrite !(Hd (Union ids)). split.
  - intros Hno. rewrite convert_union, Hb. unfold ok at 1. cbn [bind]. rewrite Hm.
    unfold resolve. destruct d as [| | | |tag| |]; try reflexivity.
    destruct (lookup tag (u_entries table)) as [id|] eqn:Hl; [|reflexivity].
    destruct (union_entries_sound _ _ _ _ _ _ He Hl) as [Hin [s [Hs Ht]]].
    exfalso. apply (Hno id s Hin Hs). rewrite Ht. reflexivity.
  - intros id s Hin Hs Ht.
    assert (Hl : resolve table d = ok id).
    { rewrite <- Ht. unfold resolve.
      rewrite (union_entries_complete _ _ _ _ _ _ He Hin Hs). reflexivity. }
    assert (Hc : convert schemas (JObj raw) (Union ids) [] =
                 convert schemas (JObj raw) (RecordRef id) []).
    { rewrite convert_union, convert_record_ref, Hb. unfold ok at 1. cbn [bind].
      rewrite Hm, Hl. reflexivity. }
    split; [exact Hl|]. split; [rewrite (Hd (RecordRef id)); exact Hc|]. split.
    + intros v Hv. rewrite Hc, convert_record_ref in Hv.
      exact (convert_record_instance _ _ _ _ _ Hv).
    + intros id' s' Hin' Hs' Ht'.
      assert (Hl' : resolve table d = ok id').
      { rewrite <- Ht'. unfold resolve.
        rewrite (union_entries_complete _ _ _ _ _ _ He Hin' Hs'). reflexivity. }
      rewrite Hl in Hl'. injection Hl' as <-. reflexivity.
Qed.

Lemma union_dispatch_witness :
  GeoJSON.loads (js "{'type':'Circle','coordinates':[0,0]}")
  = err (UnknownTagError (JStr (lit "Circle"))) /\
  GeoJSON.loads (js "{'coordinates':[0,0],'type':5}")
  = err (UnknownTagError (JInt 5)) /\
  GeoJSON.loads (js "{'coordinates':[0,0],'type':'Point'}")
  = decode GeoJSON.schemas (RecordRef GeoJSON.Point_id)
      (js "{'coordinates':[0,0],'type':'Point'}").
Proof.
  split; [|split].
  - refine (proj1 (union_dispatch GeoJSON.schemas _ _ _
                     (members_of "{'type':'Circle','coordinates':[0,0]}")
                     (JStr (lit "Circle")) _ _ _) _).
    + vm_compute. reflexivity.
    + vm_compute. reflexivity.
    + vm_compute. reflexivity.
    + intros id s Hin Hs.
      repeat (destruct Hin as [<-|Hin];
              [vm_compute in Hs; injection Hs as <-; vm_compute; discriminate|]).
      destruct Hin.
  - refine (proj1 (union_dispatch GeoJSON.schemas _ _ _
                     (members_of "{'coordinates':[0,0],'type':5}") (JInt 5) _ _ _) _).
    + vm_compute. reflexivity.
    + vm_compute. reflexivity.
    + vm_compute. reflexivity.
    + intros id s _ _. discriminate.
  - refine (proj1 (proj2 (proj2 (union_dispatch GeoJSON.schemas _ _ _
                                   (members_of "{'coordinates':[0,0],'type':'Point'}")
                                   (JStr (lit "Point")) _ _ _)
                            GeoJSON.Point_id _ _ _ _))).
    + vm_compute. reflexivity.
    + vm_compute. reflexivity.
    + vm_compute. reflexivity.
    + left. reflexivity.
    + vm_compute. reflexivity.
    + vm_compute. reflexivity.
Defined.

(** Claim C4.  The example's [Geometry] is the union of seven schemas, the
    tagged records Point, MultiPoint, LineString, MultiLineString, Polygon,
    MultiPolygon and GeometryCollection, the last with the one field
    [geometries] of type list of [Geometry].  Decoding
    [{"type":"Point","coordinates":[1.0,2.0]}] against it gives a Point
    whose coordinates are (1.0, 2.0), and decoding the collection of one
    Point succeeds; [loads], bound to the nine-member union, does the same. *)
Theorem geometry_scenario :
  GeoJSON.Geometry = Union [0; 1; 2; 3; 4; 5; 6] /\
  map (fun s => (s_name s, s_tagged s)) (firstn 7 GeoJSON.schemas) =
    [(lit "Point", true); (lit "MultiPoint", true); (lit "LineString", true);
     (lit "MultiLineString", true); (lit "Polygon", true);
     (lit "MultiPolygon", true); (lit "GeometryCollection", true)] /\
  option_map (fun s => map f_type (s_fields s))
    (nth_error GeoJSON.schemas GeoJSON.GeometryCollection_id)
    = Some [Sequence GeoJSON.Geometry] /\
  decode GeoJSON.schemas GeoJSON.Geometry
    (js "{'type':'Point','coordinates':[1.0,2.0]}")
    = ok (VRecord GeoJSON.Point_id [VTuple [VFloat 1; VFloat 2]]) /\
  decode GeoJSON.schemas GeoJSON.Geometry
    (js "{'type':'GeometryCollection','geometries':[{'type':'Point','coordinates':[0,0]}]}")
    = ok (VRecord GeoJSON.GeometryCollection_id
            [VSeq [VRecord GeoJSON.Point_id [VTuple [VFloat 0; VFloat 0]]]]) /\
  GeoJSON.loads (js "{'type':'Point','coordinates':[1.0,2.0]}")
    = ok (VRecord GeoJSON.Point_id [VTuple [VFloat 1; VFloat 2]]) /\
  GeoJSON.loads
    (js "{'type':'GeometryCollection','geometries':[{'type':'Point','coordinates':[0,0]}]}")
    = ok (VRecord GeoJSON.GeometryCollection_id
            [VSeq [VRecord GeoJSON.Point_id [VTuple [VFloat 0; VFloat 0]]]]).
Proof.
  split; [reflexivity|].
  split; [vm_compute; reflexivity|].
  split; [vm_compute; reflexivity|].
  repeat split; vm_compute; reflexivity.
Qed.

(** *** Numeric bounds *)

Lemma validate_bounds (lo hi z : Z) (p : path) :
  validate (VInt z) (bounds lo hi) p =
  if (lo <=? z)%Z then
    if (z <=? hi)%Z then ok tt else err (ValidationError p (AtMost hi))
  else err (ValidationError p (AtLeast lo)).
Proof.
  unfold validate, bounds, when, check. cbn.
  destruct (lo <=? z)%Z; [|reflexivity]. cbn.
  destruct (z <=? hi)%Z; reflexivity.
Qed.

(** Claim C6.  Numeric bounds are inclusive on both ends: an integer passes
    the bounds [lo, hi] iff lo <= z <= hi.  The benchmark's [User.score] is
    bounded by [0, 1_000_000]; converting the benchmark's payload with the
    score 0 or 1_000_000 succeeds, and with -1 or 1_000_001 fails with a
    [ValidationError] at the path [score] (at [1.score] in a list). *)
Theorem numeric_bounds_inclusive :
  (forall (lo hi z : Z) (p : path),
      validate (VInt z) (bounds lo hi) p = ok tt <-> (lo <= z <= hi)%Z) /\
  f_constraints BenchSchema.score = bounds 0 1000000 /\
  (exists v, convert BenchSchema.schemas (BenchSchema.raw_one 0)
               (RecordRef BenchSchema.User_id) [] = ok v) /\
  (exists v, convert BenchSchema.schemas (BenchSchema.raw_one 1000000)
               (RecordRef BenchSchema.User_id) [] = ok v) /\
  convert BenchSchema.schemas (BenchSchema.raw_one (-1))
    (RecordRef BenchSchema.User_id) []
    = err (ValidationError [Key (lit "score")] (AtLeast 0)) /\
  convert BenchSchema.schemas (BenchSchema.raw_one 1000001)
    (RecordRef BenchSchema.User_id) []
    = err (ValidationError [Key (lit "score")] (AtMost 1000000)) /\
  BenchSchema.convert_users [BenchSchema.raw_one 123; BenchSchema.raw_one (-1)]
    = err (ValidationError [Index 1; Key (lit "score")] (AtLeast 0)).
Proof.
  split.
  { intros lo hi z p. rewrite validate_bounds.
    destruct (Z.leb_spec lo z) as [Hlo|Hlo]; destruct (Z.leb_spec z hi) as [Hhi|Hhi];
      split; intros Hv; try discriminate; try reflexivity; lia. }
  split; [reflexivity|].
  split; [eexists; vm_compute; reflexivity|].
  split; [eexists; vm_compute; reflexivity|].
  repeat split; vm_compute; reflexivity.
Qed.

End CoreClaims.

(** ** Decimal digits *)

Module DigitFacts.
Import Text Core CoreSpec.
Local Open Scope list_scope.
Local Open Scope N_scope.

Lemma value_of_snoc (ds : str) (c : char) (acc : N) :
  value_of (ds ++ [c]) acc = value_of ds acc * 10 + (c - 48).
Proof. unfold value_of. rewrite fold_left_app. reflexivity. Qed.

Lemma digits_app (ds rest : str) :
  Forall (fun c => is_digit c = true) ds -> no_digit rest = true ->
  forall acc count,
    digits (ds ++ rest) acc count = (value_of ds acc, (count + List.length ds)%nat, rest).
Proof.
  intros Hds Hrest. induction Hds as [|c ds Hc _ IH]; intros acc count.
  - cbn [app value_of fold_left List.length]. rewrite Nat.add_0_r.
    destruct rest as [|c rest]; [reflexivity|].
    cbn [digits]. cbn [no_digit] in Hrest.
    destruct (is_digit c); [discriminate|reflexivity].
  - cbn [app digits]. rewrite Hc, IH. cbn [List.length].
    rewrite Nat.add_succ_r. reflexivity.
Qed.

Lemma is_digit_char (d : N) : d < 10 -> is_digit (48 + d) = true.
Proof.
  intros H. unfold is_digit.
  apply andb_true_intro. split; apply N.leb_le; lia.
Qed.

Lemma digit_back (d : N) : 48 + d - 48 = d.
Proof. lia. Qed.

Lemma digit_zero : (48 - 48 = 0)%N.
Proof. reflexivity. Qed.

Lemma mod_10_lt (n : N) : n mod 10 < 10.
Proof. apply N.mod_lt. discriminate. Qed.

Lemma div_mod_10 (n : N) : n / 10 * 10 + n mod 10 = n.
Proof. pose proof (N.div_mod n 10 ltac:(discriminate)). lia. Qed.

Lemma decimal_digits (fuel : nat) (n : N) :
  Forall (fun c => is_digit c = true) (decimal fuel n).
Proof.
  revert n. induction fuel as [|fuel IH]; intros n; cbn [decimal].
  - constructor.
  - apply Forall_app. split.
    + destruct (n <? 10); [constructor | apply IH].
    + constructor; [|constructor]. apply is_digit_char, mod_10_lt.
Qed.

Lemma decimal_value (fuel : nat) (n : N) :
  n < 10 ^ N.of_nat fuel -> value_of (decimal fuel n) 0 = n.
Proof.
  revert n. induction fuel as [|fuel IH]; intros n Hn.
  - cbn in Hn. assert (n = 0) by lia. subst n. reflexivity.
  - cbn [decimal]. rewrite value_of_snoc.
    rewrite digit_back.
    destruct (N.ltb_spec n 10) as [Hlt|Hge].
    + cbn [value_of fold_left]. rewrite N.mod_small by exact Hlt. lia.
    + rewrite IH; [apply div_mod_10|].
      rewrite Nat2N.inj_succ, N.pow_succ_r' in Hn.
      apply N.Div0.div_lt_upper_bound; exact Hn.
Qed.

(** A positive number's digits do not start with a zero. *)
Lemma decimal_head (fuel : nat) (n : N) :
  0 < n -> n < 10 ^ N.of_nat fuel ->
  exists c tl, decimal fuel n = c :: tl /\ c <> 48 /\ is_digit c = true.
Proof.
  revert n. induction fuel as [|fuel IH]; intros n Hpos Hn.
  - cbn in Hn. lia.
  - cbn [decimal]. destruct (N.ltb_spec n 10) as [Hlt|Hge].
    + exists (48 + n mod 10), []. rewrite N.mod_small by exact Hlt.
      split; [reflexivity|]. split; [lia | apply is_digit_char; exact Hlt].
    + destruct (IH (n / 10)) as (c & tl & Hd & Hc & Hi).
      * apply N.div_str_pos. lia.
      * rewrite Nat2N.inj_succ, N.pow_succ_r' in Hn.
        apply N.Div0.div_lt_upper_bound; exact Hn.
      * rewrite Hd. exists c, (tl ++ [48 + n mod 10]).
        split; [reflexivity|]. split; assumption.
Qed.

Lemma write_nat_bound (n : N) : n < 10 ^ N.of_nat (S (N.to_nat (N.log2 n))).
Proof.
  rewrite Nat2N.inj_succ, N2Nat.id.
  destruct n as [|p]; [reflexivity|].
  apply N.lt_le_trans with (2 ^ N.succ (N.log2 (N.pos p))).
  - apply N.log2_spec. reflexivity.
  - apply N.pow_le_mono_l. discriminate.
Qed.

Lemma write_nat_digits (n : N) : Forall (fun c => is_digit c = true) (write_nat n).
Proof. apply decimal_digits. Qed.

Lemma write_nat_value (n : N) : value_of (write_nat n) 0 = n.
Proof. apply decimal_value, write_nat_bound. Qed.

Lemma write_nat_zero : write_nat 0 = [48].
Proof. reflexivity. Qed.

Lemma write_nat_head (n : N) :
  0 < n -> exists c tl, write_nat n = c :: tl /\ c <> 48 /\ is_digit c = true.
Proof. intros H. apply decimal_head; [exact H | apply write_nat_bound]. Qed.

Lemma fixed_digits (width : nat) (n : N) :
  Forall (fun c => is_digit c = true) (fixed width n).
Proof.
  revert n. induction width as [|w IH]; intros n; cbn [fixed].
  - constructor.
  - apply Forall_app. split; [apply IH|].
    constructor; [|constructor]. apply is_digit_char, mod_10_lt.
Qed.

Lemma fixed_length (width : nat) (n : N) : List.length (fixed width n) = width.
Proof.
  revert n. induction width as [|w IH]; intros n; cbn [fixed]; [reflexivity|].
  rewrite length_app, IH. cbn. lia.
Qed.

Lemma fixed_value (width : nat) (n acc : N) :
  value_of (fixed width n) acc = acc * 10 ^ N.of_nat width + n mod 10 ^ N.of_nat width.
Proof.
  revert n. induction width as [|w IH]; intros n.
  - cbn [fixed value_of fold_left]. cbn [N.of_nat]. rewrite N.pow_0_r, N.mod_1_r. lia.
  - cbn [fixed]. rewrite value_of_snoc, IH.
    rewrite digit_back.
    rewrite Nat2N.inj_succ, N.pow_succ_r'.
    rewrite (N.Div0.mod_mul_r n 10 (10 ^ N.of_nat w)). ring.
Qed.

End DigitFacts.

(** ** Reading numbers *)

Module NumberFacts.
Import Text Core CoreSpec DigitFacts.
Local Open Scope list_scope.

Lemma digit_not_minus (c : char) : is_digit c = true -> (c =? ch "-")%N = false.
Proof.
  unfold is_digit. intros H. apply andb_prop in H. destruct H as [H _].
  apply N.leb_le in H. apply N.eqb_neq. change (ch "-") with 45%N. lia.
Qed.

Lemma read_number_sign (neg : bool) (c : char) (tl : str) :
  is_digit c = true ->
  read_number (sign neg ++ c :: tl) =
  let '(int, _, s2) :=
    if (c =? ch "0")%N then (0%N, 1%nat, tl) else digits (c :: tl) 0 0 in
  read_fraction neg int s2.
Proof.
  intros Hc. unfold read_number. destruct neg; cbn [sign app].
  - change (ch "-" =? ch "-")%N with true. cbv iota beta. rewrite Hc. reflexivity.
  - rewrite (digit_not_minus c Hc). cbv iota beta. rewrite Hc. reflexivity.
Qed.

(** The integer part of a number is read back. *)
Lemma read_int_part (neg : bool) (n : N) (tail : str) :
  no_digit tail = true ->
  read_number (sign neg ++ write_nat n ++ tail) = read_fraction neg n tail.
Proof.
  intros Ht. destruct n as [|p].
  - rewrite write_nat_zero. cbn [app]. rewrite read_number_sign by reflexivity.
    reflexivity.
  - destruct (write_nat_head (N.pos p) ltac:(reflexivity)) as (c & tl & Hw & Hc & Hd).
    pose proof (digits_app (write_nat (N.pos p)) tail (write_nat_digits _) Ht 0%N 0%nat)
      as Hr.
    rewrite write_nat_value in Hr. rewrite Hw in *. cbn [app] in *.
    rewrite read_number_sign by exact Hd.
    apply N.eqb_neq in Hc. change (ch "0") with 48%N. rewrite Hc, Hr. reflexivity.
Qed.

Lemma read_fraction_int (neg : bool) (n : N) (rest : str) :
  ends_number rest = true ->
  read_fraction neg n rest = inr (JInt (if neg then - Z.of_N n else Z.of_N n), rest).
Proof.
  intros H. destruct rest as [|c rest]; [reflexivity|].
  cbn [ends_number] in H. apply negb_true_iff in H.
  apply orb_false_elim in H. destruct H as [H HE].
  apply orb_false_elim in H. destruct H as [H He].
  apply orb_false_elim in H. destruct H as [_ Hp].
  unfold read_fraction. rewrite Hp, He, HE. reflexivity.
Qed.

Lemma ends_number_no_digit (rest : str) : ends_number rest = true -> no_digit rest = true.
Proof.
  destruct rest as [|c rest]; [reflexivity|]. cbn [ends_number no_digit].
  destruct (is_digit c); [discriminate | reflexivity].
Qed.

Lemma ends_fraction_no_digit (rest : str) :
  ends_fraction rest = true -> no_digit rest = true.
Proof.
  destruct rest as [|c rest]; [reflexivity|]. cbn [ends_fraction no_digit].
  destruct (is_digit c); [discriminate | reflexivity].
Qed.

Lemma ends_number_fraction (rest : str) :
  ends_number rest = true -> ends_fraction rest = true.
Proof.
  destruct rest as [|c rest]; [reflexivity|]. cbn [ends_number ends_fraction].
  destruct (is_digit c); [discriminate|].
  destruct (c =? ch ".")%N; [discriminate|]. intros H; exact H.
Qed.

(** An integer is read back from its text. *)
Lemma read_write_int (z : Z) (rest : str) :
  ends_number rest = true ->
  read_number (write_int z ++ rest) = inr (JInt z, rest).
Proof.
  intros H. unfold write_int. rewrite <- app_assoc.
  rewrite read_int_part by (apply ends_number_no_digit; exact H).
  rewrite read_fraction_int by exact H.
  rewrite N2Z.inj_abs_N.
  assert (Hz : (if (z <? 0)%Z then (- Z.abs z)%Z else Z.abs z) = z)
    by (destruct (Z.ltb_spec z 0); lia).
  rewrite Hz. reflexivity.
Qed.

(** A fraction of at least one digit after the integer part [n] is read as
    the float nearest to the decimal number. *)
Lemma read_fraction_digits (neg : bool) (n : N) (ds rest : str) :
  Forall (fun c => is_digit c = true) ds -> ds <> [] ->
  ends_fraction rest = true ->
  read_fraction neg n (ch "." :: ds ++ rest) =
  inr (JFloat (float_of_decimal neg (value_of ds n) (- Z.of_nat (List.length ds))),
       rest).
Proof.
  intros Hds Hne Hrest. unfold read_fraction.
  change (ch "." =? ch ".")%N with true. cbv iota beta.
  rewrite (digits_app ds rest Hds (ends_fraction_no_digit _ Hrest)).
  cbn [Nat.add]. destruct ds as [|c ds]; [congruence|]. cbn [List.length].
  destruct rest as [|r rest]; [reflexivity|].
  cbn [ends_fraction] in Hrest. apply negb_true_iff in Hrest.
  apply orb_false_elim in Hrest. destruct Hrest as [Hrest HE].
  apply orb_false_elim in Hrest. destruct Hrest as [_ He].
  rewrite He, HE. reflexivity.
Qed.

End NumberFacts.

(** ** Exact rounding *)

Module RoundFacts.
Import CoreSpec.
Local Open Scope Z_scope.

(** The number of binary digits of a positive number bounds it. *)
Lemma digits2_pos_bounds (p : positive) :
  2 ^ (Z.pos (digits2_pos p) - 1) <= Z.pos p < 2 ^ Z.pos (digits2_pos p).
Proof.
  induction p as [p IH|p IH|]; cbn [digits2_pos].
  - rewrite Pos2Z.inj_succ. replace (Z.succ (Z.pos (digits2_pos p)) - 1)
      with (Z.succ (Z.pos (digits2_pos p) - 1)) by lia.
    rewrite !Z.pow_succ_r by lia. lia.
  - rewrite Pos2Z.inj_succ. replace (Z.succ (Z.pos (digits2_pos p)) - 1)
      with (Z.succ (Z.pos (digits2_pos p) - 1)) by lia.
    rewrite !Z.pow_succ_r by lia. lia.
  - cbn. lia.
Qed.

(** And is the only number that does. *)
Lemma digits2_pos_unique (p : positive) (d : Z) :
  2 ^ (d - 1) <= Z.pos p < 2 ^ d -> Z.pos (digits2_pos p) = d.
Proof.
  intros [Hlo Hhi]. pose proof (digits2_pos_bounds p) as [Blo Bhi].
  set (n := Z.pos (digits2_pos p)) in *.
  assert (Hn : 0 < n) by (subst n; lia).
  destruct (Z.lt_trichotomy n d) as [Hlt|[Heq|Hgt]]; [|exact Heq|].
  - exfalso. assert (2 ^ n <= 2 ^ (d - 1)) by (apply Z.pow_le_mono_r; lia). lia.
  - exfalso. assert (Hd : 0 <= d).
    { destruct (Z.le_gt_cases 0 d) as [H0|H0]; [exact H0|].
      rewrite (Z.pow_neg_r 2 d) in Hhi by lia. lia. }
    assert (2 ^ d <= 2 ^ (n - 1)) by (apply Z.pow_le_mono_r; lia). lia.
Qed.

Lemma digits2_shift (m : positive) (n : Z) :
  0 <= n ->
  Zdigits2 (Z.pos m * 2 ^ n) = Z.pos (digits2_pos m) + n.
Proof.
  intros Hn. pose proof (digits2_pos_bounds m) as [Blo Bhi].
  assert (Hpos : 0 < Z.pos m * 2 ^ n) by (apply Z.mul_pos_pos; [lia | apply Z.pow_pos_nonneg; lia]).
  destruct (Z.pos m * 2 ^ n) as [|q|q] eqn:Hq; try lia.
  cbn [Zdigits2]. apply digits2_pos_unique. rewrite <- Hq.
  replace (Z.pos (digits2_pos m) + n - 1) with ((Z.pos (digits2_pos m) - 1) + n) by lia.
  rewrite !Z.pow_add_r by lia.
  assert (0 < 2 ^ n) by (apply Z.pow_pos_nonneg; lia).
  split; [apply Z.mul_le_mono_nonneg_r; lia | apply Z.mul_lt_mono_pos_r; lia].
Qed.

(** *** Shifting an exact multiple to the right *)

Lemma iter_pos_nat {A} (f : A -> A) (p : positive) (x : A) :
  iter_pos f p x = Nat.iter (Pos.to_nat p) f x.
Proof.
  revert x. induction p as [p IH|p IH|]; intros x; cbn [iter_pos].
  - rewrite !IH, Pos2Nat.inj_xI. cbn [Nat.iter].
    rewrite <- Nat.iter_succ_r, <- Nat.iter_add. f_equal. lia.
  - rewrite !IH, Pos2Nat.inj_xO, <- Nat.iter_add. f_equal. lia.
  - reflexivity.
Qed.

Lemma shr_1_exact (q : positive) :
  shr_1 (exact (2 * Z.pos q)) = exact (Z.pos q).
Proof. reflexivity. Qed.

Lemma iter_shr_exact (k : nat) (m : positive) :
  Nat.iter k shr_1 (exact (Z.pos m * 2 ^ Z.of_nat k)) = exact (Z.pos m).
Proof.
  revert m. induction k as [|k IH]; intros m.
  - cbn [Nat.iter Z.of_nat]. rewrite Z.pow_0_r, Z.mul_1_r. reflexivity.
  - rewrite Nat.iter_succ_r, Nat2Z.inj_succ, Z.pow_succ_r by lia.
    replace (Z.pos m * (2 * 2 ^ Z.of_nat k)) with (2 * (Z.pos m * 2 ^ Z.of_nat k)) by lia.
    assert (Hpos : 0 < Z.pos m * 2 ^ Z.of_nat k)
      by (apply Z.mul_pos_pos; [lia | apply Z.pow_pos_nonneg; lia]).
    destruct (Z.pos m * 2 ^ Z.of_nat k) as [|q|q] eqn:Hq; try lia.
    rewrite shr_1_exact, <- Hq. apply IH.
Qed.

Lemma shr_exact (m : positive) (e n : Z) :
  0 <= n ->
  shr (exact (Z.pos m * 2 ^ n)) e n = (exact (Z.pos m), e + n).
Proof.
  intros Hn. unfold shr. destruct n as [|p|p]; try lia.
  - rewrite Z.pow_0_r, Z.mul_1_r, Z.add_0_r. reflexivity.
  - rewrite iter_pos_nat. f_equal.
    rewrite <- (positive_nat_Z p) at 1. apply iter_shr_exact.
Qed.

(** *** Rounding a value that needs none *)

Lemma canonical_fexp (m : positive) (e : Z) :
  bounded prec emax m e = true ->
  fexp prec emax (Z.pos (digits2_pos m) + e) = e /\ e <= emax - prec.
Proof.
  unfold bounded, canonical_mantissa. intros H.
  apply andb_true_iff in H as [Hc Hb].
  apply Z.eqb_eq in Hc. apply Z.leb_le in Hb. split; assumption.
Qed.

Lemma round_aux_exact (s : bool) (m : positive) (e n : Z) :
  bounded prec emax m e = true -> 0 <= n ->
  binary_round_aux prec emax s (Z.pos m * 2 ^ n) (e - n) loc_Exact
  = S754_finite s m e.
Proof.
  intros Hb Hn. destruct (canonical_fexp m e Hb) as [Hc He].
  unfold binary_round_aux, shr_fexp.
  rewrite digits2_shift by exact Hn.
  replace (Z.pos (digits2_pos m) + n + (e - n)) with (Z.pos (digits2_pos m) + e) by lia.
  rewrite Hc. replace (e - (e - n)) with n by lia.
  change (shr_record_of_loc (Z.pos m * 2 ^ n) loc_Exact) with (exact (Z.pos m * 2 ^ n)).
  rewrite shr_exact by exact Hn.
  cbn [exact shr_m loc_of_shr_record round_nearest_even shr_record_of_loc Zdigits2].
  replace (e - n + n) with e by lia. rewrite Hc, Z.sub_diag.
  cbn [shr shr_m]. apply Z.leb_le in He. rewrite He. reflexivity.
Qed.

(** *** Dividing exactly *)

Lemma fexp_le (x y : Z) : x <= y -> fexp prec emax x <= fexp prec emax y.
Proof. unfold fexp. lia. Qed.

(** The digits of a quotient, from the digits of its terms. *)
Lemma digits_of_quotient (D T m : positive) (a b : Z) :
  0 <= a -> 0 <= b ->
  Z.pos D * 2 ^ a = Z.pos m * 2 ^ b * Z.pos T ->
  Z.pos (digits2_pos D) - Z.pos (digits2_pos T)
  <= Z.pos (digits2_pos m) + b - a.
Proof.
  intros Ha Hb H.
  pose proof (digits2_pos_bounds D) as [Dlo Dhi].
  pose proof (digits2_pos_bounds T) as [Tlo Thi].
  pose proof (digits2_pos_bounds m) as [mlo mhi].
  set (d1 := Z.pos (digits2_pos D)) in *.
  set (d2 := Z.pos (digits2_pos T)) in *.
  set (dm := Z.pos (digits2_pos m)) in *.
  assert (Hd1 : 0 < d1) by (subst d1; lia).
  assert (Hd2 : 0 < d2) by (subst d2; lia).
  assert (Hdm : 0 < dm) by (subst dm; lia).
  (* 2^(d1-1+a) <= D 2^a = m 2^b T < 2^(dm+b+d2) *)
  assert (H1 : 2 ^ (d1 - 1 + a) <= Z.pos D * 2 ^ a).
  { rewrite Z.pow_add_r by lia. apply Z.mul_le_mono_nonneg_r; [|lia].
    apply Z.pow_nonneg. lia. }
  assert (H2 : Z.pos m * 2 ^ b * Z.pos T < 2 ^ (dm + b + d2)).
  { rewrite !Z.pow_add_r by lia.
    assert (0 < 2 ^ b) by (apply Z.pow_pos_nonneg; lia).
    apply Z.mul_lt_mono_nonneg; try lia.
    apply Z.mul_lt_mono_pos_r; lia. }
  assert (H3 : 2 ^ (d1 - 1 + a) < 2 ^ (dm + b + d2)) by lia.
  apply Z.pow_lt_mono_r_iff in H3; lia.
Qed.

(** A quotient that is a binary64 number is that number. *)
Lemma div_exact (s : bool) (m D T : positive) (e : Z) :
  bounded prec emax m e = true ->
  Z.pos D * 2 ^ Z.max 0 (- e) = Z.pos m * 2 ^ Z.max 0 e * Z.pos T ->
  SFdiv prec emax (S754_finite s D 0) (S754_finite false T 0) = S754_finite s m e.
Proof.
  intros Hb H. destruct (canonical_fexp m e Hb) as [Hc He].
  pose proof (digits_of_quotient D T m (Z.max 0 (- e)) (Z.max 0 e)
                ltac:(lia) ltac:(lia) H) as Hd.
  replace (Z.pos (digits2_pos m) + Z.max 0 e - Z.max 0 (- e))
    with (Z.pos (digits2_pos m) + e) in Hd by lia.
  apply fexp_le in Hd. rewrite Hc in Hd.
  unfold SFdiv, SFdiv_core_binary. cbn [Zdigits2].
  rewrite !Z.add_0_r, Z.sub_0_r.
  set (e' := Z.min (fexp prec emax (Z.pos (digits2_pos D) - Z.pos (digits2_pos T))) 0) in *.
  assert (He' : e' <= e /\ e' <= 0) by (subst e'; lia).
  set (n := e - e').
  assert (Hm' : match 0 - e' with
                | Z.pos _ => Z.shiftl (Z.pos D) (0 - e')
                | 0 => Z.pos D
                | Z.neg _ => 0
                end = Z.pos m * 2 ^ n * Z.pos T).
  { assert (Hs : Z.pos D * 2 ^ (0 - e') = Z.pos m * 2 ^ n * Z.pos T).
    { subst n. destruct (Z.le_gt_cases e 0) as [Hle|Hgt].
      - rewrite Z.max_r, Z.max_l, Z.pow_0_r, Z.mul_1_r in H by lia.
        replace (0 - e') with (- e + (e - e')) by lia.
        rewrite Z.pow_add_r by lia. rewrite Z.mul_assoc, H. lia.
      - rewrite Z.max_l, Z.max_r, Z.pow_0_r, Z.mul_1_r in H by lia.
        rewrite H. replace (e - e') with (e + (0 - e')) by lia.
        rewrite Z.pow_add_r by lia. lia. }
    destruct (0 - e') as [|p|p] eqn:Hp; try lia.
    rewrite Z.shiftl_mul_pow2 by lia. exact Hs. }
  rewrite Hm'.
  assert (Hq : Z.div_eucl (Z.pos m * 2 ^ n * Z.pos T) (Z.pos T)
               = (Z.pos m * 2 ^ n, 0)).
  { pose proof (Z.div_mul (Z.pos m * 2 ^ n) (Z.pos T) ltac:(lia)) as Hdiv.
    pose proof (Z.mod_mul (Z.pos m * 2 ^ n) (Z.pos T) ltac:(lia)) as Hmod.
    unfold Z.div, Z.modulo in Hdiv, Hmod.
    destruct (Z.div_eucl (Z.pos m * 2 ^ n * Z.pos T) (Z.pos T)) as [q r].
    change (let (q0, _) := (q, r) in q0) with q in Hdiv.
    change (let (_, r0) := (q, r) in r0) with r in Hmod.
    cbn [fst snd] in Hdiv, Hmod. subst q r. reflexivity. }
  rewrite Hq.
  assert (Hl : new_location (Z.pos T) 0 = loc_Exact).
  { unfold new_location, new_location_even, new_location_odd.
    destruct (Z.even (Z.pos T)); reflexivity. }
  rewrite Hl, xorb_false_r.
  replace e' with (e - n) by (subst n; lia).
  apply round_aux_exact; [exact Hb | subst n; lia].
Qed.

End RoundFacts.

(** ** The text of a float *)

Module FloatTextFacts.
Import Text Core CoreSpec DigitFacts NumberFacts RoundFacts.
Local Open Scope list_scope.
Local Open Scope Z_scope.

Lemma reduce_spec (m : positive) : forall (e : Z) m' e',
  reduce m e = (m', e') ->
  exists j, 0 <= j /\ Z.pos m = Z.pos m' * 2 ^ j /\ e' = e + j /\ (j = 0 \/ e' <= 0).
Proof.
  induction m as [m IH|m IH|]; intros e m' e' H; cbn [reduce] in H.
  - injection H as <- <-. exists 0. rewrite Z.pow_0_r. lia.
  - destruct (Z.ltb_spec e 0) as [Hneg|Hpos].
    + destruct (IH _ _ _ H) as (j & Hj & Hm & He & Hz).
      exists (j + 1). rewrite Z.pow_add_r, Z.pow_1_r by lia.
      rewrite Pos2Z.inj_xO, Hm. lia.
    + injection H as <- <-. exists 0. rewrite Z.pow_0_r. lia.
  - injection H as <- <-. exists 0. rewrite Z.pow_0_r. lia.
Qed.

(** The decimal [mant / 10 ^ k] that is exactly a binary64 number reads as
    that number. *)
Lemma float_of_decimal_exact (f : float) (s : bool) (m : positive) (e : Z)
  (mant : N) (k : nat) :
  Prim2SF f = S754_finite s m e -> (0 < k)%nat ->
  Z.of_N mant * 2 ^ Z.max 0 (- e) = Z.pos m * 2 ^ Z.max 0 e * 10 ^ Z.of_nat k ->
  float_of_decimal s mant (- Z.of_nat k) = f.
Proof.
  intros Hf Hk Heq.
  pose proof (Prim2SF_valid f) as Hv. rewrite Hf in Hv. cbn [valid_binary] in Hv.
  assert (Hten : 0 < 10 ^ Z.of_nat k) by (apply Z.pow_pos_nonneg; lia).
  destruct mant as [|D].
  { exfalso. cbn [Z.of_N] in Heq. rewrite Z.mul_0_l in Heq.
    assert (0 < Z.pos m * 2 ^ Z.max 0 e * 10 ^ Z.of_nat k); [|lia].
    apply Z.mul_pos_pos; [|exact Hten].
    apply Z.mul_pos_pos; [lia|]. apply Z.pow_pos_nonneg; lia. }
  unfold float_of_decimal.
  destruct (Z.leb_spec 0 (- Z.of_nat k)) as [Hle|_]; [lia|].
  rewrite Z.opp_involutive.
  rewrite (div_exact s m D (Z.to_pos (10 ^ Z.of_nat k)) e Hv).
  - rewrite <- Hf. apply SF2Prim_Prim2SF.
  - rewrite Z2Pos.id by exact Hten. exact Heq.
Qed.

Lemma read_fraction_zero (neg : bool) (n : N) (rest : str) :
  ends_fraction rest = true ->
  read_fraction neg n (ch "." :: 48%N :: rest) =
  inr (JFloat (float_of_decimal neg (value_of [48%N] n) (- Z.of_nat 1)), rest).
Proof.
  intros H. refine (read_fraction_digits neg n [48%N] rest _ _ H).
  - repeat constructor.
  - discriminate.
Qed.

Lemma no_digit_point (tail : str) : no_digit (ch "." :: tail) = true.
Proof. reflexivity. Qed.

(** A finite float is read back from its text. *)
Lemma read_write_float (f : float) (rest : str) :
  finite f = true -> ends_fraction rest = true ->
  read_number (write_float f ++ rest) = inr (JFloat f, rest).
Proof.
  unfold finite, write_float. intros Hfin Hrest.
  destruct (Prim2SF f) as [s|s| |s m e] eqn:Hf; try discriminate.
  - change (lit "0.0") with (write_nat 0 ++ ch "." :: [48%N]).
    rewrite <- !app_assoc. cbn [app].
    rewrite read_int_part by reflexivity.
    rewrite read_fraction_zero by exact Hrest.
    rewrite <- (SF2Prim_Prim2SF f), Hf. destruct s; reflexivity.
  - destruct (reduce m e) as [m' e'] eqn:Hr.
    destruct (reduce_spec _ _ _ _ Hr) as (j & Hj & Hm & He & Hz).
    destruct (Z.leb_spec 0 e') as [Hpos|Hneg].
    + set (n := (N.pos m' * 2 ^ Z.to_N e')%N).
      change (lit ".0") with (ch "." :: [48%N]).
      rewrite <- !app_assoc. cbn [app].
      rewrite read_int_part by reflexivity.
      rewrite read_fraction_zero by exact Hrest.
      do 3 f_equal. apply (float_of_decimal_exact f s m e); [exact Hf | cbn; lia |].
      assert (Hn : Z.of_N n = Z.pos m' * 2 ^ e').
      { subst n. rewrite N2Z.inj_mul, N2Z.inj_pow, Z2N.id by exact Hpos. reflexivity. }
      assert (Hval : Z.of_N (value_of [48%N] n) = Z.of_N n * 10).
      { unfold value_of. cbn [fold_left]. rewrite digit_zero. lia. }
      rewrite Hval, Hn, Hm. change (10 ^ Z.of_nat 1) with 10.
      destruct (Z.le_gt_cases 0 e) as [Hge|Hlt].
      * assert (j = 0) by lia. subst j.
        rewrite Z.max_l, Z.max_r by lia. rewrite Z.add_0_r in He. subst e'.
        rewrite !Z.pow_0_r. ring.
      * rewrite Z.max_r, Z.max_l by lia.
        replace j with (e' + - e) by lia.
        rewrite Z.pow_add_r by lia. rewrite Z.pow_0_r. ring.
    + set (k := Z.to_nat (- e')).
      set (d := (N.pos m' * 5 ^ N.of_nat k)%N).
      assert (Hk : (0 < k)%nat) by (subst k; lia).
      rewrite <- !app_assoc. cbn [app].
      rewrite read_int_part by reflexivity.
      rewrite (read_fraction_digits s _ (fixed k d) rest);
        [|apply fixed_digits| |exact Hrest].
      2:{ intros Hnil. pose proof (fixed_length k d) as Hl. rewrite Hnil in Hl.
          cbn in Hl. lia. }
      rewrite fixed_length, fixed_value.
      do 3 f_equal. apply (float_of_decimal_exact f s m e); [exact Hf | exact Hk |].
      assert (Hd : Z.of_N d = Z.pos m' * 5 ^ Z.of_nat k).
      { subst d. rewrite N2Z.inj_mul, N2Z.inj_pow, nat_N_Z. reflexivity. }
      assert (Hsplit : (d / 10 ^ N.of_nat k * 10 ^ N.of_nat k
                        + d mod 10 ^ N.of_nat k)%N = d).
      { pose proof (N.div_mod' d (10 ^ N.of_nat k)%N). lia. }
      rewrite Hsplit, Hd, Hm.
      rewrite Z.max_r, Z.max_l by lia.
      replace (- e) with (Z.of_nat k + j) by (subst k; lia).
      rewrite Z.pow_add_r by lia.
      change 10 with (2 * 5). rewrite Z.pow_mul_l, Z.pow_0_r. ring.
Qed.

End FloatTextFacts.

(** ** The text of a string *)

Module StringFacts.
Import Text Core CoreSpec DigitFacts.
Local Open Scope list_scope.
Local Open Scope N_scope.

Lemma hex_digit_char (d : N) : d < 16 -> hex_digit (hex_char d) = Some d.
Proof.
  intros H.
  assert (Hd : d = 0 \/ d = 1 \/ d = 2 \/ d = 3 \/ d = 4 \/ d = 5 \/ d = 6 \/ d = 7
               \/ d = 8 \/ d = 9 \/ d = 10 \/ d = 11 \/ d = 12 \/ d = 13
               \/ d = 14 \/ d = 15) by lia.
  repeat (destruct Hd as [->|Hd]; [reflexivity|]). subst d. reflexivity.
Qed.

Lemma read_chars_unicode (c : char) (tail acc : str) :
  c < 32 ->
  read_chars (backslash :: ch "u" :: ch "0" :: ch "0" :: hex_char (c / 16)
              :: hex_char (c mod 16) :: tail) acc
  = read_chars tail (c :: acc).
Proof.
  intros Hc.
  assert (Hq : c / 16 < 16).
  { apply N.Div0.div_lt_upper_bound. lia. }
  assert (Hr : c mod 16 < 16) by (apply N.mod_lt; discriminate).
  pose proof (N.div_mod' c 16) as Hdm.
  cbn [read_chars].
  change (backslash =? quote) with false.
  change (backslash =? backslash) with true.
  change (escape (ch "u")) with (@None char).
  change (ch "u" =? ch "u") with true.
  change (hex_digit (ch "0")) with (Some 0).
  cbv iota beta.
  rewrite (hex_digit_char _ Hq), (hex_digit_char _ Hr).
  assert (E : ((0 * 16 + 0) * 16 + c / 16) * 16 + c mod 16 = c).
  { rewrite Hdm at 3. ring. }
  rewrite E. reflexivity.
Qed.

(** A character is read back from what the writer puts for it. *)
Lemma read_chars_char (c : char) (tail acc : str) :
  read_chars (write_char c ++ tail) acc = read_chars tail (c :: acc).
Proof.
  unfold write_char.
  destruct (N.eqb_spec c quote) as [->|Hquote]; [reflexivity|].
  destruct (N.eqb_spec c backslash) as [->|Hback]; [reflexivity|].
  destruct (N.eqb_spec c 8) as [->|H8]; [reflexivity|].
  destruct (N.eqb_spec c 12) as [->|H12]; [reflexivity|].
  destruct (N.eqb_spec c 10) as [->|H10]; [reflexivity|].
  destruct (N.eqb_spec c 13) as [->|H13]; [reflexivity|].
  destruct (N.eqb_spec c 9) as [->|H9]; [reflexivity|].
  destruct (N.ltb_spec c 32) as [Hlow|Hhigh].
  - cbn [app]. apply read_chars_unicode. exact Hlow.
  - cbn [app read_chars].
    apply N.eqb_neq in Hquote, Hback. rewrite Hquote, Hback.
    apply N.ltb_ge in Hhigh. rewrite Hhigh. reflexivity.
Qed.

Lemma read_chars_text (s tail : str) : forall acc,
  read_chars (flat_map write_char s ++ quote :: tail) acc = inr (rev acc ++ s, tail).
Proof.
  induction s as [|c s IH]; intros acc.
  - cbn [flat_map app read_chars]. change (quote =? quote) with true.
    rewrite app_nil_r. reflexivity.
  - cbn [flat_map]. rewrite <- app_assoc, read_chars_char, IH.
    cbn [rev]. rewrite <- app_assoc. reflexivity.
Qed.

(** A string is read back from its text. *)
Lemma read_write_string (s tail : str) :
  read_chars (flat_map write_char s ++ [quote] ++ tail) [] = inr (s, tail).
Proof. apply (read_chars_text s tail []). Qed.

End StringFacts.

(** ** The text of a tree *)

Module JsonFacts.
Import Text Core CoreSpec DigitFacts NumberFacts FloatTextFacts StringFacts.
Local Open Scope list_scope.

(** *** Induction on trees *)

Lemma json_induction (P : json -> Prop) :
  P JNull -> (forall b, P (JBool b)) -> (forall z, P (JInt z)) ->
  (forall f, P (JFloat f)) -> (forall s, P (JStr s)) ->
  (forall items, Forall P items -> P (JArr items)) ->
  (forall members, Forall (fun kv => P (snd kv)) members -> P (JObj members)) ->
  forall j, P j.
Proof.
  intros Hnull Hbool Hint Hfloat Hstr Harr Hobj.
  fix IH 1. intros [|b|z|f|s|items|members].
  - exact Hnull.
  - apply Hbool.
  - apply Hint.
  - apply Hfloat.
  - apply Hstr.
  - apply Harr.
    exact ((fix all (l : list json) : Forall P l :=
              match l with
              | [] => Forall_nil P
              | x :: l' => Forall_cons x (IH x) (all l')
              end) items).
  - apply Hobj.
    exact ((fix all (l : list (str * json)) : Forall (fun kv => P (snd kv)) l :=
              match l with
              | [] => Forall_nil _
              | kv :: l' => Forall_cons kv (IH (snd kv)) (all l')
              end) members).
Qed.

(** *** What follows a value *)

Lemma closes_ends_number (rest : str) : closes rest = true -> ends_number rest = true.
Proof.
  destruct rest as [|c rest]; [reflexivity|]. cbn [closes ends_number].
  intros H. apply orb_prop in H. destruct H as [H|H];
    [apply orb_prop in H; destruct H as [H|H]|];
    apply N.eqb_eq in H; subst c; reflexivity.
Qed.

Lemma closes_skip_ws (rest : str) : closes rest = true -> skip_ws rest = rest.
Proof.
  destruct rest as [|c rest]; [reflexivity|]. cbn [closes].
  intros H. apply orb_prop in H. destruct H as [H|H];
    [apply orb_prop in H; destruct H as [H|H]|];
    apply N.eqb_eq in H; subst c; reflexivity.
Qed.

(** *** The first character of a value *)

Lemma starts_number_facts (c : char) :
  starts_number c = true ->
  is_ws c = false /\ (c =? ch "n")%N = false /\ (c =? ch "t")%N = false
  /\ (c =? ch "f")%N = false /\ (c =? quote)%N = false
  /\ (c =? ch "[")%N = false /\ (c =? ch "{")%N = false
  /\ (c =? ch "]")%N = false.
Proof.
  unfold starts_number, is_digit, is_ws. intros H.
  assert (Hc : (c = 45 \/ 48 <= c <= 57)%N).
  { apply orb_prop in H. destruct H as [H|H].
    - apply N.eqb_eq in H. left. exact H.
    - apply andb_prop in H. destruct H as [H1 H2].
      apply N.leb_le in H1, H2. right. split; assumption. }
  clear H.
  change (ch "n") with 110%N. change (ch "t") with 116%N.
  change (ch "f") with 102%N. change quote with 34%N.
  change (ch "[") with 91%N. change (ch "{") with 123%N.
  change (ch "]") with 93%N.
  assert (Hne : forall k : N, (k < 45 \/ 57 < k)%N -> (c =? k)%N = false).
  { intros k Hk. apply N.eqb_neq. lia. }
  rewrite !Hne by lia. repeat split; reflexivity.
Qed.

Lemma read_value_number (fuel : nat) (c : char) (tl : str) :
  starts_number c = true ->
  read_value (S fuel) (c :: tl) = read_number (c :: tl).
Proof.
  intros H.
  destruct (starts_number_facts c H) as (Hws & Hn & Ht & Hf & Hq & Ha & Ho & _).
  cbn [read_value skip_ws]. rewrite Hws. cbv iota.
  rewrite Hn, Ht, Hf, Hq, Ha, Ho. reflexivity.
Qed.

Lemma write_nat_starts (n : N) :
  exists c tl, write_nat n = c :: tl /\ is_digit c = true.
Proof.
  destruct n as [|p].
  - exists 48%N, []. split; reflexivity.
  - destruct (write_nat_head (N.pos p) ltac:(reflexivity)) as (c & tl & Hw & _ & Hd).
    exists c, tl. split; assumption.
Qed.

Lemma signed_starts (neg : bool) (n : N) (tail : str) :
  exists c tl, sign neg ++ write_nat n ++ tail = c :: tl /\ starts_number c = true.
Proof.
  destruct (write_nat_starts n) as (c & tl & Hw & Hd). rewrite Hw.
  destruct neg; cbn [sign app].
  - eexists _, _. split; reflexivity.
  - exists c, (tl ++ tail). split; [reflexivity|].
    unfold starts_number. rewrite Hd. apply orb_true_r.
Qed.

Lemma write_int_starts (z : Z) (tail : str) :
  exists c tl, write_int z ++ tail = c :: tl /\ starts_number c = true.
Proof. unfold write_int. rewrite <- app_assoc. apply signed_starts. Qed.

Lemma write_float_starts (f : float) (tail : str) :
  finite f = true ->
  exists c tl, write_float f ++ tail = c :: tl /\ starts_number c = true.
Proof.
  unfold finite, write_float. destruct (Prim2SF f) as [s|s| |s m e]; try discriminate.
  - intros _. change (lit "0.0") with (write_nat 0 ++ lit ".0").
    rewrite <- !app_assoc. apply signed_starts.
  - intros _. destruct (reduce m e) as [m' e'].
    destruct (0 <=? e')%Z; rewrite <- !app_assoc; apply signed_starts.
Qed.

(** *** Reading each kind of value *)

Lemma read_value_null (fuel : nat) (rest : str) :
  read_value (S fuel) (lit "null" ++ rest) = inr (JNull, rest).
Proof. reflexivity. Qed.

Lemma read_value_true (fuel : nat) (rest : str) :
  read_value (S fuel) (lit "true" ++ rest) = inr (JBool true, rest).
Proof. reflexivity. Qed.

Lemma read_value_false (fuel : nat) (rest : str) :
  read_value (S fuel) (lit "false" ++ rest) = inr (JBool false, rest).
Proof. reflexivity. Qed.

Lemma read_value_int (fuel : nat) (z : Z) (rest : str) :
  closes rest = true ->
  read_value (S fuel) (write_int z ++ rest) = inr (JInt z, rest).
Proof.
  intros H. destruct (write_int_starts z rest) as (c & tl & Hw & Hc).
  rewrite Hw, read_value_number by exact Hc. rewrite <- Hw.
  apply read_write_int, closes_ends_number, H.
Qed.

Lemma read_value_float (fuel : nat) (f : float) (rest : str) :
  finite f = true -> closes rest = true ->
  read_value (S fuel) (write_float f ++ rest) = inr (JFloat f, rest).
Proof.
  intros Hf H. destruct (write_float_starts f rest Hf) as (c & tl & Hw & Hc).
  rewrite Hw, read_value_number by exact Hc. rewrite <- Hw.
  apply read_write_float; [exact Hf|].
  apply ends_number_fraction, closes_ends_number, H.
Qed.

Lemma read_value_string (fuel : nat) (s rest : str) :
  read_value (S fuel) (write_string s ++ rest) = inr (JStr s, rest).
Proof.
  unfold write_string. cbn [app]. rewrite <- app_assoc.
  change (read_value (S fuel) (quote :: flat_map write_char s ++ [quote] ++ rest))
    with (match read_chars (flat_map write_char s ++ [quote] ++ rest) [] with
          | inr (x, r) => inr (JStr x, r)
          | inl e => @inl failure (json * str) e
          end).
  rewrite read_write_string. reflexivity.
Qed.

(** *** Arrays and objects *)

Lemma read_items_step (fuel : nat) (s : str) (acc : list json) :
  read_items (S fuel) s acc =
  match read_value fuel s with
  | inl e => inl e
  | inr (v, r) =>
      match skip_ws r with
      | d :: r' =>
          if (d =? ch ",")%N then read_items fuel r' (v :: acc)
          else if (d =? ch "]")%N then inr (rev (v :: acc), r')
          else expected (d :: r') "',' or ']'"
      | [] => expected [] "',' or ']'"
      end
  end.
Proof. reflexivity. Qed.

Lemma list_sum_cons (a : nat) (l : list nat) : list_sum (a :: l) = a + list_sum l.
Proof. reflexivity. Qed.

Lemma read_items_text (items : list json) :
  Forall reads_back items -> items <> [] ->
  forall fuel rest acc,
    list_sum (map (fun x => S (size x)) items) <= fuel ->
    read_items fuel (join [ch ","] (map write items) ++ ch "]" :: rest) acc
    = inr (rev acc ++ items, rest).
Proof.
  intros Hall. induction Hall as [|x l Hx _ IH]; [congruence|].
  intros _ fuel rest acc Hfuel. cbn [map] in Hfuel. rewrite list_sum_cons in Hfuel.
  destruct fuel as [|fuel]; [lia|].
  rewrite read_items_step. cbn [map join].
  destruct l as [|y l].
  - cbn [map]. rewrite (Hx fuel (ch "]" :: rest)) by (try reflexivity; lia).
    reflexivity.
  - change (map write (y :: l)) with (write y :: map write l).
    cbv iota. rewrite <- !app_assoc.
    change ([ch ","] ++ join [ch ","] (write y :: map write l) ++ ch "]" :: rest)
      with (ch "," :: join [ch ","] (map write (y :: l)) ++ ch "]" :: rest).
    rewrite (Hx fuel) by (try reflexivity; lia).
    cbn [skip_ws]. change (is_ws (ch ",")) with false.
    change (ch "," =? ch ",")%N with true. cbv iota.
    rewrite IH by (try discriminate; lia).
    cbn [rev]. rewrite <- app_assoc. reflexivity.
Qed.

Lemma read_members_step (fuel : nat) (s : str) (acc : list (str * json)) :
  read_members (S fuel) s acc =
  match skip_ws s with
  | q :: r0 =>
      if negb (q =? quote)%N then expected (q :: r0) "a key"
      else
        match read_chars r0 [] with
        | inl e => inl e
        | inr (k, r1) =>
            match skip_ws r1 with
            | c :: r2 =>
                if negb (c =? ch ":")%N then expected (c :: r2) "':'"
                else
                  match read_value fuel r2 with
                  | inl e => inl e
                  | inr (v, r3) =>
                      match skip_ws r3 with
                      | d :: r4 =>
                          if (d =? ch ",")%N
                          then read_members fuel r4 ((k, v) :: acc)
                          else if (d =? ch "}")%N
                          then inr (rev ((k, v) :: acc), r4)
                          else expected (d :: r4) "',' or '}'"
                      | [] => expected [] "',' or '}'"
                      end
                  end
            | [] => expected [] "':'"
            end
        end
  | [] => expected [] "a key"
  end.
Proof. reflexivity. Qed.

(** A member's key and the colon are read, and the value is next. *)
Lemma read_member_key (k : str) (v : json) (tail : str) :
  exists r0,
    skip_ws (write_member (k, v) ++ tail) = quote :: r0 /\
    read_chars r0 [] = inr (k, ch ":" :: write v ++ tail).
Proof.
  unfold write_member, write_string. cbn [fst snd app].
  eexists. split; [reflexivity|].
  rewrite <- !app_assoc. cbn [app].
  apply (read_chars_text k _ []).
Qed.

Lemma read_members_text (members : list (str * json)) :
  Forall (fun kv => reads_back (snd kv)) members -> members <> [] ->
  forall fuel rest acc,
    list_sum (map (fun kv => S (size (snd kv))) members) <= fuel ->
    read_members fuel (join [ch ","] (map write_member members) ++ ch "}" :: rest) acc
    = inr (rev acc ++ members, rest).
Proof.
  intros Hall. induction Hall as [|[k v] l Hx _ IH]; [congruence|].
  intros _ fuel rest acc Hfuel. cbn [map snd] in Hfuel. cbn [snd] in Hx.
  rewrite list_sum_cons in Hfuel.
  destruct fuel as [|fuel]; [lia|].
  rewrite read_members_step. cbn [map join].
  destruct l as [|y l].
  - cbn [map].
    destruct (read_member_key k v (ch "}" :: rest)) as (r0 & Hs & Hr).
    rewrite Hs. change (negb (quote =? quote)%N) with false. cbv iota.
    rewrite Hr. cbn [skip_ws]. change (is_ws (ch ":")) with false.
    change (negb (ch ":" =? ch ":")%N) with false. cbv iota.
    rewrite (Hx fuel (ch "}" :: rest)) by (try reflexivity; lia).
    reflexivity.
  - change (map write_member (y :: l)) with (write_member y :: map write_member l).
    cbv iota. rewrite <- !app_assoc.
    change ([ch ","] ++ join [ch ","] (write_member y :: map write_member l)
            ++ ch "}" :: rest)
      with (ch "," :: join [ch ","] (map write_member (y :: l)) ++ ch "}" :: rest).
    destruct (read_member_key k v
                (ch "," :: join [ch ","] (map write_member (y :: l)) ++ ch "}" :: rest))
      as (r0 & Hs & Hr).
    rewrite Hs. change (negb (quote =? quote)%N) with false. cbv iota.
    rewrite Hr. cbn [skip_ws]. change (is_ws (ch ":")) with false.
    change (negb (ch ":" =? ch ":")%N) with false. cbv iota.
    rewrite (Hx fuel) by (try reflexivity; lia).
    cbn [skip_ws]. change (is_ws (ch ",")) with false.
    change (ch "," =? ch ",")%N with true. cbv iota.
    rewrite IH by (try discriminate; lia).
    cbn [rev]. rewrite <- app_assoc. reflexivity.
Qed.

(** The first character of a value's text is not white space, and closes
    nothing. *)
Lemma write_starts (j : json) (tail : str) :
  finite_json j = true ->
  exists c tl, write j ++ tail = c :: tl /\ is_ws c = false
               /\ (c =? ch "]")%N = false.
Proof.
  intros Hfin. destruct j as [|b|z|f|s|items|members]; cbn [write].
  - eexists _, _. repeat split.
  - destruct b; eexists _, _; repeat split.
  - destruct (write_int_starts z tail) as (c & tl & Hw & Hc).
    destruct (starts_number_facts c Hc) as (Hws & _ & _ & _ & _ & _ & _ & Hcl).
    exists c, tl. repeat split; assumption.
  - destruct (write_float_starts f tail Hfin) as (c & tl & Hw & Hc).
    destruct (starts_number_facts c Hc) as (Hws & _ & _ & _ & _ & _ & _ & Hcl).
    exists c, tl. repeat split; assumption.
  - eexists _, _. repeat split.
  - eexists _, _. repeat split.
  - eexists _, _. repeat split.
Qed.

Lemma read_value_array (fuel : nat) (c : char) (tl : str) :
  is_ws c = false -> (c =? ch "]")%N = false ->
  read_value (S fuel) (ch "[" :: c :: tl) =
  match read_items fuel (c :: tl) [] with
  | inr (items, r') => inr (JArr items, r')
  | inl e => inl e
  end.
Proof.
  intros Hws Hc. cbn [read_value skip_ws]. change (is_ws (ch "[")) with false.
  cbv iota.
  change (ch "[" =? ch "n")%N with false. change (ch "[" =? ch "t")%N with false.
  change (ch "[" =? ch "f")%N with false. change (ch "[" =? quote)%N with false.
  change (ch "[" =? ch "[")%N with true. cbv iota.
  cbn [skip_ws]. rewrite Hws, Hc. reflexivity.
Qed.

Lemma read_value_object (fuel : nat) (tl : str) :
  read_value (S fuel) (ch "{" :: quote :: tl) =
  match read_members fuel (quote :: tl) [] with
  | inr (members, r') => inr (JObj members, r')
  | inl e => inl e
  end.
Proof. reflexivity. Qed.

Lemma write_object (members : list (str * json)) :
  write (JObj members) =
  ch "{" :: join [ch ","] (map write_member members) ++ [ch "}"].
Proof. reflexivity. Qed.

Lemma forallb_Forall {A} (f : A -> bool) (P : A -> Prop) (l : list A) :
  Forall (fun x => f x = true -> P x) l -> forallb f l = true -> Forall P l.
Proof.
  intros H. induction H as [|x l Hx _ IH]; intros Hf; [constructor|].
  cbn [forallb] in Hf. apply andb_prop in Hf. destruct Hf as [Hfx Hfl].
  constructor; [apply Hx, Hfx | apply IH, Hfl].
Qed.

(** The text of a tree whose floats are numbers is read back as the tree. *)
Lemma read_value_write (j : json) : finite_json j = true -> reads_back j.
Proof.
  induction j as [|b|z|f|s|items IH|members IH] using json_induction;
    intros Hfin fuel rest Hfuel Hrest; cbn [size] in Hfuel;
    (destruct fuel as [|fuel]; [lia|]).
  - apply read_value_null.
  - destruct b; [apply read_value_true | apply read_value_false].
  - apply read_value_int, Hrest.
  - apply read_value_float; [exact Hfin | exact Hrest].
  - apply read_value_string.
  - cbn [finite_json] in Hfin. pose proof (forallb_Forall _ _ _ IH Hfin) as Hall.
    cbn [write app]. rewrite <- app_assoc. cbn [app].
    destruct items as [|x l]; [reflexivity|].
    assert (Hx : finite_json x = true).
    { cbn [forallb] in Hfin. apply andb_prop in Hfin. apply Hfin. }
    assert (Hhead : exists c tl,
               join [ch ","] (map write (x :: l)) ++ ch "]" :: rest = c :: tl
               /\ is_ws c = false /\ (c =? ch "]")%N = false).
    { cbn [map join]. destruct (map write l) as [|t ts].
      - apply write_starts, Hx.
      - rewrite <- app_assoc. apply write_starts, Hx. }
    destruct Hhead as (c & tl & Htext & Hws & Hc).
    rewrite Htext, read_value_array by assumption. rewrite <- Htext.
    rewrite read_items_text by (try exact Hall; try discriminate; lia).
    reflexivity.
  - cbn [finite_json] in Hfin.
    pose proof (forallb_Forall (fun kv => finite_json (snd kv))
                  (fun kv => reads_back (snd kv)) _ IH Hfin) as Hall.
    rewrite write_object. cbn [app]. rewrite <- app_assoc. cbn [app].
    destruct members as [|[k v] l]; [reflexivity|].
    assert (Hhead : exists tl,
               join [ch ","] (map write_member ((k, v) :: l)) ++ ch "}" :: rest
               = quote :: tl).
    { cbn [map join]. destruct (map write_member l) as [|t ts];
        unfold write_member, write_string; cbn [fst app]; eexists; reflexivity. }
    destruct Hhead as (tl & Htext).
    rewrite Htext, read_value_object. rewrite <- Htext.
    rewrite read_members_text by (try exact Hall; try discriminate; lia).
    reflexivity.
Qed.

(** *** Enough fuel *)

Lemma write_nat_length (n : N) : 1 <= List.length (write_nat n).
Proof.
  destruct (write_nat_starts n) as (c & tl & Hw & _). rewrite Hw. cbn. lia.
Qed.

Lemma write_float_length (f : float) : 1 <= List.length (write_float f).
Proof.
  unfold write_float. destruct (Prim2SF f) as [s|s| |s m e].
  - rewrite length_app. cbn. lia.
  - cbn. lia.
  - cbn. lia.
  - destruct (reduce m e) as [m' e']. rewrite length_app.
    destruct (0 <=? e')%Z; rewrite length_app;
      pose proof (write_nat_length (N.pos m' * 2 ^ Z.to_N e'));
      pose proof (write_nat_length
                    (N.pos m' * 5 ^ N.of_nat (Z.to_nat (- e'))
                     / 10 ^ N.of_nat (Z.to_nat (- e')))); lia.
Qed.

Lemma items_size (items : list json) :
  Forall (fun x => size x <= List.length (write x)) items ->
  list_sum (map (fun x => S (size x)) items)
  <= List.length (join [ch ","] (map write items)) + 1.
Proof.
  intros H. induction H as [|x l Hx _ IH]; [cbn; lia|].
  cbn [map]. rewrite list_sum_cons. cbn [join].
  destruct l as [|y l].
  - cbn [map list_sum fold_right]. lia.
  - change (map write (y :: l)) with (write y :: map write l) in *.
    cbv iota. rewrite !length_app. cbn [List.length]. lia.
Qed.

Lemma members_size (members : list (str * json)) :
  Forall (fun kv => size (snd kv) <= List.length (write (snd kv))) members ->
  list_sum (map (fun kv => S (size (snd kv))) members)
  <= List.length (join [ch ","] (map write_member members)) + 1.
Proof.
  intros H. induction H as [|[k v] l Hx _ IH]; [cbn; lia|].
  cbn [map snd] in *. rewrite list_sum_cons. cbn [join].
  assert (Hm : size v <= List.length (write_member (k, v))).
  { unfold write_member. cbn [fst snd]. rewrite length_app. cbn [List.length]. lia. }
  destruct l as [|y l].
  - cbn [map list_sum fold_right]. lia.
  - change (map write_member (y :: l)) with (write_member y :: map write_member l) in *.
    cbv iota. rewrite !length_app. cbn [List.length]. lia.
Qed.

Lemma size_le_length (j : json) : size j <= List.length (write j).
Proof.
  induction j as [|b|z|f|s|items IH|members IH] using json_induction.
  - cbn. lia.
  - destruct b; cbn; lia.
  - cbn [size write]. unfold write_int. rewrite length_app.
    pose proof (write_nat_length (Z.abs_N z)). lia.
  - apply write_float_length.
  - cbn [size write]. unfold write_string. cbn [List.length]. lia.
  - cbn [size write List.length]. rewrite length_app. cbn [List.length].
    pose proof (items_size items IH). lia.
  - rewrite write_object. cbn [size List.length]. rewrite length_app.
    cbn [List.length]. pose proof (members_size members IH). lia.
Qed.

(** Reading the text written for a tree gives the tree. *)
Lemma read_write (j : json) : finite_json j = true -> read (write j) = ok j.
Proof.
  intros Hfin. unfold read.
  pose proof (read_value_write j Hfin (S (List.length (write j))) []
                ltac:(pose proof (size_le_length j); lia) eq_refl) as H.
  rewrite app_nil_r in H. rewrite H. reflexivity.
Qed.

End JsonFacts.

(** ** The texts of timestamps and unique identifiers *)

Module StampFacts.
Import Text Core CoreSpec DigitFacts StringFacts.
Local Open Scope list_scope.
Local Open Scope N_scope.

(** *** Digits of a fixed width *)

Lemma take_digits_split (digit : char -> option N) (base : N) (w k : nat) :
  forall (s : str) (acc : N),
  take_digits digit base (w + k) s acc =
  and_then (take_digits digit base w s acc) (fun ar => take_digits digit base k (snd ar) (fst ar)).
Proof.
  induction w as [|w IH]; intros s acc; [reflexivity|].
  cbn [Nat.add take_digits]. destruct s as [|c s]; [reflexivity|].
  destruct (digit c) as [d|]; [apply IH | reflexivity].
Qed.

Lemma decimal_digit_char (d : N) : d < 10 -> decimal_digit (48 + d) = Some d.
Proof.
  intros H. unfold decimal_digit. rewrite (is_digit_char d H), digit_back. reflexivity.
Qed.

Lemma step_value (base n acc : N) (w : nat) :
  base <> 0 ->
  (acc * base ^ N.of_nat w + (n / base) mod base ^ N.of_nat w) * base + n mod base
  = acc * base ^ N.of_nat (S w) + n mod base ^ N.of_nat (S w).
Proof.
  intros Hb. rewrite Nat2N.inj_succ, N.pow_succ_r'.
  rewrite (N.Div0.mod_mul_r n base (base ^ N.of_nat w)). ring.
Qed.

Lemma take_fixed (w : nat) : forall (n acc : N) (rest : str),
  take_digits decimal_digit 10 w (fixed w n ++ rest) acc
  = Some (acc * 10 ^ N.of_nat w + n mod 10 ^ N.of_nat w, rest).
Proof.
  induction w as [|w IH]; intros n acc rest.
  - cbn [fixed app take_digits N.of_nat]. rewrite N.pow_0_r, N.mod_1_r.
    do 2 f_equal. ring.
  - cbn [fixed]. rewrite <- app_assoc. cbn [app].
    replace (S w) with (w + 1)%nat at 1 by lia.
    rewrite take_digits_split, IH. cbn [and_then fst snd take_digits].
    rewrite (decimal_digit_char (n mod 10) (mod_10_lt n)).
    rewrite (step_value 10 n acc w ltac:(discriminate)). reflexivity.
Qed.

Lemma take_hex_fixed (w : nat) : forall (n acc : N) (rest : str),
  take_digits hex_digit 16 w (hex_fixed w n ++ rest) acc
  = Some (acc * 16 ^ N.of_nat w + n mod 16 ^ N.of_nat w, rest).
Proof.
  induction w as [|w IH]; intros n acc rest.
  - cbn [hex_fixed app take_digits N.of_nat]. rewrite N.pow_0_r, N.mod_1_r.
    do 2 f_equal. ring.
  - cbn [hex_fixed]. rewrite <- app_assoc. cbn [app].
    replace (S w) with (w + 1)%nat at 1 by lia.
    rewrite take_digits_split, IH. cbn [and_then fst snd take_digits].
    rewrite (hex_digit_char (n mod 16) (N.mod_lt n 16 ltac:(discriminate))).
    rewrite (step_value 16 n acc w ltac:(discriminate)). reflexivity.
Qed.

(** A field that fits its width is read back. *)
Lemma take_field (w : nat) (n : N) (rest : str) :
  n < 10 ^ N.of_nat w ->
  take_digits decimal_digit 10 w (fixed w n ++ rest) 0 = Some (n, rest).
Proof.
  intros H. rewrite take_fixed, N.mul_0_l, N.add_0_l, (N.mod_small n _ H). reflexivity.
Qed.

Lemma skip_one (c : ascii) (rest : str) :
  skip (ch c) (lit (String c EmptyString) ++ rest) = Some rest.
Proof.
  change (lit (String c EmptyString) ++ rest) with (ch c :: rest).
  cbn [skip]. rewrite N.eqb_refl. reflexivity.
Qed.

Lemma within_ok (lo hi n : N) :
  (lo <=? n) = true -> (n <=? hi) = true -> within lo hi n = Some n.
Proof. intros H1 H2. unfold within. rewrite H1, H2. reflexivity. Qed.

Lemma within_below (hi n : N) : (n <=? hi) = true -> within 0 hi n = Some n.
Proof. intros H. apply within_ok; [apply N.leb_le, N.le_0_l | exact H]. Qed.

(** *** Unique identifiers *)

Lemma group_value (n : N) (j w : nat) :
  n / 16 ^ N.of_nat (j + w) * 16 ^ N.of_nat w + (n / 16 ^ N.of_nat j) mod 16 ^ N.of_nat w
  = n / 16 ^ N.of_nat j.
Proof.
  rewrite Nat2N.inj_add, N.pow_add_r, <- N.Div0.div_div.
  rewrite (N.div_mod' (n / 16 ^ N.of_nat j) (16 ^ N.of_nat w)) at 3. ring.
Qed.

Lemma take_group (n acc : N) (j w : nat) (rest : str) :
  acc = n / 16 ^ N.of_nat (j + w) ->
  take_digits hex_digit 16 w (hex_fixed w (n / 16 ^ N.of_nat j) ++ rest) acc
  = Some (n / 16 ^ N.of_nat j, rest).
Proof. intros ->. rewrite take_hex_fixed, group_value. reflexivity. Qed.

(** The text of an identifier of 128 bits is read back. *)
Lemma read_uuid_text (n : N) : n < 2 ^ 128 -> read_uuid (uuid_text n) = Some n.
Proof.
  intros Hn. unfold read_uuid, uuid_text.
  change (16 ^ 24) with (16 ^ N.of_nat 24). change (16 ^ 20) with (16 ^ N.of_nat 20).
  change (16 ^ 16) with (16 ^ N.of_nat 16). change (16 ^ 12) with (16 ^ N.of_nat 12).
  rewrite (take_group n 0 24 8).
  2:{ symmetry. apply N.div_small. exact Hn. }
  cbn [and_then]. rewrite skip_one. cbn [and_then].
  rewrite (take_group n _ 20 4 _ eq_refl). cbn [and_then]. rewrite skip_one. cbn [and_then].
  rewrite (take_group n _ 16 4 _ eq_refl). cbn [and_then]. rewrite skip_one. cbn [and_then].
  rewrite (take_group n _ 12 4 _ eq_refl). cbn [and_then]. rewrite skip_one. cbn [and_then].
  rewrite <- (app_nil_r (hex_fixed 12 n)), take_hex_fixed. cbn [and_then].
  f_equal. rewrite (N.div_mod' n (16 ^ N.of_nat 12)) at 3. ring.
Qed.


(** *** Timestamps *)

Lemma micros_digits (ds : str) :
  Forall (fun c => is_digit c = true) ds ->
  forall (k : nat) (rest : str) (acc : N),
    micros (List.length ds + k) (ds ++ rest) acc = micros k rest (value_of ds acc).
Proof.
  intros H. induction H as [|d ds Hd _ IH]; intros k rest acc; [reflexivity|].
  cbn [List.length Nat.add app micros]. rewrite Hd. apply IH.
Qed.

Lemma micros_fixed (w : nat) (n : N) (rest : str) :
  n < 10 ^ N.of_nat w -> micros w (fixed w n ++ rest) 0 = (n, skip_digits rest).
Proof.
  intros Hn.
  pose proof (micros_digits (fixed w n) (fixed_digits w n) 0 rest 0) as H.
  rewrite fixed_length, Nat.add_0_r in H. rewrite H. cbn [micros].
  rewrite fixed_value, N.mul_0_l, N.add_0_l, (N.mod_small _ _ Hn). reflexivity.
Qed.

Lemma fixed_head (w : nat) (n : N) :
  exists d ds, fixed (S w) n = d :: ds /\ is_digit d = true.
Proof.
  pose proof (fixed_length (S w) n) as Hl. pose proof (fixed_digits (S w) n) as Hd.
  destruct (fixed (S w) n) as [|d ds]; [discriminate|].
  inversion Hd; subst. exists d, ds. split; [reflexivity | assumption].
Qed.

Lemma offset_text_head (offset : Z) :
  exists c r, offset_text offset = c :: r /\ is_digit c = false /\ (c =? ch ".") = false.
Proof.
  unfold offset_text. destruct (offset =? 0)%Z.
  - exists (ch "Z"), []. repeat split.
  - destruct (offset <? 0)%Z; eexists _, _; repeat split.
Qed.

Lemma read_micro_text (micro : N) (offset : Z) :
  micro < 1000000 ->
  read_micro (micro_text micro ++ offset_text offset) = (micro, offset_text offset).
Proof.
  intros Hm. unfold micro_text. destruct (N.eqb_spec micro 0) as [->|Hne].
  - cbn [app]. destruct (offset_text_head offset) as (c & r & -> & _ & Hc).
    unfold read_micro. destruct r as [|d r]; [reflexivity|]. rewrite Hc. reflexivity.
  - destruct (fixed_head 5 micro) as (d & ds & Hf & Hd).
    change (lit "." ++ fixed 6 micro) with (ch "." :: fixed 6 micro).
    cbn [app]. unfold read_micro. rewrite Hf. cbn [app].
    rewrite N.eqb_refl, Hd. cbn [andb].
    change (d :: ds ++ offset_text offset) with ((d :: ds) ++ offset_text offset).
    rewrite <- Hf, (micros_fixed 6 micro _ Hm).
    destruct (offset_text_head offset) as (c & r & -> & Hc & _).
    cbn [skip_digits]. rewrite Hc. reflexivity.
Qed.

Lemma read_offset_text (offset : Z) :
  Z.abs_N offset < 24 * 60 -> read_offset (offset_text offset) = Some offset.
Proof.
  intros Ho. unfold offset_text. destruct (Z.eqb_spec offset 0) as [->|Hne]; [reflexivity|].
  assert (Hh : Z.abs_N offset / 60 < 10 ^ N.of_nat 2).
  { apply N.Div0.div_lt_upper_bound. lia. }
  assert (Hm : Z.abs_N offset mod 60 < 10 ^ N.of_nat 2).
  { pose proof (N.mod_lt (Z.abs_N offset) 60 ltac:(discriminate)). lia. }
  assert (Hh23 : (Z.abs_N offset / 60 <=? 23) = true).
  { apply N.leb_le. apply N.lt_succ_r. apply N.Div0.div_lt_upper_bound. lia. }
  assert (Hm59 : (Z.abs_N offset mod 60 <=? 59) = true).
  { apply N.leb_le. pose proof (N.mod_lt (Z.abs_N offset) 60 ltac:(discriminate)). lia. }
  assert (Hsum : Z.abs_N offset / 60 * 60 + Z.abs_N offset mod 60 = Z.abs_N offset).
  { rewrite (N.div_mod' (Z.abs_N offset) 60) at 3. ring. }
  destruct (Z.ltb_spec offset 0) as [Hneg|Hpos].
  - change (lit "-" ++ ?x) with (ch "-" :: x). cbn [app read_offset].
    change (ch "-" =? ch "Z") with false. change (ch "-" =? ch "+") with false.
    change (ch "-" =? ch "-") with true. cbn [orb].
    rewrite (take_field 2 _ _ Hh). cbn [and_then].
    rewrite (within_below 23 _ Hh23). cbn [and_then].
    rewrite skip_one. cbn [and_then].
    rewrite <- (app_nil_r (fixed 2 (Z.abs_N offset mod 60))), (take_field 2 _ _ Hm).
    cbn [and_then]. rewrite (within_below 59 _ Hm59). cbn [and_then].
    rewrite Hsum. f_equal. lia.
  - cbn [app read_offset].
    change (lit "+" ++ ?x) with (ch "+" :: x). cbn [app read_offset].
    change (ch "+" =? ch "Z") with false. change (ch "+" =? ch "+") with true.
    change (ch "+" =? ch "-") with false. cbn [orb].
    rewrite (take_field 2 _ _ Hh). cbn [and_then].
    rewrite (within_below 23 _ Hh23). cbn [and_then].
    rewrite skip_one. cbn [and_then].
    rewrite <- (app_nil_r (fixed 2 (Z.abs_N offset mod 60))), (take_field 2 _ _ Hm).
    cbn [and_then]. rewrite (within_below 59 _ Hm59). cbn [and_then].
    rewrite Hsum. f_equal. lia.
Qed.

Lemma skip_T (rest : str) : skip_any [ch "T"; ch " "] (lit "T" ++ rest) = Some rest.
Proof. reflexivity. Qed.

Lemma two_digits (n hi : N) : (n <=? hi) = true -> hi < 100 -> n < 10 ^ N.of_nat 2.
Proof. intros H Hhi. apply N.leb_le in H. change (10 ^ N.of_nat 2) with 100. lia. Qed.

(** The text of a timestamp whose fields are in their ranges is read back. *)
Lemma read_timestamp_text (t : timestamp) :
  timestamp_ok t = true -> read_timestamp (timestamp_text t) = Some t.
Proof.
  destruct t as [year month day hour minute second micro offset].
  unfold timestamp_ok. cbn [ts_year ts_month ts_day ts_hour ts_minute ts_second
                            ts_micro ts_offset].
  intros H.
  repeat match type of H with
         | (_ && _) = true => apply andb_prop in H; destruct H as [H ?]
         end.
  repeat match goal with
         | H : (_ <? _) = true |- _ => apply N.ltb_lt in H
         end.
  unfold read_timestamp, timestamp_text.
  cbn [ts_year ts_month ts_day ts_hour ts_minute ts_second ts_micro ts_offset].
  rewrite (take_field 4 year) by (change (10 ^ N.of_nat 4) with 10000; assumption).
  cbn [and_then]. rewrite skip_one. cbn [and_then].
  rewrite (take_field 2 month) by (apply (two_digits _ 12); [assumption | reflexivity]).
  cbn [and_then]. rewrite (within_ok 1 12 month) by assumption.
  cbn [and_then]. rewrite skip_one. cbn [and_then].
  rewrite (take_field 2 day) by (apply (two_digits _ 31); [assumption | reflexivity]).
  cbn [and_then]. rewrite (within_ok 1 31 day) by assumption.
  cbn [and_then].
  rewrite skip_T. cbn [and_then].
  rewrite (take_field 2 hour) by (apply (two_digits _ 23); [assumption | reflexivity]).
  cbn [and_then]. rewrite (within_below 23 hour) by assumption.
  cbn [and_then]. rewrite skip_one. cbn [and_then].
  rewrite (take_field 2 minute) by (apply (two_digits _ 59); [assumption | reflexivity]).
  cbn [and_then]. rewrite (within_below 59 minute) by assumption.
  cbn [and_then]. rewrite skip_one. cbn [and_then].
  rewrite (take_field 2 second) by (apply (two_digits _ 59); [assumption | reflexivity]).
  cbn [and_then]. rewrite (within_below 59 second) by assumption.
  cbn [and_then].
  rewrite (read_micro_text micro offset) by assumption.
  rewrite (read_offset_text offset) by assumption.
  reflexivity.
Qed.

End StampFacts.

(** ** Converting the tree of a typed instance *)

Module TypingFacts.
Import Text Core CoreSpec CoreFacts JsonFacts StampFacts.
Local Open Scope list_scope.
Local Open Scope core_scope.

(** *** Induction on values *)

Lemma value_induction (P : value -> Prop) :
  P VNone -> (forall b, P (VBool b)) -> (forall z, P (VInt z)) ->
  (forall f, P (VFloat f)) -> (forall s, P (VStr s)) -> (forall s, P (VBytes s)) ->
  (forall t, P (VTimestamp t)) -> (forall id, P (VUuid id)) ->
  (forall items, Forall P items -> P (VSeq items)) ->
  (forall items, Forall P items -> P (VTuple items)) ->
  (forall entries, Forall (fun kv => P (snd kv)) entries -> P (VMap entries)) ->
  (forall id fields, Forall P fields -> P (VRecord id fields)) ->
  (forall j, P (VAny j)) ->
  forall v, P v.
Proof.
  intros Hnone Hbool Hint Hfloat Hstr Hbytes Htime Huuid Hseq Htuple Hmap Hrec Hany.
  fix IH 1.
  assert (Hall : forall l, Forall P l).
  { fix all 1. intros [|x l]; [constructor|].
    constructor; [apply IH | apply all]. }
  intros [|b|z|f|s|s|s|s|items|items|entries|id fields|j].
  - exact Hnone.
  - apply Hbool.
  - apply Hint.
  - apply Hfloat.
  - apply Hstr.
  - apply Hbytes.
  - apply Htime.
  - apply Huuid.
  - apply Hseq, Hall.
  - apply Htuple, Hall.
  - apply Hmap.
    exact ((fix all (l : list (str * value)) : Forall (fun kv => P (snd kv)) l :=
              match l with
              | [] => Forall_nil _
              | kv :: l' => Forall_cons kv (IH (snd kv)) (all l')
              end) entries).
  - apply Hrec, Hall.
  - apply Hany.
Qed.

(** *** Scalars, choices and bounds *)

Section Scalars.

Variable schemas : list RecordSchema.

Lemma convert_scalar_ok (k : kind) (v : value) (p : path) :
  scalar_of k v = true -> convert_scalar k (to_json schemas v) p = ok v.
Proof.
  destruct k, v; try discriminate; cbn [scalar_of to_json convert_scalar];
    try reflexivity; intros H.
  - rewrite (read_timestamp_text t H). reflexivity.
  - apply N.ltb_lt in H. rewrite (read_uuid_text id H). reflexivity.
Qed.

(** A kind does not take what is written for a value of a kind that is
    written differently. *)
Lemma convert_scalar_other (k k' : kind) (v : value) (p : path) :
  scalar_of k' v = true -> same_shape k k' = false ->
  convert_scalar k (to_json schemas v) p = err (TypeError p).
Proof. destruct k, k', v; try discriminate; intros _ _; reflexivity. Qed.

Lemma convert_choice_ok (kinds : list kind) (v : value) (p : path) :
  distinct_shapes kinds = true ->
  existsb (fun k => scalar_of k v) kinds = true ->
  convert_choice kinds (to_json schemas v) p = ok v.
Proof.
  induction kinds as [|k kinds IH]; [discriminate|].
  cbn [distinct_shapes existsb convert_choice]. intros Hd H.
  apply andb_prop in Hd. destruct Hd as [Hk Hd]. apply negb_true_iff in Hk.
  destruct (scalar_of k v) eqn:Hs.
  - rewrite (convert_scalar_ok k v p Hs). reflexivity.
  - cbn [orb] in H. pose proof H as Hex.
    apply existsb_exists in Hex. destruct Hex as (k' & Hin & Hk').
    assert (Hshape : same_shape k k' = false).
    { destruct (same_shape k k') eqn:E; [|reflexivity].
      assert (Hex : existsb (same_shape k) kinds = true)
        by (apply existsb_exists; exists k'; split; assumption).
      congruence. }
    rewrite (convert_scalar_other k k' v p Hk' Hshape). apply IH; assumption.
Qed.

(** No kind has the absent value or an untyped tree among its values. *)
Lemma no_scalar (kinds : list kind) (v : value) :
  (forall k, scalar_of k v = false) -> existsb (fun k => scalar_of k v) kinds = false.
Proof.
  intros H. induction kinds as [|k kinds IH]; [reflexivity|].
  cbn [existsb]. rewrite H, IH. reflexivity.
Qed.

End Scalars.

Lemma check_path (holds : bool) (p q : path) (r : rule) :
  check holds p r = ok tt -> check holds q r = ok tt.
Proof. unfold check. destruct holds; [reflexivity | discriminate]. Qed.

(** Whether a value is within bounds does not depend on the path. *)
Lemma validate_ok (v : value) (c : ConstraintSet) (p : path) :
  satisfies v c = true -> validate v c p = ok tt.
Proof.
  unfold satisfies, validate, when, check.
  destruct (minimum c) as [lo|]; (try destruct (at_least lo v)); cbn [bind];
    try discriminate;
    (destruct (maximum c) as [hi|]; (try destruct (at_most hi v)); cbn [bind];
     try discriminate;
     (destruct (min_length c) as [n|]; (try destruct (length_ok (Nat.leb n) v));
      cbn [bind]; try discriminate;
      (destruct (max_length c) as [n'|];
       (try destruct (length_ok (fun n => Nat.leb n n') v));
       cbn [bind]; try discriminate; reflexivity))).
Qed.

(** *** Lists *)

Lemma traverse_map_ok {A B C} (g : A -> C) (f : nat -> C -> result B)
  (l : list A) (out : list B) :
  Forall2 (fun a b => forall i, f i (g a) = ok b) l out ->
  forall i, traverse f i (map g l) = ok out.
Proof.
  intros H. induction H as [|a b l out Hab _ IH]; intros i; [reflexivity|].
  cbn [map traverse]. rewrite Hab. unfold ok at 1. cbn [bind].
  rewrite IH. reflexivity.
Qed.

Lemma Forall2_diag {A} (R : A -> A -> Prop) (l : list A) :
  Forall (fun a => R a a) l -> Forall2 R l l.
Proof. intros H. induction H; constructor; assumption. Qed.

Lemma forallb_map_Forall {A B} (g : A -> B) (f : B -> bool) (l : list A) :
  forallb f (map g l) = true -> Forall (fun a => f (g a) = true) l.
Proof.
  induction l as [|a l IH]; [constructor|].
  cbn [map forallb]. intros H. apply andb_prop in H. destruct H as [Ha Hl].
  constructor; [exact Ha | apply IH, Hl].
Qed.

Lemma Forall_and {A} (P Q : A -> Prop) (l : list A) :
  Forall P l -> Forall Q l -> Forall (fun a => P a /\ Q a) l.
Proof.
  intros HP. induction HP as [|a l Ha _ IH]; intros HQ; [constructor|].
  inversion HQ; subst. constructor; [split; assumption | apply IH; assumption].
Qed.

(** *** Members of an object *)

Lemma member_app {A} (key : str) (l1 l2 : list (str * A)) :
  member key (l1 ++ l2) =
  match member key l2 with
  | Some v => Some v
  | None => member key l1
  end.
Proof.
  induction l1 as [|[k v] l1 IH]; cbn [app member].
  - destruct (member key l2); reflexivity.
  - rewrite IH. destruct (member key l2); reflexivity.
Qed.

Lemma member_map {A B} (g : A -> B) (key : str) (l : list (str * A)) :
  member key (map (fun kv => (fst kv, g (snd kv))) l) = option_map g (member key l).
Proof.
  induction l as [|[k v] l IH]; [reflexivity|].
  cbn [map member fst snd]. rewrite IH.
  destruct (member key l); cbn [option_map]; [reflexivity|].
  destruct (list_eq_dec N.eq_dec k key); reflexivity.
Qed.

Lemma member_absent {A} (key : str) (names : list str) (xs : list A) :
  existsb (str_eqb key) names = false -> member key (combine names xs) = None.
Proof.
  revert xs. induction names as [|n names IH]; intros xs H; [reflexivity|].
  destruct xs as [|x xs]; [reflexivity|].
  cbn [existsb] in H. apply orb_false_elim in H. destruct H as [Hn Hrest].
  cbn [combine member]. rewrite (IH xs Hrest).
  apply str_eqb_neq in Hn.
  destruct (list_eq_dec N.eq_dec n key); [congruence | reflexivity].
Qed.

(** With distinct names, every name finds its own value. *)
Lemma member_found {A} (names : list str) : forall (xs : list A),
  distinct names = true -> List.length names = List.length xs ->
  Forall2 (fun n x => member n (combine names xs) = Some x) names xs.
Proof.
  induction names as [|n names IH]; intros [|x xs] Hd Hl; try discriminate.
  - constructor.
  - cbn [distinct] in Hd. apply andb_prop in Hd. destruct Hd as [Hn Hd].
    apply negb_true_iff in Hn. injection Hl as Hl.
    constructor.
    + cbn [combine member]. rewrite (member_absent n names xs Hn).
      destruct (list_eq_dec N.eq_dec n n); [reflexivity | congruence].
    + eapply Forall2_impl; [|exact (IH xs Hd Hl)].
      intros n' x' Hfound. cbn [combine member]. rewrite Hfound. reflexivity.
Qed.

(** *** Records *)

Lemma all2_length {A B} (f : A -> B -> bool) (l : list A) : forall (l' : list B),
  all2 f l l' = true -> List.length l = List.length l'.
Proof.
  induction l as [|a l IH]; intros [|b l'] H; try discriminate; [reflexivity|].
  cbn [all2] in H. apply andb_prop in H. cbn [List.length]. f_equal. apply IH, H.
Qed.

Lemma Forall2_maps {A B C D} (R : C -> D -> Prop) (g : A -> C) (h : B -> D)
  (l : list A) : forall (l' : list B),
  Forall2 R (map g l) (map h l') -> Forall2 (fun a b => R (g a) (h b)) l l'.
Proof.
  induction l as [|a l IH]; intros [|b l'] H; inversion H; subst; constructor.
  - assumption.
  - apply IH. assumption.
Qed.

Lemma find_none {A} (f : A -> bool) (l : list A) :
  Forall (fun x => f x = false) l -> find f l = None.
Proof.
  intros H. induction H as [|x l Hx _ IH]; [reflexivity|].
  cbn [find]. rewrite Hx. exact IH.
Qed.

Lemma combine_keys {A} (names : list str) : forall (xs : list A),
  Forall (fun kv => In (fst kv) names) (combine names xs).
Proof.
  induction names as [|n names IH]; intros [|x xs]; cbn [combine]; try constructor.
  - left. reflexivity.
  - eapply Forall_impl; [|apply IH]. intros kv Hin. right. exact Hin.
Qed.

Lemma str_eqb_refl (a : str) : str_eqb a a = true.
Proof. apply str_eqb_eq. reflexivity. Qed.

Section Records.

Variable schemas : list RecordSchema.

Lemma convert_fields_ok (members : list (str * converter)) (p : path)
  (fs : list FieldSpec) (fields : list value) :
  Forall2 (fun f v => member (f_name f) members
                      = Some (convert schemas (to_json schemas v))) fs fields ->
  Forall (converts schemas) fields ->
  forallb (fun f => unambiguous (f_type f)) fs = true ->
  all2 (fun c f => c (f_type f)) (map (has_type schemas) fields) fs = true ->
  all2 (fun x f => satisfies x (f_constraints f)) fields fs = true ->
  convert_fields fs members p = ok fields.
Proof.
  intros Hfound. induction Hfound as [|f v fs fields Hf _ IH];
    intros Hconv Hclear Htyped Hsat; [reflexivity|].
  inversion Hconv as [|? ? Hv Hrest]; subst.
  cbn [map all2 forallb] in Hclear, Htyped, Hsat.
  apply andb_prop in Hclear. destruct Hclear as [Hc Hclear].
  apply andb_prop in Htyped. destruct Htyped as [Ht Htyped].
  apply andb_prop in Hsat. destruct Hsat as [Hs Hsat].
  cbn [convert_fields]. rewrite Hf, (Hv _ _ Hc Ht).
  unfold ok at 1. cbn [bind]. rewrite (validate_ok _ _ _ Hs).
  unfold ok at 1. cbn [bind]. unfold ok at 1. cbn [bind].
  rewrite (IH Hrest Hclear Htyped Hsat). reflexivity.
Qed.

Lemma record_keys_known (s : RecordSchema) (fields : list value) :
  Forall (fun kc => negb (known s (fst kc)) = false)
    (converters schemas (record_members schemas s fields)).
Proof.
  unfold converters, record_members. rewrite map_app. apply Forall_app. split.
  - destruct (s_tagged s) eqn:Htag; [|constructor].
    constructor; [|constructor]. cbn [fst]. unfold known.
    rewrite Htag, str_eqb_refl, orb_true_r. reflexivity.
  - apply Forall_map.
    eapply Forall_impl; [|apply combine_keys]. cbn [fst].
    intros [k j] Hin. cbn [fst] in *. unfold known.
    apply in_map_iff in Hin. destruct Hin as (f & Hname & Hin).
    assert (Hex : existsb (fun f => str_eqb (f_name f) k) (s_fields s) = true).
    { apply existsb_exists. exists f. split; [exact Hin|].
      rewrite Hname. apply str_eqb_refl. }
    rewrite Hex. reflexivity.
Qed.

Lemma record_member_found (s : RecordSchema) (fields : list value) :
  well_formed s = true -> List.length fields = List.length (s_fields s) ->
  Forall2 (fun f v => member (f_name f) (converters schemas (record_members schemas s fields))
                      = Some (convert schemas (to_json schemas v)))
    (s_fields s) fields.
Proof.
  intros Hwf Hlen. unfold well_formed in Hwf.
  apply andb_prop in Hwf. destruct Hwf as [Hd _].
  assert (Hl : List.length (map f_name (s_fields s))
               = List.length (map (to_json schemas) fields))
    by (rewrite !length_map; congruence).
  pose proof (member_found _ _ Hd Hl) as Hfound.
  apply Forall2_maps in Hfound.
  eapply Forall2_impl; [|exact Hfound]. cbn beta.
  intros f v Hm. unfold converters, record_members.
  rewrite (member_map (convert schemas)), member_app, Hm. reflexivity.
Qed.

(** The fields of a well-typed record convert back, whatever the path. *)
Lemma convert_record_ok (id : nat) (s : RecordSchema) (fields : list value)
  (p : path) :
  nth_error schemas id = Some s -> well_formed s = true ->
  unambiguous_schema s = true ->
  Forall (converts schemas) fields ->
  all2 (fun c f => c (f_type f)) (map (has_type schemas) fields) (s_fields s) = true ->
  all2 (fun x f => satisfies x (f_constraints f)) fields (s_fields s) = true ->
  convert_record schemas id (converters schemas (record_members schemas s fields)) p
  = ok (VRecord id fields).
Proof.
  intros Hs Hwf Hclear Hconv Htyped Hsat.
  pose proof (all2_length _ _ _ Hsat) as Hlen.
  unfold convert_record. rewrite Hs.
  rewrite (convert_fields_ok _ p _ _ (record_member_found s fields Hwf Hlen)
             Hconv Hclear Htyped Hsat).
  unfold ok at 1. cbn [bind].
  destruct (s_forbid_unknown_fields s); [|reflexivity].
  rewrite (find_none _ _ (record_keys_known s fields)). reflexivity.
Qed.

End Records.

(** *** Unions *)

(** Every member of a built table is tagged under the table's field. *)
Lemma union_entries_member (schemas : list RecordSchema) (field : str)
  (members : list nat) : forall entries id s,
  union_entries schemas field members = ok entries ->
  In id members -> nth_error schemas id = Some s ->
  s_tagged s = true /\ s_tag_field s = field.
Proof.
  induction members as [|m members IH]; intros entries id s Hb Hin Hs.
  - destruct Hin.
  - cbn [union_entries] in Hb.
    destruct (nth_error schemas m) as [sm|] eqn:Hm; [|discriminate].
    destruct (s_tagged sm) eqn:Htag; [|discriminate]. cbn [negb] in Hb.
    destruct (str_eqb (s_tag_field sm) field) eqn:Hfield; [|discriminate].
    cbn [negb] in Hb.
    destruct (union_entries schemas field members) as [e|rest] eqn:Hr;
      [discriminate|].
    destruct Hin as [->|Hin].
    + rewrite Hs in Hm. injection Hm as <-.
      split; [exact Htag | apply str_eqb_eq, Hfield].
    + exact (IH rest id s eq_refl Hin Hs).
Qed.

(** *** The converter on the tree of a value *)

Section Converting.

Variable schemas : list RecordSchema.
Hypothesis schemas_well_formed : forallb well_formed schemas = true.
Hypothesis schemas_unambiguous : forallb unambiguous_schema schemas = true.

Lemma schema_well_formed (id : nat) (s : RecordSchema) :
  nth_error schemas id = Some s -> well_formed s = true.
Proof.
  intros H. apply nth_error_In in H.
  exact (proj1 (forallb_forall _ _) schemas_well_formed s H).
Qed.

Lemma schema_unambiguous (id : nat) (s : RecordSchema) :
  nth_error schemas id = Some s -> unambiguous_schema s = true.
Proof.
  intros H. apply nth_error_In in H.
  exact (proj1 (forallb_forall _ _) schemas_unambiguous s H).
Qed.

Lemma has_type_scalar (v : value) (k : kind) :
  has_type schemas v (Scalar k) = scalar_of k v.
Proof. destruct v; reflexivity. Qed.

Lemma has_type_choice (v : value) (kinds : list kind) :
  has_type schemas v (Choice kinds)
  = distinct_shapes kinds && existsb (fun k => scalar_of k v) kinds.
Proof. destruct v; reflexivity. Qed.

Lemma has_type_optional (v : value) (inner : TypeNode) :
  has_type schemas v (Optional inner) = is_none v || has_type schemas v inner.
Proof. destruct v; reflexivity. Qed.

(** Under a type that is not nullable, no instance is written as null. *)
Lemma not_null (v : value) (t : TypeNode) :
  nullable t = false -> has_type schemas v t = true ->
  is_null (to_json schemas v) = false.
Proof.
  destruct v; try reflexivity.
  - destruct t; try discriminate; intros _; cbn [has_type].
    + destruct k; discriminate.
    + rewrite no_scalar, andb_false_r; [discriminate|].
      intros k. destruct k; reflexivity.
  - intros _ _. cbn [to_json]. destruct (nth_error schemas schema); reflexivity.
  - destruct t; try discriminate; intros _; cbn [has_type].
    + destruct k; discriminate.
    + rewrite no_scalar, andb_false_r; [discriminate|].
      intros k. destruct k; reflexivity.
Qed.

Lemma convert_scalar_eq (j : json) (k : kind) (p : path) :
  convert schemas j (Scalar k) p = convert_scalar k j p.
Proof. destruct j; reflexivity. Qed.

Lemma convert_choice_eq (j : json) (kinds : list kind) (p : path) :
  convert schemas j (Choice kinds) p = convert_choice kinds j p.
Proof. destruct j; reflexivity. Qed.

Lemma convert_any (j : json) (p : path) : convert schemas j Any p = ok (VAny j).
Proof. destruct j; reflexivity. Qed.

Lemma convert_optional (j : json) (inner : TypeNode) (p : path) :
  is_null j = false -> convert schemas j (Optional inner) p = convert schemas j inner p.
Proof. destruct j; (discriminate || reflexivity). Qed.

Lemma convert_sequence (l : list json) (element : TypeNode) (p : path) :
  convert schemas (JArr l) (Sequence element) p =
  (vs <- traverse (fun i c => c element (p ++ [Index i])) 0 (map (convert schemas) l) ;;
   ok (VSeq vs)).
Proof. reflexivity. Qed.

Lemma convert_tuple (l : list json) (elements : list TypeNode) (p : path) :
  convert schemas (JArr l) (Tuple elements) p =
  if (List.length (map (convert schemas) l) =? List.length elements)%nat then
    vs <- traverse (fun i ce => fst ce (snd ce) (p ++ [Index i])) 0
            (combine (map (convert schemas) l) elements) ;;
    ok (VTuple vs)
  else err (TypeError p).
Proof. reflexivity. Qed.

Lemma convert_mapping (raw : list (str * json)) (element : TypeNode) (p : path) :
  convert schemas (JObj raw) (Mapping element) p =
  (es <- traverse
           (fun _ kc => v <- snd kc element (p ++ [Key (fst kc)]) ;; ok (fst kc, v))
           0 (converters schemas raw) ;;
   ok (VMap es)).
Proof. reflexivity. Qed.

Lemma sequence_converts (items : list value) (element : TypeNode) (p : path) :
  Forall (converts schemas) items ->
  unambiguous element = true ->
  has_type schemas (VSeq items) (Sequence element) = true ->
  convert schemas (to_json schemas (VSeq items)) (Sequence element) p
  = ok (VSeq items).
Proof.
  intros Hall Hc H. cbn [has_type] in H. apply forallb_map_Forall in H.
  cbn [to_json]. rewrite convert_sequence, map_map.
  rewrite (traverse_map_ok (fun x => convert schemas (to_json schemas x)) _ items items);
    [reflexivity|].
  apply Forall2_diag.
  eapply Forall_impl; [|exact (Forall_and _ _ _ Hall H)].
  intros x [Hx Ht] i. apply Hx; [exact Hc | exact Ht].
Qed.

Lemma tuple_items (p : path) (items : list value) :
  Forall (converts schemas) items ->
  forall (elements : list TypeNode) (i : nat),
    forallb unambiguous elements = true ->
    all2 (fun c t => c t) (map (has_type schemas) items) elements = true ->
    traverse (fun i ce => fst ce (snd ce) (p ++ [Index i])) i
      (combine (map (convert schemas) (map (to_json schemas) items)) elements)
    = ok items.
Proof.
  intros Hall. induction Hall as [|x items Hx _ IH];
    intros [|t elements] i Hc H; try discriminate; [reflexivity|].
  cbn [forallb] in Hc. apply andb_prop in Hc. destruct Hc as [Hct Hc].
  cbn [map all2] in H. apply andb_prop in H. destruct H as [Ht H].
  cbn [map combine traverse fst snd]. rewrite (Hx _ _ Hct Ht).
  unfold ok at 1. cbn [bind]. rewrite (IH _ _ Hc H). reflexivity.
Qed.

Lemma tuple_converts (items : list value) (elements : list TypeNode) (p : path) :
  Forall (converts schemas) items ->
  forallb unambiguous elements = true ->
  has_type schemas (VTuple items) (Tuple elements) = true ->
  convert schemas (to_json schemas (VTuple items)) (Tuple elements) p
  = ok (VTuple items).
Proof.
  intros Hall Hc H. cbn [has_type] in H.
  pose proof (all2_length _ _ _ H) as Hlen. rewrite length_map in Hlen.
  cbn [to_json]. rewrite convert_tuple, !length_map, Hlen, Nat.eqb_refl.
  rewrite (tuple_items p items Hall elements 0 Hc H). reflexivity.
Qed.

Lemma mapping_converts (entries : list (str * value)) (element : TypeNode)
  (p : path) :
  Forall (fun kv => converts schemas (snd kv)) entries ->
  unambiguous element = true ->
  has_type schemas (VMap entries) (Mapping element) = true ->
  convert schemas (to_json schemas (VMap entries)) (Mapping element) p
  = ok (VMap entries).
Proof.
  intros Hall Hc H. cbn [has_type] in H. apply forallb_map_Forall in H.
  cbn [to_json]. rewrite convert_mapping. unfold converters. rewrite map_map.
  rewrite (traverse_map_ok
             (fun kv => (fst (fst kv, to_json schemas (snd kv)),
                         convert schemas (snd (fst kv, to_json schemas (snd kv)))))
             _ entries entries); [reflexivity|].
  apply Forall2_diag.
  eapply Forall_impl; [|exact (Forall_and _ _ _ Hall H)].
  intros [k v] [Hx Ht] i. cbn [fst snd] in *.
  rewrite (Hx _ _ Hc Ht). reflexivity.
Qed.

Lemma to_json_record (id : nat) (s : RecordSchema) (fields : list value) :
  nth_error schemas id = Some s ->
  to_json schemas (VRecord id fields) = JObj (record_members schemas s fields).
Proof. intros H. cbn [to_json]. rewrite H. reflexivity. Qed.

Lemma record_typed (id : nat) (fields : list value) :
  match nth_error schemas id with
  | Some s =>
      all2 (fun c f => c (f_type f)) (map (has_type schemas) fields) (s_fields s)
      && all2 (fun x f => satisfies x (f_constraints f)) fields (s_fields s)
  | None => false
  end = true ->
  exists s, nth_error schemas id = Some s
    /\ all2 (fun c f => c (f_type f)) (map (has_type schemas) fields) (s_fields s) = true
    /\ all2 (fun x f => satisfies x (f_constraints f)) fields (s_fields s) = true.
Proof.
  destruct (nth_error schemas id) as [s|]; [|discriminate].
  intros H. apply andb_prop in H. exists s. split; [reflexivity | exact H].
Qed.

Lemma record_converts (id id' : nat) (fields : list value) (p : path) :
  Forall (converts schemas) fields ->
  has_type schemas (VRecord id' fields) (RecordRef id) = true ->
  convert schemas (to_json schemas (VRecord id' fields)) (RecordRef id) p
  = ok (VRecord id' fields).
Proof.
  intros Hall H. cbn [has_type] in H.
  apply andb_prop in H. destruct H as [Hid H].
  apply Nat.eqb_eq in Hid. subst id'.
  destruct (record_typed _ _ H) as (s & Hs & Htyped & Hsat).
  rewrite (to_json_record _ _ _ Hs), convert_record_ref.
  exact (convert_record_ok schemas id s fields p Hs (schema_well_formed _ _ Hs)
           (schema_unambiguous _ _ Hs) Hall Htyped Hsat).
Qed.

Lemma union_converts (ids : list nat) (id : nat) (fields : list value) (p : path) :
  Forall (converts schemas) fields ->
  has_type schemas (VRecord id fields) (Union ids) = true ->
  convert schemas (to_json schemas (VRecord id fields)) (Union ids) p
  = ok (VRecord id fields).
Proof.
  intros Hall H. cbn [has_type] in H.
  apply andb_prop in H. destruct H as [H Hrec].
  apply andb_prop in H. destruct H as [Hin Hbuilds].
  apply existsb_exists in Hin. destruct Hin as (id0 & Hin & Heq).
  apply Nat.eqb_eq in Heq. subst id0.
  destruct (record_typed _ _ Hrec) as (s & Hs & Htyped & Hsat).
  unfold builds in Hbuilds.
  destruct (build_union_table schemas ids) as [e|table] eqn:Hb; [discriminate|].
  pose proof (build_union_table_entries _ _ _ Hb) as He.
  destruct (union_entries_member _ _ _ _ _ _ He Hin Hs) as [Htag Hfield].
  pose proof (union_entries_complete _ _ _ _ _ _ He Hin Hs) as Hl.
  pose proof (schema_well_formed _ _ Hs) as Hwf.
  rewrite (to_json_record _ _ _ Hs), convert_union, Hb.
  unfold ok at 1. cbn [bind].
  assert (Hm : member (u_field table) (record_members schemas s fields)
               = Some (JStr (s_tag_value s))).
  { unfold record_members. rewrite Htag, member_app, <- Hfield.
    unfold well_formed in Hwf. apply andb_prop in Hwf. destruct Hwf as [_ Hno].
    rewrite Htag in Hno. cbn [andb] in Hno. apply negb_true_iff in Hno.
    rewrite (member_absent _ _ _ Hno). cbn [member].
    destruct (list_eq_dec N.eq_dec (s_tag_field s) (s_tag_field s));
      [reflexivity | congruence]. }
  rewrite Hm. unfold resolve. rewrite Hl. unfold ok at 1. cbn [bind].
  exact (convert_record_ok schemas id s fields p Hs Hwf (schema_unambiguous _ _ Hs)
           Hall Htyped Hsat).
Qed.

(** Converting the tree of a typed instance gives the instance. *)
Lemma convert_to_json (v : value) : converts schemas v.
Proof.
  induction v as [|b|z|f|s|s|ts|uid|items IH|items IH|entries IH|id fields IH|j]
    using value_induction;
    intros t; induction t as [k|el _|el _|inner IHt|id'|ids|els|ks|]; intros p Hc H;
    try (rewrite has_type_scalar in H; rewrite convert_scalar_eq;
         apply convert_scalar_ok; exact H);
    try (rewrite has_type_choice in H; apply andb_prop in H;
         rewrite convert_choice_eq; apply convert_choice_ok; apply H);
    try (cbn [unambiguous] in Hc; apply andb_prop in Hc; destruct Hc as [Hn Hc];
         apply negb_true_iff in Hn;
         rewrite has_type_optional in H; apply orb_prop in H;
         destruct H as [H|H];
         [first [discriminate H | reflexivity]
         |rewrite (convert_optional _ _ _ (not_null _ _ Hn H));
          apply IHt; [exact Hc | exact H]]);
    try (cbn [has_type] in H; discriminate H).
  - apply sequence_converts; assumption.
  - apply tuple_converts; assumption.
  - apply mapping_converts; assumption.
  - apply record_converts; assumption.
  - apply union_converts; assumption.
  - rewrite convert_any. reflexivity.
Qed.

End Converting.

(** *** The tree of a value with numbers for floats *)

Lemma forallb_combine {A} (f : A -> bool) (names : list str) : forall (xs : list A),
  forallb f xs = true -> forallb (fun kv => f (snd kv)) (combine names xs) = true.
Proof.
  induction names as [|n names IH]; intros [|x xs] H; try reflexivity.
  cbn [forallb] in H. apply andb_prop in H. destruct H as [Hx Hxs].
  cbn [combine forallb snd]. rewrite Hx, (IH xs Hxs). reflexivity.
Qed.

Lemma forallb_map_impl {A B} (f : A -> bool) (g : B -> bool) (h : A -> B)
  (l : list A) :
  Forall (fun a => f a = true -> g (h a) = true) l ->
  forallb f l = true -> forallb g (map h l) = true.
Proof.
  intros H. induction H as [|a l Ha _ IH]; intros Hf; [reflexivity|].
  cbn [forallb] in Hf. apply andb_prop in Hf. destruct Hf as [Hfa Hfl].
  cbn [map forallb]. rewrite (Ha Hfa), (IH Hfl). reflexivity.
Qed.

Lemma to_json_finite (schemas : list RecordSchema) (v : value) :
  finite_value v = true -> finite_json (to_json schemas v) = true.
Proof.
  induction v as [|b|z|f|s|s|s|s|items IH|items IH|entries IH|id fields IH|j]
    using value_induction; intros H; try reflexivity; try exact H.
  - cbn [finite_value] in H. cbn [to_json finite_json].
    exact (forallb_map_impl _ _ _ _ IH H).
  - cbn [finite_value] in H. cbn [to_json finite_json].
    exact (forallb_map_impl _ _ _ _ IH H).
  - cbn [finite_value] in H. cbn [to_json finite_json].
    apply (forallb_map_impl (fun kv => finite_value (snd kv))
             (fun kv => finite_json (snd kv))
             (fun kv => (fst kv, to_json schemas (snd kv))) entries); [|exact H].
    eapply Forall_impl; [|exact IH]. intros [k x] Hx. exact Hx.
  - cbn [finite_value] in H. cbn [to_json].
    destruct (nth_error schemas id) as [s|]; [|reflexivity].
    cbn [finite_json]. rewrite forallb_app. apply andb_true_intro. split.
    + destruct (s_tagged s); reflexivity.
    + apply forallb_combine. exact (forallb_map_impl _ _ _ _ IH H).
Qed.

End TypingFacts.

(** ** The text of a tagged record *)

Module EncodingClaims.
Import Text Core CoreSpec CoreFacts JsonFacts TypingFacts.
Local Open Scope list_scope.
Local Open Scope core_scope.

Lemma map_fst_combine {A B} (l : list A) : forall (l' : list B),
  List.length l = List.length l' -> map fst (combine l l') = l.
Proof.
  induction l as [|a l IH]; intros [|b l'] H; try discriminate; [reflexivity|].
  cbn [combine map fst]. f_equal. apply IH. injection H as H. exact H.
Qed.

Lemma map_snd_combine {A B} (l : list A) : forall (l' : list B),
  List.length l = List.length l' -> map snd (combine l l') = l'.
Proof.
  induction l as [|a l IH]; intros [|b l'] H; try discriminate; [reflexivity|].
  cbn [combine map snd]. f_equal. apply IH. injection H as H. exact H.
Qed.

(** The parts after the first each follow a separator. *)
Lemma join_cons (sep p : str) (rest : list str) :
  join sep (p :: rest) = p ++ flat_map (fun q => sep ++ q) rest.
Proof.
  revert p. induction rest as [|q rest IH]; intros p.
  - cbn [join flat_map]. rewrite app_nil_r. reflexivity.
  - change (join sep (p :: q :: rest)) with (p ++ sep ++ join sep (q :: rest)).
    rewrite IH. cbn [flat_map]. rewrite <- app_assoc. reflexivity.
Qed.

Lemma flat_map_members (schemas : list RecordSchema) (fs : list FieldSpec) :
  forall fields : list value,
  flat_map (fun q => [ch ","] ++ q)
    (map (fun kv => write_string (fst kv) ++ ch ":" :: write (snd kv))
       (combine (map f_name fs) (map (to_json schemas) fields)))
  = flat_map (fun fv => lit "," ++ write_string (f_name (fst fv)) ++ lit ":"
                        ++ encode schemas (snd fv))
      (combine fs fields).
Proof.
  induction fs as [|f fs IH]; intros [|v fields]; try reflexivity.
  cbn [map combine flat_map fst snd]. rewrite IH. reflexivity.
Qed.

(** Claim C7.  A record declared tagged with no override has the
    discriminant field "type" and its declared name as discriminant value.
    The text encoded for an instance of it is an object that starts with
    the member "type" with that name, followed by one member for each
    declared field, in declaration order, with the field's name and the
    text encoded for the field's value; and reading that text gives an
    object whose first key is "type" and whose other keys are the declared
    field names in declaration order. *)
Theorem tagged_record_encoding (decls : list declaration) (id : nat)
  (d : declaration) (fields : list value) :
  nth_error decls id = Some d ->
  d_tag d = Tagged None None ->
  List.length fields = List.length (d_fields d) ->
  s_tagged (register d) = true /\
  s_tag_field (register d) = lit "type" /\
  s_tag_value (register d) = d_name d /\
  encode (map register decls) (VRecord id fields) =
    lit "{" ++ write_string (lit "type") ++ lit ":" ++ write_string (d_name d)
    ++ flat_map (fun fv => lit "," ++ write_string (f_name (fst fv)) ++ lit ":"
                           ++ encode (map register decls) (snd fv))
         (combine (d_fields d) fields)
    ++ lit "}" /\
  (finite_value (VRecord id fields) = true ->
   exists members,
     read (encode (map register decls) (VRecord id fields))
       = ok (JObj ((lit "type", JStr (d_name d)) :: members)) /\
     map fst members = map f_name (d_fields d) /\
     map snd members = map (to_json (map register decls)) fields).
Proof.
  intros Hd Ht Hlen.
  assert (Hs : nth_error (map register decls) id = Some (register d))
    by exact (map_nth_error register _ _ Hd).
  assert (Hl : List.length (map f_name (d_fields d))
               = List.length (map (to_json (map register decls)) fields))
    by (rewrite !length_map; congruence).
  assert (Hj : to_json (map register decls) (VRecord id fields)
               = JObj ((lit "type", JStr (d_name d))
                       :: combine (map f_name (d_fields d))
                            (map (to_json (map register decls)) fields))).
  { cbn [to_json]. rewrite Hs. unfold register. rewrite Ht. reflexivity. }
  unfold register at 1 2 3. rewrite Ht. cbn [s_tagged s_tag_field s_tag_value].
  split; [reflexivity|]. split; [reflexivity|]. split; [reflexivity|]. split.
  - unfold encode at 1. rewrite Hj. cbn [write map fst snd].
    rewrite join_cons, flat_map_members.
    change (write (JStr (d_name d))) with (write_string (d_name d)).
    cbn [lit list_ascii_of_string map app]. rewrite <- !app_assoc. reflexivity.
  - intros Hf. eexists. unfold encode. split.
    + rewrite (read_write _ (to_json_finite _ _ Hf)), Hj. reflexivity.
    + split; [exact (map_fst_combine _ _ Hl) | exact (map_snd_combine _ _ Hl)].
Qed.

Lemma tagged_record_encoding_witness :
  GeoJSON.dumps
    (VRecord GeoJSON.Feature_id
       [VRecord GeoJSON.Point_id [VTuple [VFloat 1; VFloat 2]]; VNone; VInt 7])
  = js "{'type':'Feature','geometry':{'type':'Point','coordinates':[1.0,2.0]},'properties':null,'id':7}" /\
  exists members,
    read (GeoJSON.dumps
            (VRecord GeoJSON.Feature_id
               [VRecord GeoJSON.Point_id [VTuple [VFloat 1; VFloat 2]]; VNone; VInt 7]))
    = ok (JObj ((lit "type", JStr (lit "Feature")) :: members)) /\
    map fst members = [lit "geometry"; lit "properties"; lit "id"].
Proof.
  destruct (tagged_record_encoding GeoJSON.declarations GeoJSON.Feature_id
              GeoJSON.Feature
              [VRecord GeoJSON.Point_id [VTuple [VFloat 1; VFloat 2]]; VNone; VInt 7]
              eq_refl eq_refl eq_refl)
    as (_ & _ & _ & Htext & Hread).
  split.
  - unfold GeoJSON.dumps, GeoJSON.schemas. rewrite Htext. vm_compute. reflexivity.
  - destruct (Hread eq_refl) as (members & Hr & Hk & _).
    exists members. split; [exact Hr | exact Hk].
Defined.

End EncodingClaims.

(** ** Decoding what was encoded *)

Module CodecClaims.
Import Text Core CoreSpec JsonFacts TypingFacts.
Local Open Scope list_scope.
Local Open Scope core_scope.

(** Reading the text of the tree of a typed instance whose floats are
    numbers gives the tree, and converting the tree gives the instance. *)
Lemma decode_encode (schemas : list RecordSchema) (t : TypeNode) (v : value) :
  forallb well_formed schemas = true ->
  forallb unambiguous_schema schemas = true ->
  unambiguous t = true ->
  has_type schemas v t = true ->
  finite_value v = true ->
  decode schemas t (encode schemas v) = ok v.
Proof.
  intros Hwf Hclear Ht Hv Hf.
  unfold decode, encode.
  rewrite (read_write _ (to_json_finite schemas v Hf)).
  unfold ok at 1. cbn [bind].
  exact (convert_to_json schemas Hwf Hclear v t [] Ht Hv).
Qed.




(** An infinity has no text either. *)
Example infinity_has_no_text :
  has_type GeoJSON.schemas
    (VRecord GeoJSON.Point_id [VTuple [VFloat infinity; VFloat 0]])
    GeoJSON.GeoJSON = true /\
  GeoJSON.loads
    (GeoJSON.dumps (VRecord GeoJSON.Point_id [VTuple [VFloat infinity; VFloat 0]]))
    = err (TypeError [Key (lit "coordinates"); Index 0]).
Proof. split; vm_compute; reflexivity. Qed.

(** The ambiguity the claim excludes: under an optional type, a value
    written as null is read as the absent value. *)
Example null_reads_as_absent :
  has_type GeoJSON.schemas (VAny JNull) (Optional Any) = true /\
  unambiguous (Optional Any) = false /\
  decode GeoJSON.schemas (Optional Any) (encode GeoJSON.schemas (VAny JNull))
    = ok VNone.
Proof. repeat split; vm_compute; reflexivity. Qed.

(** A timestamp in UTC is written with the suffix Z, however it was read;
    any other with its offset; a unique identifier in lower case. *)
Example special_scalars_texts :
  option_map (encode []) 
    (option_map VTimestamp (read_timestamp (lit "2026-11-03 21:21:00.5+00:00")))
    = Some (js "'2026-11-03T21:21:00.500000Z'") /\
  option_map (encode [])
    (option_map VTimestamp (read_timestamp (lit "2026-11-03T21:21:00-05:30")))
    = Some (js "'2026-11-03T21:21:00-05:30'") /\
  option_map (encode [])
    (option_map VUuid (read_uuid (lit "3F2B8C1E-5D4A-4B7E-9C0F-1A2B3C4D5E6F")))
    = Some (js "'3f2b8c1e-5d4a-4b7e-9c0f-1a2b3c4d5e6f'").
Proof. repeat split; vm_compute; reflexivity. Qed.

End CodecClaims.

(** ** The order of floats *)

Module FloatOrder.
Import FloatSpec FloatFacts.
Local Open Scope float_scope.

Lemma SFcompare_rank (f1 f2 : spec_float) :
  SFcompare f1 f2 =
  match rank f1, rank f2 with
  | Some r1, Some r2 => Some (lex r1 r2)
  | _, _ => None
  end.
Proof.
  destruct f1 as [s1|s1| |s1 m1 e1], f2 as [s2|s2| |s2 m2 e2];
    try destruct s1; try destruct s2; cbn [SFcompare rank lex]; try reflexivity.
  rewrite Z.compare_opp, (Z.compare_antisym e1 e2).
  change (Z.neg m1 ?= Z.neg m2)%Z with (CompOpp (m1 ?= m2)%positive).
  destruct (e1 ?= e2)%Z; reflexivity.
Qed.

Lemma lex_lt (a b : Z * Z * Z) : lex a b = Lt <-> before a b.
Proof.
  destruct a as [[a1 a2] a3], b as [[b1 b2] b3]. unfold lex, before.
  destruct (Z.compare_spec a1 b1); destruct (Z.compare_spec a2 b2);
    destruct (Z.compare_spec a3 b3); split; intros Hlex; try discriminate;
    try reflexivity; lia.
Qed.

Lemma before_trans (a b c : Z * Z * Z) : before a b -> before b c -> before a c.
Proof.
  destruct a as [[a1 a2] a3], b as [[b1 b2] b3], c as [[c1 c2] c3].
  unfold before. lia.
Qed.

Lemma before_total (a b c : Z * Z * Z) : before c b -> ~ before a b -> before c a.
Proof.
  destruct a as [[a1 a2] a3], b as [[b1 b2] b3], c as [[c1 c2] c3].
  unfold before. lia.
Qed.

(** [x < y] on floats, with the triples. *)
Lemma ltb_rank (x y : float) :
  (x <? y) = true <->
  exists rx ry, rank (Prim2SF x) = Some rx /\ rank (Prim2SF y) = Some ry
                /\ before rx ry.
Proof.
  rewrite ltb_spec. unfold SFltb. rewrite SFcompare_rank.
  destruct (rank (Prim2SF x)) as [rx|], (rank (Prim2SF y)) as [ry|]; split;
    try discriminate; try (intros (? & ? & ? & ? & ?); discriminate).
  - intros H. exists rx, ry. repeat split. apply lex_lt.
    destruct (lex rx ry); (reflexivity || discriminate).
  - intros (rx' & ry' & Hx & Hy & Hb). injection Hx as <-. injection Hy as <-.
    apply lex_lt in Hb. rewrite Hb. reflexivity.
Qed.

Lemma rank_number (x : float) :
  is_nan x = false -> exists r, rank (Prim2SF x) = Some r.
Proof.
  rewrite is_nan_spec. destruct (Prim2SF x); intros H; try discriminate;
    eexists; reflexivity.
Qed.

Lemma ltb_number (x y : float) : (x <? y) = true -> is_nan x = false /\ is_nan y = false.
Proof.
  intros H. apply ltb_rank in H. destruct H as (rx & ry & Hx & Hy & _).
  rewrite !is_nan_spec.
  destruct (Prim2SF x); try discriminate; destruct (Prim2SF y); try discriminate;
    split; reflexivity.
Qed.

(** [<] is transitive. *)
Lemma ltb_trans (x y z : float) :
  (x <? y) = true -> (y <? z) = true -> (x <? z) = true.
Proof.
  intros H1 H2. apply ltb_rank in H1, H2. apply ltb_rank.
  destruct H1 as (rx & ry & Hx & Hy & Hxy), H2 as (ry' & rz & Hy' & Hz & Hyz).
  rewrite Hy in Hy'. injection Hy' as <-.
  exists rx, rz. repeat split; try assumption. exact (before_trans _ _ _ Hxy Hyz).
Qed.

(** What is below a number [y] is below every number that is not below [y]. *)
Lemma ltb_below (x y z : float) :
  (z <? y) = true -> (x <? y) = false -> is_nan x = false -> (z <? x) = true.
Proof.
  intros H1 H2 Hx. apply ltb_rank in H1. apply ltb_rank.
  destruct H1 as (rz & ry & Hz & Hy & Hzy).
  destruct (rank_number x Hx) as [rx Hrx].
  exists rz, rx. repeat split; try assumption.
  apply (before_total rx ry rz Hzy). intros Hb.
  assert (Hlt : (x <? y) = true) by (apply ltb_rank; exists rx, ry; auto).
  congruence.
Qed.

Lemma ltb_leb (x y : float) : (x <? y) = true -> (x <=? y) = true.
Proof.
  rewrite ltb_spec, leb_spec. unfold SFltb, SFleb.
  destruct (SFcompare (Prim2SF x) (Prim2SF y)) as [[| |]|]; congruence.
Qed.

(** For numbers, [x <= y] is the negation of [y < x]. *)
Lemma leb_not_ltb (x y : float) :
  is_nan x = false -> is_nan y = false -> (x <=? y) = negb (y <? x).
Proof.
  intros Hx Hy. rewrite ltb_spec, leb_spec. unfold SFltb, SFleb.
  rewrite !SFcompare_rank.
  destruct (rank_number x Hx) as [rx ->], (rank_number y Hy) as [ry ->].
  destruct rx as [[a1 a2] a3], ry as [[b1 b2] b3]. unfold lex.
  rewrite (Z.compare_antisym a1 b1), (Z.compare_antisym a2 b2),
    (Z.compare_antisym a3 b3).
  destruct (a1 ?= b1)%Z; cbn [CompOpp]; try reflexivity.
  destruct (a2 ?= b2)%Z; cbn [CompOpp]; try reflexivity.
  destruct (a3 ?= b3)%Z; reflexivity.
Qed.

End FloatOrder.

(** ** The worst case and a zero baseline *)

Module BenchEdges.
Import Py Bench BenchSpec BenchInstant FloatFacts BenchRun FloatSpec FloatOrder.
Local Open Scope string_scope.
Local Open Scope list_scope.
Local Open Scope float_scope.
Local Open Scope bench_scope.

(** *** The worst case *)

Lemma py_max_worst (a b : float) :
  let worst := py_max [a; b] 0 in
  is_nan worst = false /\ (0 <=? worst) = true /\
  (1 <? worst) = (1 <? a) || (1 <? b).
Proof.
  unfold py_max. cbn [fold_left].
  assert (H01 : (0 <? 1) = true) by reflexivity.
  assert (Hone : forall x, (0 <? x) = false -> (1 <? x) = false).
  { intros x H0. destruct (1 <? x) eqn:H1; [|reflexivity].
    rewrite (ltb_trans 0 1 x H01 H1) in H0. discriminate. }
  destruct (0 <? a) eqn:Ha.
  - destruct (ltb_number _ _ Ha) as [_ Hna].
    destruct (a <? b) eqn:Hab.
    + destruct (ltb_number _ _ Hab) as [_ Hnb].
      split; [exact Hnb|]. split; [exact (ltb_leb _ _ (ltb_trans _ _ _ Ha Hab))|].
      destruct (1 <? a) eqn:H1; [|reflexivity].
      exact (ltb_trans _ _ _ H1 Hab).
    + split; [exact Hna|]. split; [exact (ltb_leb _ _ Ha)|].
      destruct (1 <? b) eqn:H1; [|rewrite orb_false_r; reflexivity].
      rewrite (ltb_below a b 1 H1 Hab Hna). reflexivity.
  - rewrite (Hone a Ha). cbn [orb].
    destruct (0 <? b) eqn:Hb.
    + destruct (ltb_number _ _ Hb) as [_ Hnb].
      split; [exact Hnb|]. split; [exact (ltb_leb _ _ Hb) | reflexivity].
    + rewrite (Hone b Hb). repeat split; reflexivity.
Qed.

Lemma classify_low (p : float) :
  is_nan p = false ->
  ((1 <? p) = false <->
   In (_classify_regression p) ["hyperspec faster"; "within 1%"]).
Proof.
  intros Hp. unfold _classify_regression.
  destruct (threshold_table p Hp) as [[Ht Hu]|[[Ht Hu]|[[Ht Hu]|[[Ht Hu]|[Ht Hu]]]]];
    injection Ht as E0 E1 E5 E10; injection Hu as _ U1 _ _;
    rewrite E0, ?E1, ?E5, ?E10, U1; split;
    intros H; try reflexivity; try discriminate; cbn [In] in *;
    try (left; reflexivity); try (right; left; reflexivity);
    repeat (destruct H as [H|H]; try discriminate H); try destruct H.
Qed.

Section Finished.

Variable w : world.
Variable t : nat -> timings.
Hypothesis clock : forall k l n, measure w k l n = Some (t k).
Hypothesis imports : forall l, import_ok w l = true.

Lemma worst_line (a : args) :
  let runs := Z.max 1 (Z.min (arg_runs a) 10) in
  let warmup := Z.max 0 (arg_warmup a) in
  let s := collected t (Z.to_nat runs) (2 * Z.to_nat warmup) in
  let worst := py_max [median_pct (msg_inst s) (hyp_inst s);
                       median_pct (msg_val s) (hyp_val s)] 0 in
  In (Stdout (LWorst worst (_classify_regression worst)))
    (trace (snd (main w a init))).
Proof.
  cbv zeta. rewrite (main_finishes w t clock imports a). cbn [snd trace].
  unfold finished_trace. rewrite !in_app_iff. right. right. right.
  cbn [In]. do 4 right. left. reflexivity.
Qed.

Lemma summary_lines (a : args) :
  let runs := Z.max 1 (Z.min (arg_runs a) 10) in
  let warmup := Z.max 0 (arg_warmup a) in
  let s := collected t (Z.to_nat runs) (2 * Z.to_nat warmup) in
  In (Stdout (summary_line "instantiate" (msg_inst s) (hyp_inst s)))
    (trace (snd (main w a init))) /\
  In (Stdout (summary_line "validate" (msg_val s) (hyp_val s)))
    (trace (snd (main w a init))).
Proof.
  cbv zeta. rewrite (main_finishes w t clock imports a). cbn [snd trace].
  unfold finished_trace. rewrite !in_app_iff. split; right; right; right; cbn [In].
  - right. left. reflexivity.
  - do 2 right. left. reflexivity.
Qed.

End Finished.

(** In a finishing run, the worst-case line carries a percentage that is
    a number and not negative, and the exit status follows it: 1 when it
    exceeds 1.0 and 0 otherwise, that is 0 exactly when the line reads
    "hyperspec faster" or "within 1%". *)
Theorem verdict_follows_worst_case (w : world) (t : nat -> timings) (a : args) :
  (forall l, import_ok w l = true) ->
  (forall k l n, measure w k l n = Some (t k)) ->
  let r := main w a init in
  exists worst : float,
    In (Stdout (LWorst worst (_classify_regression worst))) (trace (snd r)) /\
    is_nan worst = false /\ (0 <=? worst) = true /\
    fst r = ok (if 1 <? worst then 1%Z else 0%Z) /\
    (fst r = ok 0%Z <->
     In (_classify_regression worst) ["hyperspec faster"; "within 1%"]).
Proof.
  intros imports clock r.
  pose proof (worst_line w t clock imports a) as Hline. cbv zeta in Hline.
  set (s := collected t (Z.to_nat (Z.max 1 (Z.min (arg_runs a) 10)))
              (2 * Z.to_nat (Z.max 0 (arg_warmup a)))) in *.
  set (inst := median_pct (msg_inst s) (hyp_inst s)) in *.
  set (val := median_pct (msg_val s) (hyp_val s)) in *.
  destruct (py_max_worst inst val) as (Hnan & Hpos & Hone).
  exists (py_max [inst; val] 0).
  assert (Hstatus : fst r = ok (if 1 <? py_max [inst; val] 0 then 1%Z else 0%Z)).
  { subst r. rewrite (main_finishes w t clock imports a). cbn [fst].
    fold s. fold inst. fold val. rewrite Hone. reflexivity. }
  split; [exact Hline|]. split; [exact Hnan|]. split; [exact Hpos|].
  split; [exact Hstatus|].
  rewrite Hstatus, <- (classify_low _ Hnan).
  destruct (1 <? py_max [inst; val] 0); split; intros H; try reflexivity;
    discriminate.
Qed.

Lemma verdict_follows_worst_case_witness :
  exists worst : float,
    In (Stdout (LWorst worst (_classify_regression worst)))
      (trace (snd (main demo_world demo_args init))) /\
    is_nan worst = false /\ (0 <=? worst) = true /\
    fst (main demo_world demo_args init) = ok (if 1 <? worst then 1%Z else 0%Z) /\
    (fst (main demo_world demo_args init) = ok 0%Z <->
     In (_classify_regression worst) ["hyperspec faster"; "within 1%"]).
Proof.
  exact (verdict_follows_worst_case demo_world demo_clock demo_args
           (fun _ => eq_refl) (fun _ _ _ => eq_refl)).
Defined.

(** A phase in which the median of msgspec is zero has no percentage: its
    summary line shows NaN under the label "more than 10%", and yet it
    cannot fail the run, whose exit status is then decided by the other
    phase alone. *)
Theorem zero_baseline_never_fails (w : world) (t : nat -> timings) (a : args) :
  (forall l, import_ok w l = true) ->
  (forall k l n, measure w k l n = Some (t k)) ->
  let runs := Z.max 1 (Z.min (arg_runs a) 10) in
  let warmup := Z.max 0 (arg_warmup a) in
  let s := collected t (Z.to_nat runs) (2 * Z.to_nat warmup) in
  let r := main w a init in
  ((median_value (msg_inst s) =? 0) = true ->
   In (Stdout (LSummary "instantiate" (median_value (msg_inst s))
                 (median_value (hyp_inst s)) nan "more than 10%"))
     (trace (snd r)) /\
   fst r = ok (if 1 <? median_pct (msg_val s) (hyp_val s) then 1%Z else 0%Z)) /\
  ((median_value (msg_val s) =? 0) = true ->
   In (Stdout (LSummary "validate" (median_value (msg_val s))
                 (median_value (hyp_val s)) nan "more than 10%"))
     (trace (snd r)) /\
   fst r = ok (if 1 <? median_pct (msg_inst s) (hyp_inst s) then 1%Z else 0%Z)).
Proof.
  intros imports clock runs warmup s r.
  destruct (summary_lines w t clock imports a) as [Hinst Hval].
  cbv zeta in Hinst, Hval. fold runs warmup s r in Hinst, Hval.
  assert (Hstatus : fst r =
            ok (if (1 <? median_pct (msg_inst s) (hyp_inst s))
                   || (1 <? median_pct (msg_val s) (hyp_val s))
                then 1%Z else 0%Z)).
  { subst r. rewrite (main_finishes w t clock imports a). reflexivity. }
  split; intros Hzero.
  - assert (Hpct : median_pct (msg_inst s) (hyp_inst s) = nan).
    { unfold median_pct, pct_value. rewrite Hzero. reflexivity. }
    unfold summary_line in Hinst. rewrite Hpct in Hinst.
    split; [exact Hinst|]. rewrite Hstatus, Hpct. reflexivity.
  - assert (Hpct : median_pct (msg_val s) (hyp_val s) = nan).
    { unfold median_pct, pct_value. rewrite Hzero. reflexivity. }
    unfold summary_line in Hval. rewrite Hpct in Hval.
    split; [exact Hval|]. rewrite Hstatus, Hpct, orb_false_r. reflexivity.
Qed.

Lemma zero_baseline_never_fails_witness :
  In (Stdout (LSummary "instantiate" 0 1.5 nan "more than 10%"))
    (trace (snd (main instant_world demo_args init))) /\
  fst (main instant_world demo_args init) = ok 0%Z.
Proof.
  refine (proj1 (zero_baseline_never_fails instant_world instant_clock demo_args
                   (fun _ => eq_refl) (fun _ _ _ => eq_refl)) _).
  vm_compute. reflexivity.
Defined.

End BenchEdges.

(** ** A call of [_bench_one] that raises *)

Module BenchFailures.
Import Py Bench BenchSpec BenchStops FloatFacts BenchRun BenchClaims BenchVerdict.
Local Open Scope string_scope.
Local Open Scope list_scope.
Local Open Scope float_scope.
Local Open Scope bench_scope.

Lemma stops_same {A} (j : nat) (m : M A) :
  (forall st, calls (snd (m st)) = calls st) -> stops_at j m m.
Proof. intros H st Hst. right. split; [reflexivity | rewrite H; exact Hst]. Qed.

Lemma stops_ret {A} (j : nat) (a : A) : stops_at j (ret a) (ret a).
Proof. apply stops_same. reflexivity. Qed.

Lemma stops_emit (j : nat) (e : event) : stops_at j (emit e) (emit e).
Proof. apply stops_same. reflexivity. Qed.

Lemma stops_lift {A} (j : nat) (r : result A) : stops_at j (lift r) (lift r).
Proof. apply stops_same. reflexivity. Qed.

Lemma stops_bind {A B} (j : nat) (m m' : M A) (k k' : A -> M B) :
  stops_at j m m' -> (forall a, stops_at j (k a) (k' a)) ->
  stops_at j (bind m k) (bind m' k').
Proof.
  intros Hm Hk st Hst. unfold bind.
  destruct (Hm st Hst) as [(Hr & Hc & Ht)|[Heq Hc]].
  - left. destruct (m st) as [[e|a] st1]; cbn [fst snd] in *; [|discriminate].
    injection Hr as ->.
    split; [reflexivity | split; [exact Hc | exact Ht]].
  - rewrite <- Heq. destruct (m st) as [[e|a] st1]; cbn [fst snd] in *.
    + right. split; [reflexivity | exact Hc].
    + exact (Hk a st1 Hc).
Qed.

Lemma stops_for_loop {S} (j : nat) (body body' : Z -> S -> M S) (count : nat) :
  (forall i acc, stops_at j (body i acc) (body' i acc)) ->
  forall i acc, stops_at j (for_loop count i body acc) (for_loop count i body' acc).
Proof.
  intros Hb. induction count as [|count IH]; intros i acc; cbn [for_loop].
  - apply stops_ret.
  - apply stops_bind; [apply Hb | intros acc'; apply IH].
Qed.

Section Failing.

Variable w : world.
Variable t : nat -> timings.
Variable j : nat.
Hypothesis before : forall k l n, (k < j)%nat -> measure w k l n = Some (t k).
Hypothesis fails : forall l n, measure w j l n = None.

Lemma stops_bench (l : lib) (n : Z) :
  stops_at j (_bench_one w l n) (_bench_one (returning w t) l n).
Proof.
  intros st Hst. unfold _bench_one. cbn [measure returning].
  destruct (Nat.eq_dec (calls st) j) as [Heq|Hne].
  - left. rewrite Heq, fails. cbn [fst snd calls trace].
    split; [reflexivity|]. split; [reflexivity|].
    exists l, n, (trace st). reflexivity.
  - right. rewrite before by lia. cbn [fst snd calls]. split; [reflexivity | lia].
Qed.

Lemma stops_summarize (name : string) (msg hyp : list float) :
  stops_at j (summarize name msg hyp) (summarize name msg hyp).
Proof.
  unfold summarize.
  repeat (first [apply stops_ret | apply stops_lift | apply stops_emit
                | apply stops_bind; [|intros ?]]).
Qed.

Ltac stops_step :=
  lazymatch goal with
  | |- stops_at _ (summarize _ _ _) _ => apply stops_summarize
  | |- stops_at _ (for_range _ _ _) _ =>
      unfold for_range; apply stops_for_loop; intros ? ?
  | |- stops_at _ (_bench_one _ _ _) _ => apply stops_bench
  | |- stops_at _ (bind _ _) _ => apply stops_bind; [|intros ?]
  | |- stops_at _ (print _) _ => apply stops_emit
  | |- stops_at _ (eprint _) _ => apply stops_emit
  | |- stops_at _ (ret _) _ => apply stops_ret
  | |- stops_at _ (lift _) _ => apply stops_lift
  | |- stops_at _ (throw _) _ => apply stops_same; reflexivity
  | |- stops_at _ (if ?b then _ else _) _ => destruct b
  | |- stops_at _ (match ?x with _ => _ end) _ => destruct x
  end.

Lemma stops_main (a : args) :
  stops_at j (main w a) (main (returning w t) a).
Proof.
  unfold main, warmup_body, run_body. cbn [import_ok returning]. cbv zeta.
  repeat stops_step.
Qed.

End Failing.

(** [main] does not catch what [_bench_one] raises: when call [j] is the
    first to raise, of the calls a finishing run would make, [main]
    raises, that call is the last thing it does, [j + 1] calls were made,
    and neither verdict is printed. *)
Theorem failure_stops_the_run (w : world) (t : nat -> timings) (a : args)
  (j : nat) :
  (forall l, import_ok w l = true) ->
  (forall k l n, (k < j)%nat -> measure w k l n = Some (t k)) ->
  (forall l n, measure w j l n = None) ->
  (j < 2 * Z.to_nat (Z.max 0 (arg_warmup a))
       + 2 * Z.to_nat (Z.max 1 (Z.min (arg_runs a) 10)))%nat ->
  let r := main w a init in
  fst r = raise BenchFailure /\
  calls (snd r) = S j /\
  (exists l n tr, trace (snd r) = tr ++ [Call l n]) /\
  filter is_text (trace (snd r)) = [].
Proof.
  intros imports before fails Hj r.
  assert (Hr : fst r = raise BenchFailure /\ calls (snd r) = S j /\
               exists l n tr, trace (snd r) = tr ++ [Call l n]).
  { destruct (stops_main w t j before fails a init (Nat.le_0_l j))
      as [H|[Heq Hc]]; [exact H|].
    exfalso. fold r in Heq, Hc. rewrite Heq in Hc.
    rewrite (main_finishes (returning w t) t (fun _ _ _ => eq_refl) imports a) in Hc.
    cbn [snd calls] in Hc. lia. }
  destruct Hr as (Hraise & Hcalls & Hlast).
  split; [exact Hraise|]. split; [exact Hcalls|]. split; [exact Hlast|].
  destruct (judged_main w a (imports msgspec) init eq_refl)
    as [[Hs _]|[[Hs _]|[_ Hq]]]; fold r in Hs || fold r in Hq.
  - rewrite Hraise in Hs. discriminate.
  - rewrite Hraise in Hs. discriminate.
  - exact Hq.
Qed.

Lemma failure_stops_the_run_witness :
  fst (main failing_world demo_args init) = raise BenchFailure /\
  calls (snd (main failing_world demo_args init)) = 4%nat.
Proof.
  destruct (failure_stops_the_run failing_world demo_clock demo_args 3
              (fun _ => eq_refl)) as (Hr & Hc & _).
  - intros [|[|[|k]]] l n Hk; try reflexivity. lia.
  - reflexivity.
  - vm_compute. lia.
  - split; [exact Hr | exact Hc].
Defined.

End BenchFailures.

(** ** The body of [_bench_one]: collector, lengths and timings *)

Module BenchBodyFacts.
Import Text Bench BenchBody.
Local Open Scope list_scope.
Local Open Scope float_scope.
Local Open Scope body_scope.

(** *** The collector *)

Lemma keeps_ret {A} (a : A) : keeps_gc (ret a).
Proof. intros p. reflexivity. Qed.

Lemma keeps_raise {A} (e : error) : keeps_gc (@raise A e).
Proof. intros p. reflexivity. Qed.

Lemma keeps_bind {A B} (m : M A) (k : A -> M B) :
  keeps_gc m -> (forall a, keeps_gc (k a)) -> keeps_gc (bind m k).
Proof.
  intros Hm Hk p. unfold bind. specialize (Hm p).
  destruct (m p) as [[e|a] p']; cbn [snd] in *; [exact Hm|].
  rewrite Hk. exact Hm.
Qed.

Lemma keeps_clock (lib : library) : keeps_gc (time_perf_counter lib).
Proof. intros p. reflexivity. Qed.

Lemma keeps_declare (lib : library) : keeps_gc (declare lib).
Proof. intros p. reflexivity. Qed.

Lemma keeps_new_user (lib : library) (i : Z) : keeps_gc (new_user lib i).
Proof. intros p. reflexivity. Qed.

Lemma keeps_convert (lib : library) (count : Z) : keeps_gc (convert lib count).
Proof. intros p. reflexivity. Qed.

Lemma keeps_check (len n : Z) : keeps_gc (check_length len n).
Proof. unfold check_length. destruct (negb (len =? n)%Z); intros p; reflexivity. Qed.

Lemma keeps_users (lib : library) (count : nat) : forall i, keeps_gc (users lib count i).
Proof.
  induction count as [|count IH]; intros i; cbn [users].
  - apply keeps_ret.
  - apply keeps_bind; [apply keeps_new_user|]. intros u.
    apply keeps_bind; [apply IH|]. intros us. apply keeps_ret.
Qed.

(** A timed block: the collector is disabled while the body runs and is
    as before after it, whether the body returns or raises. *)
Lemma keeps_block {A B} (body : M A) (k : A -> M B) :
  keeps_gc body -> (forall a, keeps_gc (k a)) ->
  keeps_gc (gc_was_enabled <- gc_isenabled ;;
            gc_disable ;;
            x <- try_finally body (if gc_was_enabled then gc_enable else ret tt) ;;
            k x).
Proof.
  intros Hb Hk p. unfold bind at 1 2 3, gc_isenabled, gc_disable, try_finally.
  specialize (Hb {| gc_enabled := false; readings := readings p;
                    did := did p ++ [GcDisable] |}).
  destruct (body _) as [r p']. cbn [snd gc_enabled] in Hb.
  destruct (gc_enabled p) eqn:Hgc.
  - unfold gc_enable. destruct r as [e|a]; [reflexivity|]. rewrite Hk. reflexivity.
  - unfold ret at 1. destruct r as [e|a]; [exact Hb|]. rewrite Hk. exact Hb.
Qed.

(** Whatever the library does and whether the call returns or raises,
    [_bench_one] leaves the collector enabled if it was, and disabled if it
    was. *)
Theorem collector_restored (lib : library) (n : Z) (p : process) :
  gc_enabled (snd (_bench_one lib n p)) = gc_enabled p.
Proof.
  revert p. change (keeps_gc (_bench_one lib n)). unfold _bench_one.
  apply keeps_bind; [apply keeps_declare|]. intros _.
  apply keeps_block.
  { repeat (first [apply keeps_ret | apply keeps_clock | apply keeps_users
                  | apply keeps_check | apply keeps_bind; [|intros ?]]). }
  intros instantiate_s.
  apply keeps_block.
  { repeat (first [apply keeps_ret | apply keeps_clock | apply keeps_convert
                  | apply keeps_check | apply keeps_bind; [|intros ?]]). }
  intros validate_s. apply keeps_ret.
Qed.

(** *** A negative size *)

(** For a negative [n] the list of users is empty and its length is not
    [n]: once the classes and values are there, [_bench_one] raises
    [RuntimeError("unexpected length")] after one reading of the clock,
    having built no user and without getting to the conversion. *)
Theorem negative_size_raises (lib : library) (n : Z) (p : process) :
  (n < 0)%Z -> declares lib = true ->
  _bench_one lib n p =
  (inl (RuntimeError (lit "unexpected length")),
   {| gc_enabled := gc_enabled p;
      readings := S (readings p);
      did := did p ++ [Prepare; GcDisable; Clock]
             ++ (if gc_enabled p then [GcEnable] else []) |}).
Proof.
  intros Hn Hd. destruct n as [|q|q]; try lia.
  unfold _bench_one, bind, declare, gc_isenabled, gc_disable, try_finally,
    time_perf_counter, note. rewrite Hd.
  cbn [Z.to_nat users ret fst snd gc_enabled readings did List.length Z.of_nat
       check_length Z.eqb negb raise].
  destruct (gc_enabled p); cbn [gc_enable ret gc_enabled readings did];
    rewrite <- !app_assoc; reflexivity.
Qed.

Lemma negative_size_raises_witness :
  fst (_bench_one working (-5) fresh) = inl (RuntimeError (lit "unexpected length")) /\
  did (snd (_bench_one working (-5) fresh)) = [Prepare; GcDisable; Clock; GcEnable].
Proof.
  rewrite (negative_size_raises working (-5) fresh); [|lia|reflexivity].
  split; reflexivity.
Defined.

(** *** A call that returns *)

Lemma scores_length (count : nat) : forall i, List.length (scores count i) = count.
Proof.
  induction count as [|count IH]; intros i; [reflexivity|].
  cbn [scores List.length]. rewrite IH. reflexivity.
Qed.

Lemma users_ok (lib : library) (count : nat) : forall (i : Z) (p : process),
  (forall k, (i <= k < i + Z.of_nat count)%Z -> constructs lib k = true) ->
  users lib count i p =
  (inr (scores count i),
   {| gc_enabled := gc_enabled p; readings := readings p;
      did := did p ++ map NewUser (scores count i) |}).
Proof.
  induction count as [|count IH]; intros i p Hc.
  - cbn [users scores map ret]. rewrite app_nil_r. destruct p; reflexivity.
  - cbn [users scores map]. unfold bind at 1, new_user.
    rewrite (Hc i) by lia. unfold bind at 1.
    rewrite IH by (intros k Hk; apply Hc; lia).
    cbn [ret note gc_enabled readings did]. rewrite <- app_assoc. reflexivity.
Qed.

Lemma users_returns (lib : library) (count : nat) : forall (i : Z) (p : process) l,
  fst (users lib count i p) = inr l ->
  forall k, (i <= k < i + Z.of_nat count)%Z -> constructs lib k = true.
Proof.
  induction count as [|count IH]; intros i p l H k Hk; [lia|].
  cbn [users] in H. unfold bind at 1, new_user in H.
  destruct (constructs lib i) eqn:Hi; [|discriminate].
  unfold bind at 1 in H.
  destruct (users lib count (i + 1) (note (NewUser i) p)) as [[e|us] p'] eqn:Hu;
    [discriminate|].
  destruct (Z.eq_dec k i) as [->|Hne]; [exact Hi|].
  apply (IH (i + 1)%Z (note (NewUser i) p) us); [rewrite Hu; reflexivity | lia].
Qed.

Lemma bind_returns {A B} (m : M A) (k : A -> M B) (p : process) (b : B) :
  fst (bind m k p) = inr b ->
  exists a p', m p = (inr a, p') /\ fst (k a p') = inr b.
Proof.
  unfold bind. destruct (m p) as [[e|a] p']; [discriminate|].
  intros H. exists a, p'. split; [reflexivity | exact H].
Qed.

Lemma try_returns {A} (body : M A) (final : M unit) (p : process) (a : A) :
  fst (try_finally body final p) = inr a -> fst (body p) = inr a.
Proof.
  unfold try_finally. destruct (body p) as [r p'].
  destruct (final p') as [[e|u] p'']; [discriminate|]. intros H. exact H.
Qed.

Lemma check_returns (len n : Z) (p : process) (u : unit) :
  fst (check_length len n p) = inr u -> len = n.
Proof.
  unfold check_length. destruct (Z.eqb_spec len n) as [Heq|Hne]; [intros _; exact Heq|].
  discriminate.
Qed.

(** When the library works, [_bench_one] returns for each phase the
    difference of the two readings of the clock around it, having built
    [n] users with the scores 0 to [n - 1] in order between the first two
    readings and converted once, [n] payloads, between the last two, with
    the collector disabled during each phase. *)
Theorem bench_one_returns (lib : library) (n : Z) (p : process) :
  (0 <= n)%Z -> declares lib = true ->
  (forall i, (0 <= i < n)%Z -> constructs lib i = true) ->
  converts lib n = Some n ->
  let r := readings p in
  _bench_one lib n p =
  (inr {| instantiate_s := perf_counter lib (S r) - perf_counter lib r;
          validate_s := perf_counter lib (S (S (S r))) - perf_counter lib (S (S r)) |},
   {| gc_enabled := gc_enabled p;
      readings := S (S (S (S r)));
      did := did p ++ finished n (gc_enabled p) |}).
Proof.
  intros Hn Hd Hc Hv r.
  unfold _bench_one, declare. unfold bind at 1. rewrite Hd.
  unfold bind at 1, gc_isenabled. unfold bind at 1, gc_disable.
  unfold bind at 1. unfold try_finally at 1.
  unfold bind at 1, time_perf_counter at 1. unfold bind at 1.
  rewrite users_ok by (intros k Hk; apply Hc; rewrite Z2Nat.id in Hk by exact Hn; lia).
  unfold bind at 1, check_length at 1.
  rewrite scores_length, Z2Nat.id, Z.eqb_refl by exact Hn.
  cbn [negb ret]. unfold bind at 1, time_perf_counter at 1.
  cbn [note gc_enabled readings did fst snd].
  rewrite Z.max_l by lia.
  unfold finished. subst r.
  destruct (gc_enabled p); cbn [gc_enable ret gc_enabled readings did];
    unfold bind, gc_isenabled, gc_disable, try_finally, time_perf_counter, convert,
      check_length, note;
    cbn [gc_enabled readings did fst snd]; rewrite Hv, Z.eqb_refl;
    cbn [negb ret gc_enable gc_enabled readings did];
    repeat rewrite <- app_assoc; reflexivity.
Qed.

Lemma bench_one_returns_witness :
  fst (_bench_one working 3 fresh) = inr {| instantiate_s := 1; validate_s := 1 |} /\
  did (snd (_bench_one working 3 fresh)) =
    [Prepare; GcDisable; Clock; NewUser 0; NewUser 1; NewUser 2; Clock; GcEnable;
     GcDisable; Clock; Convert 3; Clock; GcEnable].
Proof.
  rewrite (bench_one_returns working 3 fresh);
    [|lia|reflexivity|intros; reflexivity|reflexivity].
  split; vm_compute; reflexivity.
Defined.

(** [_bench_one] returns timings only when the lengths are as expected:
    [n] is not negative, every user was built, and the conversion gave [n]
    objects for [n] payloads. *)
Theorem bench_one_checks_lengths (lib : library) (n : Z) (p : process)
  (t : timings) :
  fst (_bench_one lib n p) = inr t ->
  (0 <= n)%Z /\ declares lib = true /\
  (forall i, (0 <= i < n)%Z -> constructs lib i = true) /\
  converts lib n = Some n.
Proof.
  intros H. unfold _bench_one in H.
  apply bind_returns in H. destruct H as (u0 & p0 & Hdecl & H).
  apply bind_returns in H. destruct H as (was1 & p1 & _ & H).
  apply bind_returns in H. destruct H as (u1 & p2 & _ & H).
  apply bind_returns in H. destruct H as (inst & p3 & Hblock1 & H).
  apply bind_returns in H. destruct H as (was2 & p4 & _ & H).
  apply bind_returns in H. destruct H as (u2 & p5 & _ & H).
  apply bind_returns in H. destruct H as (val & p6 & Hblock2 & _).
  assert (Hd : declares lib = true).
  { unfold declare in Hdecl. destruct (declares lib); [reflexivity | discriminate]. }
  assert (H1 : fst (try_finally
                      (t0 <- time_perf_counter lib ;;
                       out <- users lib (Z.to_nat n) 0 ;;
                       check_length (Z.of_nat (List.length out)) n ;;
                       t1 <- time_perf_counter lib ;; ret (t1 - t0))
                      (if was1 then gc_enable else ret tt) p2) = inr inst)
    by (rewrite Hblock1; reflexivity).
  apply try_returns in H1.
  apply bind_returns in H1. destruct H1 as (t0 & q0 & _ & H1).
  apply bind_returns in H1. destruct H1 as (out & q1 & Husers & H1).
  apply bind_returns in H1. destruct H1 as (u3 & q2 & Hcheck & _).
  assert (Hlen : Z.of_nat (List.length out) = n).
  { apply (check_returns _ _ q1 u3). rewrite Hcheck. reflexivity. }
  assert (Hn : (0 <= n)%Z) by lia.
  assert (H2 : fst (try_finally
                      (t0 <- time_perf_counter lib ;;
                       len <- convert lib (Z.max n 0) ;;
                       check_length len n ;;
                       t1 <- time_perf_counter lib ;; ret (t1 - t0))
                      (if was2 then gc_enable else ret tt) p5) = inr val)
    by (rewrite Hblock2; reflexivity).
  apply try_returns in H2.
  apply bind_returns in H2. destruct H2 as (t0' & q0' & _ & H2).
  apply bind_returns in H2. destruct H2 as (len & q1' & Hconv & H2).
  apply bind_returns in H2. destruct H2 as (u4 & q2' & Hcheck2 & _).
  assert (Hlen2 : len = n).
  { apply (check_returns _ _ q1' u4). rewrite Hcheck2. reflexivity. }
  split; [exact Hn|]. split; [exact Hd|]. split.
  - intros i Hi. apply (users_returns lib (Z.to_nat n) 0 q0 out).
    + rewrite Husers. reflexivity.
    + rewrite Z2Nat.id by exact Hn. lia.
  - unfold convert in Hconv. rewrite Z.max_l in Hconv by lia.
    destruct (converts lib n) as [len'|]; [|discriminate].
    injection Hconv as <- _. rewrite Hlen2. reflexivity.
Qed.

Lemma bench_one_checks_lengths_witness :
  (0 <= 3)%Z /\ converts working 3 = Some 3%Z.
Proof.
  destruct (bench_one_checks_lengths working 3 fresh
              {| instantiate_s := 1; validate_s := 1 |})
    as (Hn & _ & _ & Hc).
  - vm_compute. reflexivity.
  - split; [exact Hn | exact Hc].
Defined.

End BenchBodyFacts.

(** ** The release script at its edges *)

Module ReleaseEdges.
Import Py Text Re Release ReleaseSpec ReFacts HeadingFacts RewriteFacts ReleaseClaims.
Local Open Scope list_scope.

(** *** A changelog with no line break *)

Lemma strip_prefix_In (p s r : str) (x : char) :
  strip_prefix p s = Some r -> In x r -> In x s.
Proof.
  intros H Hin. apply strip_prefix_app in H. subst s.
  apply in_or_app. right. exact Hin.
Qed.

Lemma span_snd_In (P : char -> bool) (s : str) (x : char) :
  In x (snd (span P s)) -> In x s.
Proof.
  intros H. rewrite <- (span_app P s). apply in_or_app. right. exact H.
Qed.

Lemma heading_mark_In (s r : str) (x : char) :
  heading_mark s = Some r -> In x r -> In x s.
Proof.
  unfold heading_mark.
  destruct (strip_prefix (lit "##") s) as [r0|] eqn:H0; [|discriminate].
  pose proof (span_snd_In space r0 x) as Hs.
  destruct (span space r0) as [blanks r1]. cbn [snd] in Hs.
  destruct (nonempty blanks); [|discriminate].
  intros H1 Hin. apply (strip_prefix_In _ _ _ _ H0), Hs.
  exact (strip_prefix_In _ _ _ _ H1 Hin).
Qed.

(** A version heading has a line break after its line. *)
Lemma heading_break (s version rest : str) :
  heading s = Some (version, rest) -> In nl s.
Proof.
  unfold heading. destruct (heading_mark s) as [r|] eqn:Hm; [|discriminate].
  pose proof (span_snd_In space r nl) as H1.
  destruct (span space r) as [blanks r1]. cbn [snd] in H1.
  pose proof (span_snd_In nonspace r1 nl) as H2.
  destruct (span nonspace r1) as [v r2]. cbn [snd] in H2.
  pose proof (span_snd_In not_newline r2 nl) as H3.
  destruct (span not_newline r2) as [l r3]. cbn [snd] in H3.
  pose proof (span_app newline r3) as H4.
  pose proof (span_all newline r3) as H5.
  destruct (span newline r3) as [breaks r4]. cbn [fst snd] in H4, H5.
  destruct breaks as [|b breaks].
  { rewrite andb_false_r. discriminate. }
  intros _. apply (heading_mark_In _ _ _ Hm), H1, H2, H3.
  rewrite <- H4. left.
  cbn [forallb] in H5. apply andb_prop in H5. destruct H5 as [Hb _].
  unfold newline in Hb. apply N.eqb_eq in Hb. exact Hb.
Qed.

Lemma no_break_no_section (s : str) : forall before,
  ~ In nl s -> first_section_from before s = None.
Proof.
  induction s as [|c s IH]; intros before Hno.
  - cbn [first_section_from]. destruct (at_bol before); [|reflexivity].
    destruct (heading []) as [[v r]|] eqn:Hh; [|reflexivity].
    exfalso. exact (Hno (heading_break _ _ _ Hh)).
  - cbn [first_section_from].
    assert (Hnone : (if at_bol before then heading (c :: s) else None) = None).
    { destruct (at_bol before); [|reflexivity].
      destruct (heading (c :: s)) as [[v r]|] eqn:Hh; [|reflexivity].
      exfalso. exact (Hno (heading_break _ _ _ Hh)). }
    rewrite Hnone. apply IH. intros Hin. apply Hno. right. exact Hin.
Qed.

(** On a changelog with no line break (the empty one, or one line with no
    break at its end, be it a version heading) [main] raises its
    [RuntimeError] and opens no tab: the heading's line must end with a
    line break. *)
Theorem no_line_break_raises (unicode_nd : char -> bool)
  (urlencode : list (str * str) -> str) (changelog_path changelog : str) :
  ~ In nl changelog ->
  main unicode_nd urlencode changelog_path changelog =
  (raise (RuntimeError (lit "Unable to parse changelog at " ++ changelog_path)), []).
Proof.
  intros Hno. unfold main.
  pose proof (search_heading changelog) as Hs.
  unfold first_section in Hs. rewrite (no_break_no_section _ [] Hno) in Hs.
  destruct (search heading_re changelog); [discriminate | reflexivity].
Qed.

Lemma no_line_break_raises_witness :
  main (fun _ => false) show_items (lit "changelog.md")
    (lit "## Version 1.0 (2025-01-01) - first release")
  = (raise (RuntimeError (lit "Unable to parse changelog at changelog.md")), []).
Proof.
  apply no_line_break_raises. vm_compute.
  intros H. repeat (destruct H as [H|H]; [discriminate H|]). exact H.
Defined.

(** *** The tag *)

Lemma heading_version_nonempty (s version rest : str) :
  heading s = Some (version, rest) -> version <> [].
Proof.
  unfold heading. destruct (heading_mark s) as [r|]; [|discriminate].
  destruct (span space r) as [blanks r1].
  destruct (span nonspace r1) as [v r2].
  destruct (span not_newline r2) as [l r3].
  destruct (span newline r3) as [breaks r4].
  destruct v as [|x v].
  - rewrite andb_false_r. cbn [andb]. discriminate.
  - destruct (_ && _); [|discriminate]. intros H. injection H as <- _. discriminate.
Qed.

Lemma first_section_version_nonempty (s : str) : forall before version notes,
  first_section_from before s = Some (version, notes) -> version <> [].
Proof.
  induction s as [|c s IH]; intros before version notes; cbn [first_section_from].
  - destruct (at_bol before); [|discriminate].
    destruct (heading []) as [[v r]|] eqn:Hh; [|discriminate].
    intros H. injection H as <- _. exact (heading_version_nonempty _ _ _ Hh).
  - destruct (if at_bol before then heading (c :: s) else None) as [[v r]|] eqn:Hh.
    + intros H. injection H as <- _.
      destruct (at_bol before); [|discriminate].
      exact (heading_version_nonempty _ _ _ Hh).
    + apply IH.
Qed.

(** Whenever [main] returns it has opened one tab, and the tag it passed
    to [urlencode] is not empty and has no white space in it; the title is
    "Version " followed by the tag. *)
Theorem release_tag (unicode_nd : char -> bool)
  (urlencode : list (str * str) -> str) (changelog_path changelog : str)
  (did : list event) :
  main unicode_nd urlencode changelog_path changelog = (ok tt, did) ->
  exists version body : str,
    did = [OpenNewTab
             (lit "https://github.com/jcrist/hyperspec/releases/new?"
              ++ urlencode [(lit "title", lit "Version " ++ version);
                            (lit "tag", version);
                            (lit "body", body)])] /\
    version <> [] /\ forallb nonspace version = true.
Proof.
  unfold main. pose proof (search_heading changelog) as Hs.
  destruct (search heading_re changelog) as [m|]; [|discriminate].
  cbn [option_map] in Hs. symmetry in Hs. unfold first_section in Hs.
  pose proof (first_section_version _ _ _ _ Hs) as Hv.
  pose proof (first_section_version_nonempty _ _ _ _ Hs) as Hne.
  rewrite (strip_nonspace _ Hv).
  intros H. injection H as <-.
  eexists _, _. split; [reflexivity|]. split; assumption.
Qed.

Lemma release_tag_witness :
  exists version body : str,
    [OpenNewTab
       (lit "https://github.com/jcrist/hyperspec/releases/new?"
        ++ lit "title=Version 0.19.0&tag=0.19.0&"
        ++ lit "body=- Fix the decoder (#123, #45).&")]
    = [OpenNewTab
         (lit "https://github.com/jcrist/hyperspec/releases/new?"
          ++ show_items [(lit "title", lit "Version " ++ version);
                         (lit "tag", version);
                         (lit "body", body)])] /\
    version <> [] /\ forallb nonspace version = true.
Proof.
  apply (release_tag (fun _ => false) show_items (lit "docs/changelog.md")
           sample_changelog).
  vm_compute. reflexivity.
Defined.

End ReleaseEdges.

(** ** Rewriting what was rewritten *)

Module RewriteFixed.
Import Py Text Re Release ReleaseSpec ReFacts HeadingFacts RewriteFacts.
Local Open Scope list_scope.

Section Rewrite.

Variable unicode_nd : char -> bool.


(** A reference is the five characters, digits, and a backquote. *)
Lemma pr_ref_shape (s digits rest : str) :
  pr_ref unicode_nd s = Some (digits, rest) ->
  s = lit "{pr}`" ++ digits ++ lit "`" ++ rest /\ digits <> []
  /\ forallb (digit unicode_nd) digits = true.
Proof.
  unfold ReleaseSpec.pr_ref.
  destruct (strip_prefix (lit "{pr}`") s) as [r|] eqn:Hp; [|discriminate].
  pose proof (span_app (digit unicode_nd) r) as Hr.
  pose proof (span_all (digit unicode_nd) r) as Ha.
  destruct (span (digit unicode_nd) r) as [ds r1]. cbn [fst snd] in *.
  destruct ds as [|d ds]; [discriminate|]. cbn [nonempty].
  destruct (strip_prefix (lit "`") r1) as [r2|] eqn:Hq; [|discriminate].
  intros H. injection H as <- <-.
  apply strip_prefix_app in Hp, Hq. subst s r1. rewrite <- Hr.
  split; [reflexivity|]. split; [discriminate | exact Ha].
Qed.

Lemma span_exact (P : char -> bool) (a : str) (c : char) (b : str) :
  forallb P a = true -> P c = false -> span P (a ++ c :: b) = (a, c :: b).
Proof.
  intros Ha Hc. induction a as [|x a IH].
  - cbn [app span]. rewrite Hc. reflexivity.
  - cbn [forallb] in Ha. apply andb_prop in Ha. destruct Ha as [Hx Ha].
    cbn [app span]. rewrite Hx, (IH Ha). reflexivity.
Qed.

Lemma backquote_no_digit : digit unicode_nd 96%N = false.
Proof. reflexivity. Qed.

Lemma strip_prefix_intro (pre s : str) : strip_prefix pre (pre ++ s) = Some s.
Proof.
  induction pre as [|x pre IH]; [reflexivity|].
  cbn [app strip_prefix]. rewrite N.eqb_refl. exact IH.
Qed.

Lemma pr_ref_intro (digits rest : str) :
  digits <> [] -> forallb (digit unicode_nd) digits = true ->
  pr_ref unicode_nd (lit "{pr}`" ++ digits ++ lit "`" ++ rest) = Some (digits, rest).
Proof.
  intros Hne Ha. unfold ReleaseSpec.pr_ref.
  rewrite strip_prefix_intro.
  assert (Hspan : span (digit unicode_nd) (digits ++ lit "`" ++ rest) = (digits, lit "`" ++ rest)).
  { exact (span_exact (digit unicode_nd) digits 96%N rest Ha backquote_no_digit). }
  rewrite Hspan.
  destruct digits as [|d ds]; [congruence|]. cbn [nonempty].
  rewrite strip_prefix_intro. reflexivity.
Qed.

(** What does not start with an opening brace is no reference. *)
Lemma pr_ref_brace (c : char) (s : str) : c <> 123%N -> pr_ref unicode_nd (c :: s) = None.
Proof.
  intros Hc. unfold ReleaseSpec.pr_ref. cbn [lit list_ascii_of_string map strip_prefix].
  change (N_of_ascii "{") with 123%N.
  destruct (N.eqb_spec 123 c) as [Heq|Hne]; [congruence | reflexivity].
Qed.

Lemma rewrite_skip (a r : str) :
  rewrite_pr_from unicode_nd (List.length a) (a ++ r) = rewrite_pr_from unicode_nd 0 r.
Proof.
  induction a as [|x a IH]; [reflexivity|].
  cbn [List.length app ReleaseSpec.rewrite_pr_from]. exact IH.
Qed.

(** The rewriting, one step at a time. *)
Lemma rewrite_step (c : char) (s : str) :
  rewrite_pr unicode_nd (c :: s) =
  match pr_ref unicode_nd (c :: s) with
  | Some (digits, rest) => lit "#" ++ digits ++ rewrite_pr unicode_nd rest
  | None => c :: rewrite_pr unicode_nd s
  end.
Proof.
  unfold ReleaseSpec.rewrite_pr. cbn [ReleaseSpec.rewrite_pr_from].
  destruct (pr_ref unicode_nd (c :: s)) as [[digits rest]|] eqn:Hp; [|reflexivity].
  destruct (pr_ref_shape _ _ _ Hp) as (Hs & _ & _).
  do 2 f_equal.
  assert (Htail : s = (lit "pr}`" ++ digits ++ lit "`") ++ rest).
  { change (lit "{pr}`") with (123%N :: lit "pr}`") in Hs.
    cbn [app] in Hs. injection Hs as _ Hs. rewrite Hs, <- !app_assoc. reflexivity. }
  rewrite Htail at 2.
  replace (List.length (c :: s) - List.length rest - 1)
    with (List.length (lit "pr}`" ++ digits ++ lit "`")).
  - apply rewrite_skip.
  - assert (Hl : List.length s
                 = List.length (lit "pr}`" ++ digits ++ lit "`") + List.length rest).
    { rewrite Htail at 1. apply length_app. }
    change (List.length (c :: s)) with (S (List.length s)). rewrite Hl. lia.
Qed.

(** What the rewriting leaves ahead of a hash was there, unchanged. *)
Lemma rewrite_prefix (x : str) : forall (s out : str),
  Forall (fun c => c <> 35%N) x -> rewrite_pr unicode_nd s = x ++ out ->
  exists s', s = x ++ s' /\ rewrite_pr unicode_nd s' = out.
Proof.
  induction x as [|c x IH]; intros s out Hx H.
  - exists s. split; [reflexivity | exact H].
  - inversion Hx as [|? ? Hc Hx']; subst.
    destruct s as [|c0 s]; [discriminate|].
    rewrite rewrite_step in H.
    destruct (pr_ref unicode_nd (c0 :: s)) as [[digits rest]|].
    + cbn [lit list_ascii_of_string map app] in H. injection H as Hh _.
      exfalso. apply Hc. symmetry. exact Hh.
    + cbn [app] in H. injection H as -> H.
      destruct (IH s out Hx' H) as (s' & -> & Hr).
      exists s'. split; [reflexivity | exact Hr].
Qed.

Lemma digit_not_hash (c : char) : digit unicode_nd c = true -> c <> 35%N.
Proof. intros H ->. discriminate. Qed.

Lemma digit_not_brace (c : char) : digit unicode_nd c = true -> c <> 123%N.
Proof. intros H ->. discriminate. Qed.

Lemma digits_not_hash (ds : str) :
  forallb (digit unicode_nd) ds = true -> Forall (fun c => c <> 35%N) ds.
Proof.
  induction ds as [|d ds IH]; [constructor|].
  cbn [forallb]. intros H. apply andb_prop in H. destruct H as [Hd Hds].
  constructor; [apply digit_not_hash, Hd | apply IH, Hds].
Qed.

(** No reference is left in a rewritten text. *)
Lemma rewrite_leaves_none (n : nat) : forall (s a b : str),
  List.length s <= n -> rewrite_pr unicode_nd s = a ++ b -> pr_ref unicode_nd b = None.
Proof.
  induction n as [|n IH]; intros s a b Hlen H.
  - destruct s; [|cbn in Hlen; lia].
    destruct a, b; try discriminate. reflexivity.
  - destruct s as [|c s].
    { destruct a, b; try discriminate. reflexivity. }
    cbn [List.length] in Hlen. rewrite rewrite_step in H.
    destruct (pr_ref unicode_nd (c :: s)) as [[digits rest]|] eqn:Hp.
    + destruct (pr_ref_shape _ _ _ Hp) as (Hs & Hne & Hd).
      assert (Hrest : List.length rest <= n).
      { apply (f_equal (@List.length char)) in Hs.
        rewrite !length_app in Hs.
        change (List.length (lit "{pr}`")) with 5 in Hs.
        change (List.length (c :: s)) with (S (List.length s)) in Hs. lia. }
      rewrite app_assoc in H. symmetry in H.
      apply app_eq_app in H. destruct H as (l & [[Ha Hb]|[Ha Hb]]).
      * apply (IH rest l b Hrest). exact Hb.
      * destruct l as [|x l].
        { cbn [app] in Hb. subst b. apply (IH rest [] _ Hrest). reflexivity. }
        subst b. cbn [app]. apply pr_ref_brace.
        assert (Hin : In x (lit "#" ++ digits)).
        { rewrite Ha. apply in_or_app. right. left. reflexivity. }
        cbn [lit list_ascii_of_string map app In] in Hin.
        destruct Hin as [<-|Hin]; [discriminate|].
        apply digit_not_brace.
        exact (proj1 (forallb_forall _ _) Hd x Hin).
    + destruct a as [|x a].
      * cbn [app] in H. subst b.
        destruct (pr_ref unicode_nd (c :: rewrite_pr unicode_nd s)) as [[digits rest]|] eqn:Hq; [|reflexivity].
        exfalso.
        destruct (pr_ref_shape _ _ _ Hq) as (Hs & Hne & Hd).
        change (lit "{pr}`") with (123%N :: lit "pr}`") in Hs.
        cbn [app] in Hs. injection Hs as -> Hs.
        assert (Hs2 : rewrite_pr unicode_nd s = (lit "pr}`" ++ digits ++ lit "`") ++ rest).
        { rewrite Hs, <- !app_assoc. reflexivity. }
        assert (Hx : Forall (fun c => c <> 35%N) (lit "pr}`" ++ digits ++ lit "`")).
        { apply Forall_app. split; [repeat constructor; discriminate|].
          apply Forall_app. split; [apply digits_not_hash, Hd|].
          repeat constructor; discriminate. }
        destruct (rewrite_prefix _ _ _ Hx Hs2) as (s' & Hs' & _).
        rewrite Hs', <- !app_assoc in Hp.
        change (123%N :: lit "pr}`" ++ digits ++ lit "`" ++ s')
          with (lit "{pr}`" ++ digits ++ lit "`" ++ s') in Hp.
        rewrite (pr_ref_intro digits s' Hne Hd) in Hp. discriminate.
      * cbn [app] in H. injection H as _ H.
        apply (IH s a b); [lia | exact H].
Qed.

(** A text with no reference is left as it is. *)
Lemma rewrite_nothing (s : str) :
  (forall a b, s = a ++ b -> pr_ref unicode_nd b = None) -> rewrite_pr unicode_nd s = s.
Proof.
  induction s as [|c s IH]; intros H; [reflexivity|].
  rewrite rewrite_step, (H [] (c :: s) eq_refl). f_equal.
  apply IH. intros a b Hs. apply (H (c :: a) b). rewrite Hs. reflexivity.
Qed.

End Rewrite.

(** After [re.sub] no pull-request reference is left in the body, so that
    substituting again changes nothing. *)
Theorem sub_leaves_no_reference (unicode_nd : char -> bool) (notes : str) :
  let body := sub (pr_re unicode_nd) pr_template notes in
  (forall a b, body = a ++ b -> pr_ref unicode_nd b = None) /\
  sub (pr_re unicode_nd) pr_template body = body.
Proof.
  cbv zeta. rewrite !sub_pr.
  assert (Hnone : forall a b, rewrite_pr unicode_nd notes = a ++ b ->
                              pr_ref unicode_nd b = None).
  { intros a b H. exact (rewrite_leaves_none unicode_nd _ notes a b (le_n _) H). }
  split; [exact Hnone|]. apply rewrite_nothing. exact Hnone.
Qed.

End RewriteFixed.

(** ** The median of the samples *)

Module MedianFacts.
Import Py Bench BenchSpec FloatSpec FloatFacts FloatOrder MedianSpec.
Local Open Scope list_scope.
Local Open Scope float_scope.

(** *** The order of numbers *)

Lemma before_irrefl (a : Z * Z * Z) : ~ before a a.
Proof. destruct a as [[a1 a2] a3]. unfold before. lia. Qed.

Lemma before_above (a b c : Z * Z * Z) : before a c -> ~ before a b -> before b c.
Proof.
  destruct a as [[a1 a2] a3], b as [[b1 b2] b3], c as [[c1 c2] c3].
  unfold before. lia.
Qed.

Lemma before_neither (a b : Z * Z * Z) : ~ before a b -> ~ before b a -> a = b.
Proof.
  destruct a as [[a1 a2] a3], b as [[b1 b2] b3]. unfold before. intros H1 H2.
  assert (a1 = b1 /\ a2 = b2 /\ a3 = b3) as (-> & -> & ->) by lia. reflexivity.
Qed.

Lemma ltb_irrefl (x : float) : (x <? x) = false.
Proof.
  destruct (x <? x) eqn:H; [|reflexivity]. apply ltb_rank in H.
  destruct H as (rx & ry & Hx & Hy & Hb). rewrite Hx in Hy. injection Hy as <-.
  destruct (before_irrefl _ Hb).
Qed.

Lemma leb_refl (x : float) : is_nan x = false -> (x <=? x) = true.
Proof. intros Hx. rewrite (leb_not_ltb x x Hx Hx), ltb_irrefl. reflexivity. Qed.

(** What is not above a number below [z] is below [z]. *)
Lemma leb_ltb (x y z : float) :
  is_nan x = false -> (x <=? y) = true -> (y <? z) = true -> (x <? z) = true.
Proof.
  intros Hx Hxy Hyz. destruct (ltb_number _ _ Hyz) as [Hy Hz].
  rewrite (leb_not_ltb x y Hx Hy) in Hxy. apply negb_true_iff in Hxy.
  apply ltb_rank in Hyz. apply ltb_rank.
  destruct Hyz as (ry & rz & Hry & Hrz & Hb).
  destruct (rank_number x Hx) as [rx Hrx].
  exists rx, rz. repeat split; try assumption.
  apply (before_above ry rx rz Hb). intros Hb'.
  assert (Hlt : (y <? x) = true) by (apply ltb_rank; exists ry, rx; auto).
  congruence.
Qed.

Lemma leb_trans (x y z : float) :
  is_nan x = false -> is_nan z = false ->
  (x <=? y) = true -> (y <=? z) = true -> (x <=? z) = true.
Proof.
  intros Hx Hz Hxy Hyz.
  rewrite (leb_not_ltb x z Hx Hz). apply negb_true_iff.
  destruct (z <? x) eqn:Hzx; [|reflexivity].
  assert (Hy : is_nan y = false).
  { rewrite is_nan_spec. rewrite leb_spec in Hxy. unfold SFleb in Hxy.
    rewrite SFcompare_rank in Hxy.
    destruct (Prim2SF y); try reflexivity.
    destruct (rank (Prim2SF x)); discriminate. }
  pose proof (leb_ltb y z x Hy Hyz Hzx) as Hyx.
  rewrite (leb_not_ltb x y Hx Hy), Hyx in Hxy. discriminate.
Qed.

(** Two numbers of which neither is below the other are alike. *)
Lemma neither_alike (x y : float) :
  is_nan x = false -> is_nan y = false ->
  (x <? y) = false -> (y <? x) = false -> alike x y.
Proof.
  intros Hx Hy Hxy Hyx.
  destruct (rank_number x Hx) as [rx Hrx], (rank_number y Hy) as [ry Hry].
  assert (Heq : rx = ry).
  { apply before_neither; intros Hb.
    - assert (H : (x <? y) = true) by (apply ltb_rank; exists rx, ry; auto).
      congruence.
    - assert (H : (y <? x) = true) by (apply ltb_rank; exists ry, rx; auto).
      congruence. }
  subst ry. unfold alike.
  destruct (Prim2SF x) as [sx|sx| |sx mx ex] eqn:Ex;
    destruct (Prim2SF y) as [sy|sy| |sy my ey] eqn:Ey;
    cbn [rank] in Hrx, Hry; try discriminate;
    try (right; eexists _, _; split; reflexivity);
    left; apply Prim2SF_inj; rewrite Ex, Ey;
    injection Hrx as <-; destruct sx, sy; try discriminate Hry;
    try reflexivity; injection Hry as H2 H3;
    assert (ex = ey) by lia; assert (mx = my) by lia; congruence.
Qed.

(** *** The code's sort gives an ascending arrangement *)

Lemma insort_perm (x : float) (l : list float) : Permutation (x :: l) (insort x l).
Proof.
  induction l as [|y l IH]; [reflexivity|]. cbn [insort].
  destruct (x <? y); [reflexivity|].
  rewrite perm_swap. apply perm_skip, IH.
Qed.

Lemma fold_insort_perm (data : list float) : forall acc,
  Permutation (acc ++ data) (fold_left (fun acc x => insort x acc) data acc).
Proof.
  induction data as [|x data IH]; intros acc; [rewrite app_nil_r; reflexivity|].
  cbn [fold_left]. rewrite <- IH.
  rewrite <- (insort_perm x acc). cbn [app]. symmetry. apply Permutation_middle.
Qed.

Lemma sorted_perm (data : list float) : Permutation data (sorted data).
Proof. exact (fold_insort_perm data []). Qed.

Lemma insort_numbers (x : float) (l : list float) :
  is_nan x = false -> numbers l -> numbers (insort x l).
Proof.
  intros Hx Hl. unfold numbers. rewrite <- (insort_perm x l).
  constructor; assumption.
Qed.

Lemma insort_ascending (x : float) (l : list float) :
  is_nan x = false -> numbers l -> ascending l -> ascending (insort x l).
Proof.
  intros Hx Hn Hl. induction Hl as [|y l Hl IH Hy].
  - repeat constructor.
  - inversion Hn as [|? ? Hny Hnl]; subst. cbn [insort].
    destruct (x <? y) eqn:Hxy.
    + constructor; [constructor; assumption|].
      constructor; [exact (ltb_leb _ _ Hxy)|].
      rewrite Forall_forall in *. intros z Hz.
      apply (leb_trans x y z Hx (Hnl z Hz) (ltb_leb _ _ Hxy) (Hy z Hz)).
    + constructor; [exact (IH Hnl)|].
      rewrite <- (insort_perm x l). constructor; [|exact Hy].
      rewrite (leb_not_ltb y x Hny Hx), Hxy. reflexivity.
Qed.

Lemma fold_insort_ascending (data : list float) : forall acc,
  numbers data -> numbers acc -> ascending acc ->
  ascending (fold_left (fun acc x => insort x acc) data acc).
Proof.
  induction data as [|x data IH]; intros acc Hd Hn Ha; [exact Ha|].
  inversion Hd; subst. cbn [fold_left].
  apply IH; [assumption | apply insort_numbers; assumption
            | apply insort_ascending; assumption].
Qed.

(** On numbers, Python's [sorted] puts the data in ascending order. *)
Lemma sorted_ascending (data : list float) : numbers data -> ascending (sorted data).
Proof. intros H. apply fold_insort_ascending; [exact H | constructor | constructor]. Qed.


(** *** Counting *)

Lemma filter_length_perm (f : float -> bool) (l l' : list float) :
  Permutation l l' -> List.length (filter f l) = List.length (filter f l').
Proof.
  intros H. induction H as [|x l l' _ IH|x y l|l l' l'' _ IH1 _ IH2].
  - reflexivity.
  - cbn [filter]. destruct (f x); cbn [List.length]; congruence.
  - cbn [filter]. destruct (f x), (f y); reflexivity.
  - congruence.
Qed.

Lemma filter_length_le (f g : float -> bool) (l : list float) :
  (forall y, In y l -> f y = true -> g y = true) ->
  (List.length (filter f l) <= List.length (filter g l))%nat.
Proof.
  induction l as [|x l IH]; intros H; [reflexivity|].
  assert (Hl : (List.length (filter f l) <= List.length (filter g l))%nat).
  { apply IH. intros y Hy. apply H. right. exact Hy. }
  cbn [filter]. destruct (f x) eqn:Hf.
  - rewrite (H x (or_introl eq_refl) Hf). cbn [List.length]. lia.
  - destruct (g x); cbn [List.length]; lia.
Qed.

Lemma filter_none (f : float -> bool) (l : list float) :
  Forall (fun y => f y = false) l -> filter f l = [].
Proof.
  intros H. induction H as [|x l Hx _ IH]; [reflexivity|].
  cbn [filter]. rewrite Hx. exact IH.
Qed.

(** In an ascending list of numbers, at most [k] elements are below the
    one at position [k], and more than [k] are not above it. *)
Lemma below_nth (l : list float) :
  ascending l -> numbers l ->
  forall k, (k < List.length l)%nat -> (below (nth k l 0%float) l <= k)%nat.
Proof.
  intros Ha. induction Ha as [|a l Ha IH Hall]; intros Hn k Hk.
  - cbn [List.length] in Hk. lia.
  - inversion Hn as [|? ? Hna Hnl]; subst. unfold below in *.
    destruct k as [|k]; cbn [nth filter].
    + rewrite ltb_irrefl. rewrite filter_none; [reflexivity|].
      rewrite Forall_forall in *. intros y Hy.
      specialize (Hall y Hy). rewrite (leb_not_ltb a y Hna (Hnl y Hy)) in Hall.
      apply negb_true_iff in Hall. exact Hall.
    + cbn [List.length] in Hk.
      specialize (IH Hnl k ltac:(lia)).
      destruct (a <? nth k l 0); cbn [List.length]; lia.
Qed.

Lemma upto_nth (l : list float) :
  ascending l -> numbers l ->
  forall k, (k < List.length l)%nat -> (k < upto (nth k l 0%float) l)%nat.
Proof.
  intros Ha. induction Ha as [|a l Ha IH Hall]; intros Hn k Hk.
  - cbn [List.length] in Hk. lia.
  - inversion Hn as [|? ? Hna Hnl]; subst. unfold upto in *.
    destruct k as [|k]; cbn [nth filter].
    + rewrite (leb_refl a Hna). cbn [List.length]. lia.
    + cbn [List.length] in Hk.
      specialize (IH Hnl k ltac:(lia)).
      assert (Hin : In (nth k l 0) l) by (apply nth_In; lia).
      rewrite Forall_forall in Hall. rewrite (Hall _ Hin).
      cbn [List.length]. lia.
Qed.

(** *** Two ascending arrangements *)

Lemma numbers_perm (l l' : list float) : Permutation l l' -> numbers l -> numbers l'.
Proof. intros H Hn. unfold numbers. rewrite <- H. exact Hn. Qed.

Lemma nth_not_below (l l' : list float) (k : nat) :
  Permutation l l' -> ascending l -> ascending l' -> numbers l ->
  (k < List.length l)%nat -> (nth k l 0 <? nth k l' 0) = false.
Proof.
  intros Hp Ha Ha' Hn Hk.
  pose proof (numbers_perm _ _ Hp Hn) as Hn'.
  pose proof (Permutation_length Hp) as Hlen.
  destruct (nth k l 0 <? nth k l' 0) eqn:Hlt; [|reflexivity]. exfalso.
  pose proof (upto_nth l Ha Hn k Hk) as H1.
  pose proof (below_nth l' Ha' Hn' k ltac:(lia)) as H2.
  assert (H3 : (upto (nth k l 0%float) l <= below (nth k l' 0%float) l)%nat).
  { apply filter_length_le. intros y Hy Hle.
    unfold numbers in Hn. rewrite Forall_forall in Hn.
    exact (leb_ltb y _ _ (Hn y Hy) Hle Hlt). }
  unfold below in H2, H3.
  rewrite (filter_length_perm _ _ _ Hp) in H3. lia.
Qed.

(** Two ascending arrangements of the same numbers hold, place by place,
    the same numbers. *)
Lemma nth_alike (l l' : list float) (k : nat) :
  Permutation l l' -> ascending l -> ascending l' -> numbers l ->
  (k < List.length l)%nat -> alike (nth k l 0) (nth k l' 0).
Proof.
  intros Hp Ha Ha' Hn Hk.
  pose proof (numbers_perm _ _ Hp Hn) as Hn'.
  pose proof (Permutation_length Hp) as Hlen.
  apply neither_alike.
  - unfold numbers in Hn. rewrite Forall_forall in Hn. apply Hn, nth_In, Hk.
  - unfold numbers in Hn'. rewrite Forall_forall in Hn'. apply Hn', nth_In. lia.
  - exact (nth_not_below l l' k Hp Ha Ha' Hn Hk).
  - apply (nth_not_below l' l k (Permutation_sym Hp) Ha' Ha Hn'). lia.
Qed.

(** *** Arithmetic on numbers that are alike *)

Lemma alike_refl (x : float) : alike x x.
Proof. left. reflexivity. Qed.

Lemma zero_alike (x y : float) :
  (exists s, Prim2SF x = S754_zero s) -> (exists s, Prim2SF y = S754_zero s) ->
  alike x y.
Proof. intros [s Hx] [s' Hy]. right. exists s, s'. split; assumption. Qed.

Lemma SF_2 : Prim2SF 2 = S754_finite false 4503599627370496 (-51).
Proof. vm_compute. reflexivity. Qed.

Lemma add_zeros (a b : float) (s u : bool) :
  Prim2SF a = S754_zero s -> Prim2SF b = S754_zero u ->
  exists r, Prim2SF (a + b) = S754_zero r.
Proof.
  intros Ha Hb. rewrite add_spec, Ha, Hb. destruct s, u; eexists; reflexivity.
Qed.

Lemma add_alike (a a' b b' : float) :
  alike a a' -> alike b b' -> alike (a + b) (a' + b').
Proof.
  intros [->|(s & s' & Ha & Ha')] [->|(u & u' & Hb & Hb')].
  - apply alike_refl.
  - destruct (Prim2SF a') as [sa|sa| |sa ma ea] eqn:Ea.
    + apply zero_alike; eapply add_zeros; eassumption.
    + left. apply Prim2SF_inj. rewrite !add_spec, Ea, Hb, Hb'. reflexivity.
    + left. apply Prim2SF_inj. rewrite !add_spec, Ea, Hb, Hb'. reflexivity.
    + left. apply Prim2SF_inj. rewrite !add_spec, Ea, Hb, Hb'. reflexivity.
  - destruct (Prim2SF b') as [sb|sb| |sb mb eb] eqn:Eb.
    + apply zero_alike; eapply add_zeros; eassumption.
    + left. apply Prim2SF_inj. rewrite !add_spec, Eb, Ha, Ha'. reflexivity.
    + left. apply Prim2SF_inj. rewrite !add_spec, Eb, Ha, Ha'. reflexivity.
    + left. apply Prim2SF_inj. rewrite !add_spec, Eb, Ha, Ha'. reflexivity.
  - apply zero_alike; eapply add_zeros; eassumption.
Qed.

Lemma half_alike (a a' : float) : alike a a' -> alike (a / 2) (a' / 2).
Proof.
  intros [->|(s & s' & Ha & Ha')]; [apply alike_refl|].
  apply zero_alike; rewrite div_spec, SF_2, ?Ha, ?Ha'; eexists; reflexivity.
Qed.

(** The regression percentage is the same for medians that are alike. *)
Lemma regression_alike (m m' h h' : float) :
  alike m m' -> alike h h' -> regression m h = regression m' h'.
Proof.
  unfold regression, pct_value.
  intros [->|(s & s' & Hm & Hm')] Hh.
  - destruct (m' =? 0) eqn:Hz; [reflexivity|].
    destruct Hh as [->|(u & u' & Hh & Hh')]; [reflexivity|].
    assert (Hsub : h - m' = h' - m'); [|rewrite Hsub; reflexivity].
    apply Prim2SF_inj. rewrite !sub_spec, Hh, Hh'.
    rewrite eqb_spec, SF_0 in Hz.
    destruct (Prim2SF m') as [sm|sm| |sm mm em]; try reflexivity.
    destruct sm; discriminate Hz.
  - assert (Hz : (m =? 0) = true).
    { rewrite eqb_spec, SF_0, Hm. destruct s; reflexivity. }
    assert (Hz' : (m' =? 0) = true).
    { rewrite eqb_spec, SF_0, Hm'. destruct s'; reflexivity. }
    rewrite Hz, Hz'. reflexivity.
Qed.

(** *** The median is one number *)

Lemma middle_alike (l l' : list float) :
  Permutation l l' -> ascending l -> ascending l' -> numbers l ->
  alike (middle l) (middle l').
Proof.
  intros Hp Ha Ha' Hn. pose proof (Permutation_length Hp) as Hlen.
  unfold middle. rewrite <- Hlen.
  destruct (List.length l) as [|n] eqn:Hl.
  - destruct l; [|discriminate]. destruct l'; [|discriminate]. apply alike_refl.
  - rewrite <- Hl.
    assert (Hhalf : (List.length l / 2 < List.length l)%nat).
    { apply Nat.div_lt; lia. }
    destruct (List.length l mod 2 =? 1)%nat.
    + apply nth_alike; assumption.
    + apply half_alike, add_alike; apply nth_alike; try assumption. lia.
Qed.

(** Every median of a list of numbers is the same number. *)
Lemma median_alike (data : list float) (m m' : float) :
  numbers data -> is_median data m -> is_median data m' -> alike m m'.
Proof.
  intros Hn (l & Hp & Ha & ->) (l' & Hp' & Ha' & ->).
  apply middle_alike; try assumption.
  - rewrite <- Hp. exact Hp'.
  - exact (numbers_perm _ _ Hp Hn).
Qed.

(** What [statistics.median] returns is a median. *)
Lemma median_value_is (data : list float) :
  numbers data -> is_median data (median_value data).
Proof.
  intros Hn. exists (sorted data).
  split; [apply sorted_perm|]. split; [apply sorted_ascending, Hn | reflexivity].
Qed.

(** The percentage [summarize] computes is the regression of any medians. *)
Lemma median_pct_is (msg hyp : list float) (m h : float) :
  numbers msg -> numbers hyp -> is_median msg m -> is_median hyp h ->
  median_pct msg hyp = regression m h.
Proof.
  intros Hm Hh Him Hih. unfold median_pct.
  change (pct_value (median_value hyp - median_value msg) (median_value msg))
    with (regression (median_value msg) (median_value hyp)).
  apply regression_alike.
  - exact (median_alike msg _ _ Hm (median_value_is msg Hm) Him).
  - exact (median_alike hyp _ _ Hh (median_value_is hyp Hh) Hih).
Qed.

End MedianFacts.

(** ** The verdict follows the medians *)

Module MedianClaims.
Import Py Bench BenchSpec FloatFacts BenchRun BenchClaims MedianSpec MedianFacts
  MedianRun.
Local Open Scope string_scope.
Local Open Scope list_scope.
Local Open Scope float_scope.

Lemma collected_numbers (t : nat -> timings) (count c : nat) :
  (forall k, is_nan (instantiate_s (t k)) = false
             /\ is_nan (validate_s (t k)) = false) ->
  let s := collected t count c in
  numbers (msg_inst s) /\ numbers (hyp_inst s) /\
  numbers (msg_val s) /\ numbers (hyp_val s).
Proof.
  intros H. cbv zeta. unfold collected, numbers. cbn [msg_inst hyp_inst msg_val hyp_val].
  repeat split; apply Forall_map, Forall_forall; intros k _; apply H.
Qed.

(** Claim C1.  In every run of [main] in which both imports succeed and
    every call of [_bench_one] returns timings that are numbers, the two
    summary lines show medians of the samples collected (the middle of the
    samples put in ascending order) and the regression percentages of
    hyperspec's medians over msgspec's; and, whichever medians of the
    samples are taken: if the instantiation percentage or the validation
    percentage exceeds 1.0, [main] returns 1 and prints the FAIL line to
    stderr and no PASS line; otherwise it returns 0 and prints the PASS
    line and no FAIL line. *)
Theorem main_exit_status (w : world) (t : nat -> timings) (a : args) :
  (forall l, import_ok w l = true) ->
  (forall k l n, measure w k l n = Some (t k)) ->
  (forall k, is_nan (instantiate_s (t k)) = false
             /\ is_nan (validate_s (t k)) = false) ->
  let runs := Z.max 1 (Z.min (arg_runs a) 10) in
  let warmup := Z.max 0 (arg_warmup a) in
  let s := collected t (Z.to_nat runs) (2 * Z.to_nat warmup) in
  let status := fst (main w a init) in
  let tr := trace (snd (main w a init)) in
  let fail_printed := In (Stderr (LText fail_text)) tr in
  let pass_printed := In (Stdout (LText pass_text)) tr in
  (exists m_inst h_inst m_val h_val : float,
     is_median (msg_inst s) m_inst /\ is_median (hyp_inst s) h_inst /\
     is_median (msg_val s) m_val /\ is_median (hyp_val s) h_val /\
     In (Stdout (LSummary "instantiate" m_inst h_inst (regression m_inst h_inst)
                   (_classify_regression (regression m_inst h_inst)))) tr /\
     In (Stdout (LSummary "validate" m_val h_val (regression m_val h_val)
                   (_classify_regression (regression m_val h_val)))) tr) /\
  (forall m_inst h_inst m_val h_val : float,
     is_median (msg_inst s) m_inst -> is_median (hyp_inst s) h_inst ->
     is_median (msg_val s) m_val -> is_median (hyp_val s) h_val ->
     let inst_pct := regression m_inst h_inst in
     let val_pct := regression m_val h_val in
     ((1 <? inst_pct) = true \/ (1 <? val_pct) = true ->
        status = ok 1%Z /\ fail_printed /\ ~ pass_printed) /\
     (~ ((1 <? inst_pct) = true \/ (1 <? val_pct) = true) ->
        status = ok 0%Z /\ pass_printed /\ ~ fail_printed)).
Proof.
  intros Hi Hc Hnum runs warmup s status tr fail_printed pass_printed.
  destruct (collected_numbers t (Z.to_nat runs) (2 * Z.to_nat warmup) Hnum)
    as (Hmi & Hhi & Hmv & Hhv). fold s in Hmi, Hhi, Hmv, Hhv.
  pose proof (status_of_code_medians w t a Hi Hc) as H. cbv zeta in H.
  fold runs warmup s in H. destruct H as (Hl1 & Hl2 & Hfail & Hpass).
  split.
  - exists (median_value (msg_inst s)), (median_value (hyp_inst s)),
      (median_value (msg_val s)), (median_value (hyp_val s)).
    repeat (split; [apply median_value_is; assumption|]).
    split; [exact Hl1 | exact Hl2].
  - intros m_inst h_inst m_val h_val Him Hih Hvm Hvh inst_pct val_pct.
    subst inst_pct val_pct.
    rewrite <- (median_pct_is _ _ _ _ Hmi Hhi Him Hih).
    rewrite <- (median_pct_is _ _ _ _ Hmv Hhv Hvm Hvh).
    split; [exact Hfail | exact Hpass].
Qed.

Lemma main_exit_status_witness :
  hyp_inst (collected uneven_clock 3 0) = [1; 1.5; 1] /\
  is_median [1; 1.5; 1] 1 /\
  fst (main uneven_world uneven_args init) = ok 0%Z /\
  In (Stdout (LText pass_text)) (trace (snd (main uneven_world uneven_args init))).
Proof.
  assert (Hnum : forall k, is_nan (instantiate_s (uneven_clock k)) = false
                           /\ is_nan (validate_s (uneven_clock k)) = false).
  { intros k. unfold uneven_clock.
    destruct (Nat.even k); [split; reflexivity|].
    destruct (k =? 3)%nat; split; reflexivity. }
  assert (Hone : is_median [1; 1; 1] 1).
  { exists [1; 1; 1]. split; [reflexivity|].
    split; [repeat constructor | reflexivity]. }
  assert (Htwo : is_median [2; 2; 2] 2).
  { exists [2; 2; 2]. split; [reflexivity|].
    split; [repeat constructor | reflexivity]. }
  assert (Hmid : is_median [1; 1.5; 1] 1).
  { exists [1; 1; 1.5]. split; [apply perm_skip, perm_swap|].
    split; [repeat constructor | reflexivity]. }
  split; [reflexivity|]. split; [exact Hmid|].
  destruct (main_exit_status uneven_world uneven_clock uneven_args
              (fun _ => eq_refl) (fun _ _ _ => eq_refl) Hnum) as [_ Hall].
  destruct (Hall 1 1 2 2 Hone Hmid Htwo Htwo) as [_ Hpass].
  destruct Hpass as (Hs & Hp & _).
  - intros [H|H]; vm_compute in H; discriminate H.
  - split; [exact Hs | exact Hp].
Defined.

End MedianClaims.
